(** * Clojure-Sublimed: the socket REPL connection

    A shallow embedding of [cs_conn.py] (class [Connection]) and
    [cs_conn_socket_repl.py] (the line framer [lines], [escape] and class
    [ConnectionSocketRepl]), and the properties of the connection core
    proved over it.

    Python values are modelled as follows.
    - [str] is a list of Unicode code points, [bytes] a list of bytes.
    - Mutable objects ([self], the plugin state, the Eval registry) are
      threaded explicitly through a state-and-exception monad.
    - Calls that leave the two source files (the editor API, the other
      plugin modules, the socket, the clock) are either recorded as events
      of a trace or supplied by an explicit environment. *)

From Stdlib Require Import ZArith NArith List Strings.String Strings.Ascii Strings.Byte Lia.
From Stdlib Require Import DecimalNat DecimalZ.
From stdpp Require Import base option list gmap.
From Equations Require Import Equations.

Local Open Scope N_scope.

(** ** Python values *)

Module Py.

(** Python [str]: a sequence of code points. *)
Definition str := list N.

(** Python [bytes]. *)
Definition bytes := list byte.

(** A [str] literal of the source. *)
Definition u (s : string) : str := map N_of_ascii (list_ascii_of_string s).

(** The exception classes that the modelled code can raise.  [OSError]
    stands for the class and its subclasses ([ConnectionRefusedError],
    [BrokenPipeError], ...): the only distinction the source makes is
    [except OSError] against everything else. *)
Inductive exn :=
| OSError
| UnicodeDecodeError
| UnicodeEncodeError
| KeyError (key : str)
| AttributeError
| TypeError
| ParseError.

Definition is_OSError (e : exn) : bool :=
  match e with OSError => true | _ => false end.

(** The values held by a decoded message and by identifiers. *)
Inductive value :=
| VNone
| VInt (z : Z)
| VStr (s : str).

#[export] Instance value_eq_dec : EqDecision value.
Proof. solve_decision. Defined.

#[export] Instance exn_eq_dec : EqDecision exn.
Proof. solve_decision. Defined.

(** Decimal digits, most significant first. *)
Fixpoint digits (d : Decimal.uint) : str :=
  match d with
  | Decimal.Nil => []
  | Decimal.D0 d => 48 :: digits d
  | Decimal.D1 d => 49 :: digits d
  | Decimal.D2 d => 50 :: digits d
  | Decimal.D3 d => 51 :: digits d
  | Decimal.D4 d => 52 :: digits d
  | Decimal.D5 d => 53 :: digits d
  | Decimal.D6 d => 54 :: digits d
  | Decimal.D7 d => 55 :: digits d
  | Decimal.D8 d => 56 :: digits d
  | Decimal.D9 d => 57 :: digits d
  end.

(** [str(n)] for a non-negative [int] such as an [enumerate] index. *)
Definition str_of_nat (n : nat) : str := digits (Nat.to_uint n).

(** [str(z)] for an [int]. *)
Definition str_of_Z (z : Z) : str :=
  match Z.to_int z with
  | Decimal.Pos d => digits d
  | Decimal.Neg d => 45 :: digits d
  end.

(** The characters that decimal numbers are written with: the digits and
    the minus sign. *)
Definition numeric (c : N) : Prop := c = 45 \/ (48 <= c <= 57).

(** What an f-string substitutes for [{v}]: [str(v)]. *)
Definition format (v : value) : str :=
  match v with
  | VNone => u "None"
  | VInt z => str_of_Z z
  | VStr s => s
  end.

(** Truthiness of a value ([if v:], [a or b]). *)
Definition truthy (v : value) : bool :=
  match v with
  | VNone => false
  | VInt z => negb (z =? 0)%Z
  | VStr s => match s with [] => false | _ => true end
  end.

(** [needle in haystack] on [str]. *)
Fixpoint starts_with (prefix s : str) : bool :=
  match prefix, s with
  | [], _ => true
  | p :: prefix', c :: s' => (p =? c) && starts_with prefix' s'
  | _ :: _, [] => false
  end.

Fixpoint contains (needle haystack : str) : bool :=
  starts_with needle haystack ||
  match haystack with
  | [] => false
  | _ :: rest => contains needle rest
  end.

(** ** [bytes.decode()]: strict UTF-8 *)

Definition in_range (lo hi : N) (b : byte) : bool :=
  (lo <=? Byte.to_N b) && (Byte.to_N b <=? hi).

(** The six payload bits of a continuation byte. *)
Definition low6 (b : byte) : N := Byte.to_N b - 128.

Fixpoint decode (bs : bytes) : option str :=
  match bs with
  | [] => Some []
  | b0 :: r0 =>
      let n0 := Byte.to_N b0 in
      if n0 <? 128 then cons n0 <$> decode r0
      else if in_range 194 223 b0 then
        match r0 with
        | b1 :: r1 =>
            if in_range 128 191 b1
            then cons ((n0 - 192) * 64 + low6 b1) <$> decode r1
            else None
        | _ => None
        end
      else if in_range 224 239 b0 then
        match r0 with
        | b1 :: b2 :: r2 =>
            let lo := if n0 =? 224 then 160 else 128 in
            let hi := if n0 =? 237 then 159 else 191 in
            if in_range lo hi b1 && in_range 128 191 b2
            then cons ((n0 - 224) * 4096 + low6 b1 * 64 + low6 b2) <$> decode r2
            else None
        | _ => None
        end
      else if in_range 240 244 b0 then
        match r0 with
        | b1 :: b2 :: b3 :: r3 =>
            let lo := if n0 =? 240 then 144 else 128 in
            let hi := if n0 =? 244 then 143 else 191 in
            if in_range lo hi b1 && in_range 128 191 b2 && in_range 128 191 b3
            then cons ((n0 - 240) * 262144 + low6 b1 * 4096 + low6 b2 * 64 + low6 b3)
                   <$> decode r3
            else None
        | _ => None
        end
      else None
  end.

(** [str.encode()]: UTF-8.  Code points outside the Unicode range and the
    surrogates cannot be encoded. *)
Definition byte_of (n : N) : byte :=
  match Byte.of_N n with Some b => b | None => x00 end.

Fixpoint encode (s : str) : option bytes :=
  match s with
  | [] => Some []
  | c :: rest =>
      if c <? 128 then cons (byte_of c) <$> encode rest
      else if c <? 2048 then
        app [byte_of (192 + c / 64); byte_of (128 + c mod 64)] <$> encode rest
      else if (55296 <=? c) && (c <=? 57343) then None
      else if c <? 65536 then
        app [byte_of (224 + c / 4096); byte_of (128 + (c / 64) mod 64);
             byte_of (128 + c mod 64)] <$> encode rest
      else if c <? 1114112 then
        app [byte_of (240 + c / 262144); byte_of (128 + (c / 4096) mod 64);
             byte_of (128 + (c / 64) mod 64); byte_of (128 + c mod 64)] <$> encode rest
      else None
  end.

End Py.
Import Py.

(** ** The line framer: [lines] *)

Module Framer.

(** The socket as [lines] sees it: the chunks that successive
    [recv(4096)] calls return, and how the stream ends once they are
    used up: an orderly close ([recv] returns [b'']) or a failure
    ([recv] raises [OSError]). *)
Record socket := {
  incoming : list bytes;
  broken : bool
}.

(** How a generator stops: it returns, or an exception leaves it. *)
Inductive gen_end :=
| GenStop
| GenRaise (e : exn).

(** [b'\n' in buffer] together with [buffer.split(b'\n', 1)]: [None] when
    the buffer holds no newline byte. *)
Fixpoint split_newline (buffer : bytes) : option (bytes * bytes) :=
  match buffer with
  | [] => None
  | b :: rest =>
      if Byte.eqb b x0a then Some ([], rest)
      else match split_newline rest with
           | Some (line, tail) => Some (b :: line, tail)
           | None => None
           end
  end.

Lemma split_newline_shorter buffer line rest :
  split_newline buffer = Some (line, rest) -> (length rest < length buffer)%nat.
Proof.
  revert line; induction buffer as [|b r IH]; intros line; simpl; [discriminate|].
  destruct (Byte.eqb b x0a).
  - intros [= <- <-]. lia.
  - destruct (split_newline r) as [[l t]|]; [|discriminate].
    intros [= <- <-]. specialize (IH _ eq_refl). lia.
Qed.

Definition inspect {A} (a : A) : {b : A | a = b} := exist _ a eq_refl.

(** The inner loop
    [while b'\n' in buffer: (line, buffer) = buffer.split(b'\n', 1); yield line.decode()].
    It gives the lines yielded and then either the buffer left over or the
    exception raised by [decode]. *)
Equations? drain (buffer : bytes) : list str * (exn + bytes)
  by wf (length buffer) lt :=
  drain buffer with inspect (split_newline buffer) := {
    | exist _ None _ => ([], inr buffer)
    | exist _ (Some (line, rest)) Hsplit with decode line := {
        | None => ([], inl UnicodeDecodeError)
        | Some text => let r := drain rest in (text :: fst r, snd r) } }.
Proof. eapply split_newline_shorter; eauto. Qed.

(** The end of the generator, after [break]:
    [if buffer: yield buffer.decode()]. *)
Definition flush (buffer : bytes) : list str * gen_end :=
  match buffer with
  | [] => ([], GenStop)
  | _ =>
      match decode buffer with
      | Some text => ([text], GenStop)
      | None => ([], GenRaise UnicodeDecodeError)
      end
  end.

(** What was yielded so far, followed by what the rest of the run gives. *)
Definition then_lines (ls : list str) (r : list str * gen_end) : list str * gen_end :=
  (ls ++ fst r, snd r).

(** One turn of the outer [while True] for each [recv]. *)
Fixpoint lines_loop (is_broken : bool) (buffer : bytes) (chunks : list bytes)
  : list str * gen_end :=
  let finish buffer :=
    (* [more] is empty: the inner loop runs, then [break] *)
    match drain buffer with
    | (ls, inl e) => (ls, GenRaise e)
    | (ls, inr buffer) => then_lines ls (flush buffer)
    end in
  match chunks with
  | [] => if is_broken then ([], GenRaise OSError) else finish buffer
  | [] :: _ => finish buffer
  | more :: rest =>
      match drain (buffer ++ more) with
      | (ls, inl e) => (ls, GenRaise e)
      | (ls, inr buffer) => then_lines ls (lines_loop is_broken buffer rest)
      end
  end.

(** [lines(socket)]: everything the generator yields, in order, and how it
    ends. *)
Definition lines (s : socket) : list str * gen_end :=
  lines_loop (broken s) [] (incoming s).

(** A stream that delivers [chunks] and is then closed by the peer. *)
Definition stream (chunks : list bytes) : socket :=
  {| incoming := chunks; broken := false |}.

(** The framing as the specification words it: the bytes are cut at
    every newline byte, and what follows the last newline is one more
    line when it is not empty. *)
Fixpoint frame (cur : bytes) (bs : bytes) : list bytes :=
  match bs with
  | [] => match cur with [] => [] | _ => [cur] end
  | b :: rest =>
      if Byte.eqb b x0a then cur :: frame [] rest
      else frame (cur ++ [b]) rest
  end.

(** Decoding the framed lines one after the other, as the consumer of the
    generator receives them. *)
Fixpoint decode_lines (ls : list bytes) : list str * gen_end :=
  match ls with
  | [] => ([], GenStop)
  | l :: rest =>
      match decode l with
      | None => ([], GenRaise UnicodeDecodeError)
      | Some text => let r := decode_lines rest in (text :: fst r, snd r)
      end
  end.

End Framer.

(** ** The message codec: [escape] and the outgoing wire text *)

Module Codec.

Definition backslash : N := 92.
Definition dquote : N := 34.

(** [s.replace(old, new)] for a pattern [old] of one character. *)
Definition replace (old : N) (new : str) (s : str) : str :=
  flat_map (fun c => if c =? old then new else [c]) s.

(** [escape(s)]: every backslash is replaced by two, then every double
    quote by a backslash and a double quote. *)
Definition escape (s : str) : str :=
  replace dquote [backslash; dquote] (replace backslash [backslash; backslash] s).

(** A string literal of the wire text: its body between double quotes. *)
Definition quoted (body : str) : str := dquote :: body ++ [dquote].

(** [cs_common.Form]: the payload of an evaluation request. *)
Record Form := {
  form_id : value;
  form_code : str;
  form_ns : str;
  form_line : option Z;
  form_column : option Z;
  form_file : option str;
  form_print_quota : value
}.

(** The text that [eval_impl] has built when it comes to the code: the
    opening brace, the id, the op, the namespace and, when there is one,
    the print quota. *)
Definition eval_msg_head (form : Form) : str :=
  let msg :=
    u "{" ++
    quoted (u "id") ++ u " " ++ format (form_id form) ++ u ", " ++
    quoted (u "op") ++ u " " ++ quoted (u "eval") ++ u ", " ++
    quoted (u "ns") ++ u " " ++ quoted (form_ns form) ++ u ", " in
  match form_print_quota form with
  | VNone => msg
  | q => msg ++ quoted (u "print_quota") ++ u " " ++ format q ++ u ", "
  end.

(** The text that [eval_impl] builds before sending it. *)
Definition eval_msg (form : Form) : str :=
  let msg := eval_msg_head form in
  let msg := msg ++ quoted (u "code") ++ u " " ++ quoted (escape (form_code form)) in
  let msg :=
    match form_file form with
    | Some (_ :: _ as file) => msg ++ u ", " ++ quoted (u "file") ++ u " " ++ quoted (escape file)
    | _ => msg
    end in
  let msg :=
    match form_line form with
    | Some line => msg ++ u ", " ++ quoted (u "line") ++ u " " ++ str_of_Z line
    | None => msg
    end in
  let msg :=
    match form_column form with
    | Some column => msg ++ u ", " ++ quoted (u "column") ++ u " " ++ str_of_Z column
    | None => msg
    end in
  msg ++ u "}".

(** The text that [lookup_impl] builds. *)
Definition lookup_msg (id : value) (symbol ns : str) : str :=
  u "{" ++ quoted (u "id") ++ u " " ++ format id ++ u ", " ++
  quoted (u "op") ++ u " " ++ quoted (u "lookup") ++ u ", " ++
  quoted (u "symbol") ++ u " " ++ quoted symbol ++ u ", " ++
  quoted (u "ns") ++ u " " ++ quoted ns ++ u "}".

(** The text that [interrupt_impl] builds. *)
Definition interrupt_msg (batch_id : value) : str :=
  u "{" ++ quoted (u "id") ++ u " " ++ format batch_id ++ u ", " ++
  quoted (u "op") ++ u " " ++ quoted (u "interrupt") ++ u "}".

(** Modelled from the spec: the decoder of the wire text is not among the
    sources ([cs_parser] on this side, the reader of the remote runtime on
    the other).  This is the unescaping that corresponds to [escape]: the
    body of a string literal is read up to the first double quote that no
    backslash precedes; a backslash stands for itself when doubled and lets
    a double quote through.  It gives the text of the literal and what
    follows its closing quote, and nothing when the literal is not closed
    or uses another escape. *)
Fixpoint read_literal (s : str) : option (str * str) :=
  match s with
  | [] => None
  | c :: rest =>
      if c =? dquote then Some ([], rest)
      else if c =? backslash then
        match rest with
        | e :: rest' =>
            if (e =? backslash) || (e =? dquote) then
              match read_literal rest' with
              | Some (body, tail) => Some (e :: body, tail)
              | None => None
              end
            else None
        | [] => None
        end
      else
        match read_literal rest with
        | Some (body, tail) => Some (c :: body, tail)
        | None => None
        end
  end.

(** What the specification says of [escape], character by character. *)
Definition escape_char (c : N) : str :=
  if c =? backslash then [backslash; backslash]
  else if c =? dquote then [backslash; dquote]
  else [c].

(** Modelled from the spec: reading the identifier back from a wire text,
    the characters between the opening brace with its id key and the
    next comma or closing brace. *)
Fixpoint until_delimiter (s : str) : str :=
  match s with
  | [] => []
  | c :: rest => if (c =? 44) || (c =? 125) then [] else c :: until_delimiter rest
  end.

Fixpoint strip_prefix (prefix s : str) : option str :=
  match prefix, s with
  | [], _ => Some s
  | p :: prefix', c :: s' => if p =? c then strip_prefix prefix' s' else None
  | _ :: _, [] => None
  end.

Definition wire_id (wire : str) : option str :=
  until_delimiter <$> strip_prefix (u "{" ++ quoted (u "id") ++ u " ") wire.

End Codec.

(** ** The plugin state and the effects of the code *)

Module Runtime.

Export Codec.

(** An editor window, by its identity. *)
Definition Window := nat.

(** [sublime.Region(a, b)]. *)
Definition region := (Z * Z)%type.
Definition region_begin (r : region) : Z := Z.min (fst r) (snd r).
Definition region_empty (r : region) : bool := (fst r =? snd r)%Z.

(** A callable handed over by a caller ([on_finish]), by its identity. *)
Definition callback := nat.

(** Modelled from the spec: [cs_eval.Eval] is not among the sources.  An
    Eval is one outstanding unit of remote work: identifier, optional
    batch identifier, the window and region it comes from, and its
    completion callback. *)
Record Eval := {
  eval_id : value;
  eval_batch_id : value;
  eval_window : option Window;
  eval_region : option region;
  eval_on_finish : option callback
}.

(** Modelled from the spec: a watch subscription of [cs_watch]; the
    source reads only [w.view.window()]. *)
Record Watch := {
  watch_id : value;
  watch_window : option Window
}.

(** A decoded message: the dict that [cs_parser.parse_as_dict] returns. *)
Abbreviation msg := (gmap str value).

(** Everything the code does that is visible outside the two classes. *)
Inductive event :=
| ESleep (ms : N)                          (* time.sleep *)
| EConnect (attempt : nat) (at_ms : Z)     (* cs_common.socket_connect *)
| ESpawnReader                             (* Thread(target = read_loop).start() *)
| ESpawnRetry (timeout_ms : Z)             (* Thread(target = try_connect_impl).start() *)
| EError (text : str) (args : list value)  (* cs_common.error *)
| EStatusMessage (w : Window) (text : str) (* window.status_message *)
| ESetStatus (w : Window) (status : option str) (* cs_common.set_status *)
| EClose                                   (* socket.close *)
| ESend (wire : str)                       (* socket.sendall(msg.encode()) *)
| ENewEval (e : Eval)                      (* cs_eval.Eval(...), cs_eval_status.StatusEval(...) *)
| EResetWarnings (w : Window)              (* cs_warn.reset_warnings *)
| EAddWarning (w : Window)                 (* cs_warn.add_warning *)
| EOnSuccess (id : str) (val time : value) (* cs_eval.on_success *)
| EOnException (id val source line column trace : value) (* cs_eval.on_exception *)
| EOnDone (batch_id : value)               (* cs_eval.on_done *)
| EOnWatch (id val : value)                (* cs_watch.on_watch *)
| EOnLookup (id : value) (val : msg)       (* cs_eval.on_lookup *)
| ECallback (f : callback).                (* a call of an on_finish callable *)

(** The socket object: what it will deliver to [recv], and whether
    [sendall] fails on it. *)
Record Socket := {
  inbound : Framer.socket;
  send_fails : bool
}.

(** The fields of a [ConnectionSocketRepl] object.  [conn_ref] is the
    identity of the object, what [state.conn = self] stores. *)
Record Connection := {
  conn_ref : nat;
  status : option str;
  disconnecting : bool;
  window : Window;
  addr : str;
  socket : option Socket;
  reader : bool;
  closing : bool
}.

(** The mutable world of one run: the object [self], the plugin state that
    the absent modules hold, the clock and the trace of events. *)
Record machine := {
  this : Connection;
  active_window : option Window;           (* sublime.active_window() *)
  conn_of : gmap (option Window) nat;      (* state.conn of each context *)
  status_bar : gmap Window str;            (* the status under status_key *)
  evals : list Eval;                       (* the registry of cs_eval *)
  watches : list Watch;                    (* the registry of cs_watch *)
  next_eval_id : Z;
  clock : Z;                               (* time.time(), in milliseconds *)
  attempts : nat;                          (* calls of socket_connect so far *)
  trace : list event
}.

Definition with_this (f : Connection -> Connection) (m : machine) : machine :=
  {| this := f (this m); active_window := active_window m; conn_of := conn_of m;
     status_bar := status_bar m; evals := evals m; watches := watches m;
     next_eval_id := next_eval_id m; clock := clock m; attempts := attempts m;
     trace := trace m |}.

Definition with_conn_of (f : gmap (option Window) nat -> gmap (option Window) nat)
  (m : machine) : machine :=
  {| this := this m; active_window := active_window m; conn_of := f (conn_of m);
     status_bar := status_bar m; evals := evals m; watches := watches m;
     next_eval_id := next_eval_id m; clock := clock m; attempts := attempts m;
     trace := trace m |}.

Definition with_status_bar (f : gmap Window str -> gmap Window str) (m : machine) : machine :=
  {| this := this m; active_window := active_window m; conn_of := conn_of m;
     status_bar := f (status_bar m); evals := evals m; watches := watches m;
     next_eval_id := next_eval_id m; clock := clock m; attempts := attempts m;
     trace := trace m |}.

Definition with_evals (f : list Eval -> list Eval) (m : machine) : machine :=
  {| this := this m; active_window := active_window m; conn_of := conn_of m;
     status_bar := status_bar m; evals := f (evals m); watches := watches m;
     next_eval_id := next_eval_id m; clock := clock m; attempts := attempts m;
     trace := trace m |}.

Definition with_watches (f : list Watch -> list Watch) (m : machine) : machine :=
  {| this := this m; active_window := active_window m; conn_of := conn_of m;
     status_bar := status_bar m; evals := evals m; watches := f (watches m);
     next_eval_id := next_eval_id m; clock := clock m; attempts := attempts m;
     trace := trace m |}.

Definition with_next_eval_id (f : Z -> Z) (m : machine) : machine :=
  {| this := this m; active_window := active_window m; conn_of := conn_of m;
     status_bar := status_bar m; evals := evals m; watches := watches m;
     next_eval_id := f (next_eval_id m); clock := clock m; attempts := attempts m;
     trace := trace m |}.

Definition with_clock (f : Z -> Z) (m : machine) : machine :=
  {| this := this m; active_window := active_window m; conn_of := conn_of m;
     status_bar := status_bar m; evals := evals m; watches := watches m;
     next_eval_id := next_eval_id m; clock := f (clock m); attempts := attempts m;
     trace := trace m |}.

Definition with_attempts (f : nat -> nat) (m : machine) : machine :=
  {| this := this m; active_window := active_window m; conn_of := conn_of m;
     status_bar := status_bar m; evals := evals m; watches := watches m;
     next_eval_id := next_eval_id m; clock := clock m; attempts := f (attempts m);
     trace := trace m |}.

Definition with_trace (f : list event -> list event) (m : machine) : machine :=
  {| this := this m; active_window := active_window m; conn_of := conn_of m;
     status_bar := status_bar m; evals := evals m; watches := watches m;
     next_eval_id := next_eval_id m; clock := clock m; attempts := attempts m;
     trace := f (trace m) |}.

(** *** The monad: state and exceptions *)

Inductive outcome (A : Type) :=
| Ret (a : A)
| Raise (e : exn).
Arguments Ret {A} a.
Arguments Raise {A} e.

Definition M (A : Type) : Type := machine -> outcome A * machine.

Definition ret {A} (a : A) : M A := fun m => (Ret a, m).

Definition bind {A B} (c : M A) (k : A -> M B) : M B :=
  fun m =>
    match c m with
    | (Ret a, m') => k a m'
    | (Raise e, m') => (Raise e, m')
    end.

Definition raise {A} (e : exn) : M A := fun m => (Raise e, m).

Definition get : M machine := fun m => (Ret m, m).

Definition modify (f : machine -> machine) : M unit := fun m => (Ret tt, f m).

(** [try: body except E: handler] for the exceptions that [caught] selects. *)
Definition try_except {A} (body : M A) (caught : exn -> bool) (handler : M A) : M A :=
  fun m =>
    match body m with
    | (Ret a, m') => (Ret a, m')
    | (Raise e, m') => if caught e then handler m' else (Raise e, m')
    end.

(** The monad in stdpp's notation: [x ← c; k] and [c;; k]. *)
#[export] Instance M_ret : MRet M := @ret.
#[export] Instance M_bind : MBind M := fun A B k c => bind c k.

Definition emit (e : event) : M unit := modify (with_trace (fun t => t ++ [e])).

Definition self : M Connection := fun m => (Ret (this m), m).

Definition set_self (f : Connection -> Connection) : M unit := modify (with_this f).

(** [for x in xs: body(x)]. *)
Fixpoint for_each {A} (xs : list A) (body : A -> M unit) : M unit :=
  match xs with
  | [] => ret tt
  | x :: rest => body x;; for_each rest body
  end.

(** Unfolding the monad in a goal. *)
Ltac run :=
  unfold mbind, mret, M_bind, M_ret, bind, ret, raise, emit, modify, self, get in *.

(** Reducing the projections of the state in a goal, and nothing else. *)
Ltac fields :=
  cbn [this active_window conn_of status_bar evals watches next_eval_id clock attempts
       trace with_this with_conn_of with_status_bar with_evals with_watches
       with_next_eval_id with_clock with_attempts with_trace
       conn_ref status disconnecting window addr socket reader closing fst snd] in *.

(** The events that a run added to the trace. *)
Definition run_trace {A} (c : M A) (m : machine) : list event :=
  drop (length (trace m)) (trace (snd (c m))).

End Runtime.

(** ** [cs_conn.py]: class [Connection] *)

Module Conn.

Export Runtime.

(** [phases]: the five moon phases shown in the status bar. *)
Definition phases : list N := [127761; 127762; 127763; 127764; 127765].

(** What the source reads of a [sublime.View]. *)
Record View := {
  view_window : option Window;
  file_name : option str;
  substr : region -> str;
  rowcol_utf16 : Z -> Z * Z;
  size : Z
}.

(** A node of the parse tree of [cs_parser]: the source reads its name and
    its extent. *)
Record node := {
  node_name : str;
  node_start : Z;
  node_end : Z
}.

(** A [transform_fn]: called with the code and the keyword arguments
    [selected_region], [eval_region], [ns] and [symbol]. *)
Definition transform := str -> region -> region -> str -> option str -> str.

(** The functions of the absent modules that compute without touching the
    plugin state, and the outside world: which connection attempts the
    remote end accepts, how long an attempt takes and by how much a sleep
    overshoots (both in milliseconds, never negative). *)
Record collaborators := {
  parse : str -> list node;                          (* cs_parser.parse(...).children *)
  namespace : View -> Z -> option str;               (* cs_parser.namespace *)
  topmost_form : View -> Z -> option region;         (* cs_parser.topmost_form *)
  defsym : node -> option str;                       (* cs_parser.defsym *)
  parse_as_dict : str -> exn + msg;                  (* cs_parser.parse_as_dict *)
  by_region : list Eval -> View -> region -> option Eval; (* cs_eval.by_region *)
  watch_transform : View -> option transform;        (* cs_watch.transform *)
  setting : str -> value;                            (* cs_common.setting *)
  clojure_source : str -> str;                       (* cs_common.clojure_source *)
  accept : nat -> option Socket;
  connect_ms : nat -> N;
  oversleep : nat -> N
}.

(** *** The absent modules, as far as the two classes call them *)

(** [time.time()]. *)
Definition time : M Z := m ← get; ret (clock m).

(** [time.sleep(ms / 1000)]: the clock moves on by at least [ms]. *)
Definition sleep (env : collaborators) (ms : N) : M unit :=
  m ← get;
  let slept := ms + oversleep env (S (attempts m)) in
  modify (with_clock (fun t => t + Z.of_N slept)%Z);;
  emit (ESleep slept).

(** [cs_common.socket_connect(addr)]: the next attempt; it takes some time
    and either gives a socket or raises an [OSError]. *)
Definition socket_connect (env : collaborators) : M Socket :=
  modify (with_attempts S);;
  m ← get;
  emit (EConnect (attempts m) (clock m));;
  modify (with_clock (fun t => t + Z.of_N (connect_ms env (attempts m)))%Z);;
  match accept env (attempts m) with
  | Some s => ret s
  | None => raise OSError
  end.

(** Modelled from the spec: [cs_common.get_state] is not among the
    sources.  The plugin keeps one state per owning context, found through
    the window; a call without a window falls back on the ambient current
    window.  The context is identified by its key in the table. *)
Definition get_state (w : option Window) : M (option Window) :=
  m ← get;
  ret (match w with Some _ => w | None => active_window m end).

(** [state.conn = v] for the state of context [key]. *)
Definition set_state_conn (key : option Window) (v : option nat) : M unit :=
  modify (with_conn_of (fun table =>
    match v with
    | Some ref => <[key := ref]> table
    | None => delete key table
    end)).

(** Modelled from the spec: [cs_common.set_status(window, key, status)]
    shows the phase string of the window, or clears it for [None]. *)
Definition cs_common_set_status (w : Window) (s : option str) : M unit :=
  modify (with_status_bar (fun bar =>
    match s with
    | Some text => <[w := text]> bar
    | None => delete w bar
    end));;
  emit (ESetStatus w s).

(** Modelled from the spec: [cs_eval.erase_evals(predicate)] removes from
    the registry every Eval that the predicate selects; the callbacks of
    the removed Evals are not called. *)
Definition erase_evals (predicate : Eval -> bool) : M unit :=
  modify (with_evals (List.filter (fun e => negb (predicate e)))).

(** Modelled from the spec: [cs_watch.erase_watches(predicate)], the same
    for watch subscriptions. *)
Definition erase_watches (predicate : Watch -> bool) : M unit :=
  modify (with_watches (List.filter (fun w => negb (predicate w)))).

(** [cs_warn.reset_warnings(window)]. *)
Definition reset_warnings (w : Window) : M unit := emit (EResetWarnings w).

(** Modelled from the spec: [cs_eval.Eval.next_id()] hands out a fresh
    identifier: the value of a counter that it then advances. *)
Definition next_id : M Z :=
  m ← get;
  modify (with_next_eval_id Z.succ);;
  ret (next_eval_id m).

(** Modelled from the spec: the constructor of [cs_eval.Eval] (and of
    [cs_eval_status.StatusEval]) installs the new record in the registry.
    Without an [id] argument it takes a fresh identifier. *)
Definition new_eval (w : option Window) (r : option region)
  (id batch_id : value) (on_finish : option callback) : M Eval :=
  id ← (if truthy id then ret id else (n ← next_id; ret (VInt n)));
  let e := {| eval_id := id; eval_batch_id := batch_id; eval_window := w;
              eval_region := r; eval_on_finish := on_finish |} in
  modify (with_evals (fun registry => registry ++ [e]));;
  emit (ENewEval e);;
  ret e.

(** [window.status_message(text)] when [sublime.active_window()] is not
    [None]. *)
Definition status_message_if_window (text : str) : M unit :=
  m ← get;
  match active_window m with
  | Some w => emit (EStatusMessage w text)
  | None => ret tt
  end.

(** *** The overridable hooks of the class *)

Record hooks := {
  connect_impl : M unit;
  eval_impl : Form -> M unit;
  load_file_impl : value -> str -> option str -> M unit;
  lookup_impl : value -> str -> str -> M unit;
  interrupt_impl : value -> value -> M unit;
  disconnect_impl : M unit
}.

(** The hooks as [Connection] itself defines them: [pass]. *)
Definition base_hooks : hooks := {|
  connect_impl := ret tt;
  eval_impl := fun _ => ret tt;
  load_file_impl := fun _ _ _ => ret tt;
  lookup_impl := fun _ _ _ => ret tt;
  interrupt_impl := fun _ _ => ret tt;
  disconnect_impl := ret tt
|}.

Section Methods.

Variable env : collaborators.
Variable impl : hooks.

(** [set_status(phase, message, *args)], the message already formatted. *)
Definition set_status (phase : nat) (message : str) : M unit :=
  let text := nth phase phases 0 :: u " " ++ message in
  set_self (fun c =>
    {| conn_ref := conn_ref c; status := Some text; disconnecting := disconnecting c;
       window := window c; addr := addr c; socket := socket c; reader := reader c;
       closing := closing c |});;
  c ← self;
  cs_common_set_status (window c) (Some text).

(** [ready()]. *)
Definition ready (c : Connection) : bool :=
  match status c with
  | Some (icon :: _) => icon =? nth 4 phases 0
  | _ => false
  end.

(** [disconnect()]. *)
Definition disconnect : M unit :=
  c ← self;
  if disconnecting c then ret tt
  else
    set_self (fun c =>
      {| conn_ref := conn_ref c; status := status c; disconnecting := true;
         window := window c; addr := addr c; socket := socket c; reader := reader c;
         closing := closing c |});;
    disconnect_impl impl;;
    state ← get_state None;
    set_state_conn state None;;
    c ← self;
    cs_common_set_status (window c) None;;
    erase_evals (fun e => bool_decide (eval_window e = Some (window c)));;
    reset_warnings (window c).

(** [connect()]. *)
Definition connect : M unit :=
  state ← get_state None;
  try_except
    (connect_impl impl;;
     c ← self;
     set_state_conn state (Some (conn_ref c)))
    (fun _ => true)
    (emit (EError (u "Connection failed") []);;
     disconnect;;
     status_message_if_window (u "Connection failed")).

(** The [while] loop of [try_connect_impl].  It gives [Some true] when an
    attempt succeeded (the [return] inside the loop), [Some false] when
    the loop condition failed, and [None] when [fuel] turns of the loop
    were not enough. *)
Fixpoint retry_loop (fuel : nat) (state : option Window) (timeout t0 : Z)
  (attempt : nat) : M (option bool) :=
  match fuel with
  | O => ret None
  | S fuel' =>
      now ← time;
      if (now - t0 <=? timeout)%Z then
        sleep env 250;;
        connected ← try_except
          (connect_impl impl;;
           c ← self;
           set_state_conn state (Some (conn_ref c));;
           ret true)
          (fun _ => true)
          (ret false);
        if connected : bool then ret (Some true)
        else retry_loop fuel' state timeout t0 (S attempt)
      else ret (Some false)
  end.

(** [try_connect_impl(timeout)], the timeout in milliseconds. *)
Definition try_connect_impl (fuel : nat) (timeout : Z) : M (option unit) :=
  c ← self;
  state ← get_state (Some (window c));
  t0 ← time;
  r ← retry_loop fuel state timeout t0 1;
  match r with
  | None => ret None
  | Some true => ret (Some tt)
  | Some false =>
      now ← time;
      emit (EError (u "Giving up after {} sec connecting to {}")
                   [VInt (now - t0); VStr (addr c)]);;
      disconnect;;
      status_message_if_window (u "Connection failed");;
      ret (Some tt)
  end.

(** [try_connect(timeout)]: with a timeout the retry loop runs on a thread
    of its own. *)
Definition try_connect (timeout : Z) : M unit :=
  c ← self;
  _ ← get_state (Some (window c));
  if (timeout =? 0)%Z then connect else emit (ESpawnRetry timeout).

(** [eval_region(region, view)]. *)
Definition eval_region_of (r : region) (view : View) : M (option region) :=
  if region_empty r then
    m ← get;
    match by_region env (evals m) view r with
    | Some e => ret (eval_region e)
    | None => ret (topmost_form env view (region_begin r))
    end
  else ret (Some r).

(** [code(view, selected_region, eval_region, transform_fn)]. *)
Definition code (view : View) (selected_region eval_region : region)
  (transform_fn : option transform) : str * str * list node :=
  let code := substr view eval_region in
  let ns := match namespace env view (region_begin eval_region) with
            | Some (_ :: _ as ns) => ns
            | _ => u "user"
            end in
  let parsed := parse env (substr view eval_region) in
  let forms := List.filter
    (fun child => negb (bool_decide (node_name child = u "comment")
                        || bool_decide (node_name child = u "discard"))) parsed in
  match transform_fn with
  | Some f =>
      let symbol := match forms with [form] => defsym env form | _ => None end in
      (f code selected_region eval_region ns symbol, ns, forms)
  | None => (code, ns, forms)
  end.

(** [eval(view, sel, transform_fn, print_quota, on_finish)] as [Connection]
    defines it. *)
Definition eval (view : View) (sel : list region) (transform_fn : option transform)
  (print_quota : value) (on_finish : option callback) : M unit :=
  for_each sel (fun selected_region =>
    r ← eval_region_of selected_region view;
    e ← new_eval (view_window view) r VNone VNone on_finish;
    match r with
    | None => raise AttributeError (* [eval_region.begin()] on [None] *)
    | Some eval_region =>
        let '(line, column) := rowcol_utf16 view (region_begin eval_region) in
        let '(code, ns, forms) := code view selected_region eval_region transform_fn in
        eval_impl impl
          {| form_id := eval_id e; form_code := code; form_ns := ns;
             form_line := Some (line + 1)%Z; form_column := Some column;
             form_file := file_name view; form_print_quota := print_quota |}
    end).

(** [eval_status(code, ns)] as [Connection] defines it. *)
Definition eval_status (code ns : str) : M unit :=
  m ← get;
  e ← new_eval (active_window m) None VNone VNone None;
  eval_impl impl
    {| form_id := eval_id e; form_code := code; form_ns := ns;
       form_line := None; form_column := None; form_file := None;
       form_print_quota := VNone |}.

(** [load_file(view)] as [Connection] defines it. *)
Definition load_file (view : View) : M unit :=
  let r := (0, size view)%Z in
  e ← new_eval (view_window view) (Some r) VNone VNone None;
  load_file_impl impl (eval_id e) (substr view r) (file_name view).

(** [lookup(view, region)]. *)
Definition lookup (view : View) (r : region) : M unit :=
  let symbol := substr view r in
  let ns := match namespace env view (region_begin r) with
            | Some (_ :: _ as ns) => ns
            | _ => u "user"
            end in
  e ← new_eval (view_window view) (Some r) VNone VNone None;
  lookup_impl impl (eval_id e) symbol ns.

(** [interrupt(batch_id, id)]. *)
Definition interrupt (batch_id id : value) : M unit :=
  interrupt_impl impl batch_id id.

End Methods.

End Conn.

(** ** [cs_conn_socket_repl.py]: class [ConnectionSocketRepl] *)

Module SocketRepl.

Export Conn.

Section Methods.

Variable env : collaborators.

Definition set_socket (s : option Socket) : M unit :=
  set_self (fun c =>
    {| conn_ref := conn_ref c; status := status c; disconnecting := disconnecting c;
       window := window c; addr := addr c; socket := s; reader := reader c;
       closing := closing c |}).

Definition set_reader : M unit :=
  set_self (fun c =>
    {| conn_ref := conn_ref c; status := status c; disconnecting := disconnecting c;
       window := window c; addr := addr c; socket := socket c; reader := true;
       closing := closing c |}).

(** [send(msg)]. *)
Definition send (text : str) : M unit :=
  c ← self;
  match socket c with
  | None => raise AttributeError
  | Some s =>
      match encode text with
      | None => raise UnicodeEncodeError
      | Some _ => if send_fails s then raise OSError else emit (ESend text)
      end
  end.

(** [connect_impl()]. *)
Definition socket_connect_impl : M unit :=
  c ← self;
  set_status 0 (u "Connecting to " ++ addr c);;
  s ← socket_connect env;
  set_socket (Some s);;
  set_reader;;
  emit ESpawnReader.

(** [disconnect_impl()]. *)
Definition socket_disconnect_impl : M unit :=
  c ← self;
  erase_watches (fun w => bool_decide (watch_window w = Some (window c)));;
  match socket c with
  | Some _ => emit EClose;; set_socket None
  | None => ret tt
  end.

(** [eval_impl(form)]. *)
Definition socket_eval_impl (form : Form) : M unit := send (eval_msg form).

(** [lookup_impl(id, symbol, ns)]. *)
Definition socket_lookup_impl (id : value) (symbol ns : str) : M unit :=
  send (lookup_msg id symbol ns).

(** [interrupt_impl(batch_id, id)]. *)
Definition socket_interrupt_impl (batch_id id : value) : M unit :=
  send (interrupt_msg batch_id).

(** The hooks that the class overrides; [load_file_impl] stays [pass]. *)
Definition socket_hooks : hooks := {|
  connect_impl := socket_connect_impl;
  eval_impl := socket_eval_impl;
  load_file_impl := fun _ _ _ => ret tt;
  lookup_impl := socket_lookup_impl;
  interrupt_impl := socket_interrupt_impl;
  disconnect_impl := socket_disconnect_impl
|}.

(** The inherited methods, on the hooks of the class. *)
Definition disconnect : M unit := Conn.disconnect socket_hooks.
Definition connect : M unit := Conn.connect socket_hooks.
Definition try_connect_impl (fuel : nat) (timeout : Z) : M (option unit) :=
  Conn.try_connect_impl env socket_hooks fuel timeout.
Definition lookup (view : View) (r : region) : M unit :=
  Conn.lookup env socket_hooks view r.

(** The loop [for idx, form in enumerate(forms)] of [eval], from index
    [idx] on. *)
Fixpoint create_evals (view : View) (start : Z) (batch_id : Z)
  (on_finish : option callback) (idx : nat) (forms : list node) : M unit :=
  match forms with
  | [] => ret tt
  | form :: rest =>
      let r := (start + node_start form, start + node_end form)%Z in
      _ ← new_eval (view_window view) (Some r)
            (VStr (str_of_Z batch_id ++ u "." ++ str_of_nat idx))
            (VInt batch_id) on_finish;
      create_evals view start batch_id on_finish (S idx) rest
  end.

(** The loop [for selected_region in sel] of [eval]; [transform_fn] is a
    variable of the method that the loop body assigns. *)
Fixpoint eval_regions (view : View) (sel : list region) (transform_fn : option transform)
  (print_quota : value) (on_finish : option callback) : M unit :=
  match sel with
  | [] => ret tt
  | selected_region :: rest =>
      r ← eval_region_of env selected_region view;
      let transform_fn :=
        match transform_fn with
        | Some f => Some f
        | None => watch_transform env view
        end in
      match r with
      | None => raise TypeError (* [view.substr(None)] *)
      | Some eval_region =>
          let '(code, ns, forms) :=
            code env view selected_region eval_region transform_fn in
          let start := region_begin eval_region in
          batch_id ← next_id;
          create_evals view start batch_id on_finish 0 forms;;
          let '(line, column) := rowcol_utf16 view (region_begin eval_region) in
          socket_eval_impl
            {| form_id := VInt batch_id; form_code := code; form_ns := ns;
               form_line := Some (line + 1)%Z; form_column := Some column;
               form_file := file_name view;
               form_print_quota :=
                 match print_quota with
                 | VNone => setting env (u "print_quota")
                 | q => q
                 end |};;
          eval_regions view rest transform_fn print_quota on_finish
      end
  end.

(** [eval(view, sel, transform_fn, print_quota, on_finish)]. *)
Definition eval (view : View) (sel : list region) (transform_fn : option transform)
  (print_quota : value) (on_finish : option callback) : M unit :=
  c ← self;
  reset_warnings (window c);;
  eval_regions view sel transform_fn print_quota on_finish.

(** [eval_status(code, ns)]. *)
Definition eval_status (code ns : str) : M unit :=
  c ← self;
  reset_warnings (window c);;
  batch_id ← next_id;
  m ← get;
  _ ← new_eval (active_window m) None (VStr (str_of_Z batch_id ++ u ".0"))
        (VInt batch_id) None;
  socket_eval_impl
    {| form_id := VInt batch_id; form_code := code; form_ns := ns;
       form_line := None; form_column := None; form_file := None;
       form_print_quota := VNone |}.

(** [load_file(view)]. *)
Definition load_file (view : View) : M unit :=
  eval view [(0, size view)%Z] None VNone None.

(** *** The handlers of incoming messages *)

(** [msg['key']]. *)
Definition item (m : msg) (key : str) : M value :=
  match m !! key with
  | Some v => ret v
  | None => raise (KeyError key)
  end.

(** [msg.get('key')]. *)
Definition get_item (m : msg) (key : str) : value := default VNone (m !! key).

Definition handle_value (m : msg) : M bool :=
  tag ← item m (u "tag");
  if bool_decide (tag = VStr (u "ret")) then
    let id := get_item m (u "id") in
    let idx := get_item m (u "idx") in
    let val := get_item m (u "val") in
    let time := get_item m (u "time") in
    emit (EOnSuccess (format id ++ u "." ++ format idx) val time);;
    ret true
  else ret false.

Definition handle_watch (m : msg) : M bool :=
  tag ← item m (u "tag");
  if bool_decide (tag = VStr (u "watch")) then
    let id := get_item m (u "watch_id") in
    let val := get_item m (u "val") in
    emit (EOnWatch id val);;
    ret true
  else ret false.

Definition handle_exception (m : msg) : M bool :=
  tag ← item m (u "tag");
  if bool_decide (tag = VStr (u "ex")) then
    let id := get_item m (u "id") in
    let idx := get_item m (u "idx") in
    let val := get_item m (u "val") in
    let source := get_item m (u "source") in
    let line := get_item m (u "line") in
    let column := get_item m (u "column") in
    let trace := get_item m (u "trace") in
    let eval_id :=
      match idx with
      | VNone => id
      | _ => VStr (format id ++ u "." ++ format idx)
      end in
    emit (EOnException eval_id val source line column trace);;
    ret true
  else ret false.

Definition handle_done (m : msg) : M bool :=
  tag ← item m (u "tag");
  if bool_decide (tag = VStr (u "done")) then
    let batch_id := get_item m (u "id") in
    emit (EOnDone batch_id);;
    ret true
  else ret false.

Definition handle_lookup (m : msg) : M bool :=
  tag ← item m (u "tag");
  if bool_decide (tag = VStr (u "lookup")) then
    let id := get_item m (u "id") in
    raw ← item m (u "val");
    val ← match raw with
          | VStr text =>
              match parse_as_dict env text with
              | inr d => ret d
              | inl e => raise e
              end
          | _ => raise TypeError
          end;
    emit (EOnLookup id val);;
    ret true
  else ret false.

Definition handle_err (m : msg) : M bool :=
  tag ← item m (u "tag");
  if bool_decide (tag = VStr (u "err")) then
    val ← item m (u "val");
    match val with
    | VStr text =>
        if starts_with (u "Reflection warning") text
        then c ← self; emit (EAddWarning (window c));; ret true
        else ret true
    | _ => raise AttributeError
    end
  else ret false.

(** Python's [a or b] on two handler calls: [b] runs only when [a]
    returned nothing. *)
Definition or_else (a b : M bool) : M bool :=
  fired ← a;
  if fired : bool then ret true else b.

(** The handlers in the order in which [handle_msg] consults them. *)
Definition handlers : list (msg -> M bool) :=
  [handle_value; handle_exception; handle_done; handle_watch; handle_lookup; handle_err].

Definition handle_msg (m : msg) : M unit :=
  _ ← or_else (handle_value m)
      (or_else (handle_exception m)
      (or_else (handle_done m)
      (or_else (handle_watch m)
      (or_else (handle_lookup m)
               (handle_err m)))));
  ret tt.

(** The tags that the handlers test, in the order of [handlers]. *)
Definition handled_tags : list str :=
  [u "ret"; u "ex"; u "done"; u "watch"; u "lookup"; u "err"].

(** Consulting a list of handlers as [handle_msg] does: in order, up to
    the first one that fires. *)
Fixpoint first_fired (hs : list (msg -> M bool)) (m : msg) : M bool :=
  match hs with
  | [] => ret false
  | h :: rest => or_else (h m) (first_fired rest m)
  end.

(** A handler did not fire: it returned nothing and changed nothing. *)
Definition skipped (h : msg -> M bool) (m : msg) (mach : machine) : Prop :=
  h m mach = (Ret false, mach).

(** A handler fired: it returned [True] or raised. *)
Definition fired (h : msg -> M bool) (m : msg) (mach : machine) : Prop :=
  fst (h m mach) <> Ret false.

(** *** The read loop *)

(** The line that ends the handshake. *)
Definition started_marker : str :=
  u "{" ++ quoted (u "tag") ++ u " " ++ quoted (u "started") ++ u "}".

(** The body of [for line in lines(self.socket)]; it gives the new value
    of [started]. *)
Definition handle_line (started : bool) (line : str) : M bool :=
  if started then
    match parse_as_dict env line with
    | inr m => handle_msg m;; ret true
    | inl e => raise e
    end
  else if contains started_marker line then
    c ← self;
    set_status 4 (addr c);;
    ret true
  else ret false.

Fixpoint handle_lines (started : bool) (ls : list str) : M bool :=
  match ls with
  | [] => ret started
  | line :: rest =>
      started ← handle_line started line;
      handle_lines started rest
  end.

(** The [try] block of [read_loop]. *)
Definition read_loop_body : M unit :=
  set_status 1 (u "Upgrading REPL");;
  send (clojure_source env (u "core.clj"));;
  send (clojure_source env (u "socket_repl.clj"));;
  (let shared := setting env (u "eval_shared") in
   if truthy shared then
     match shared with
     | VStr text => send text
     | _ => raise AttributeError
     end
   else ret tt);;
  send (u "(repl)" ++ [10]);;
  c ← self;
  match socket c with
  | None => raise AttributeError
  | Some s =>
      let '(ls, fin) := Framer.lines (inbound s) in
      _ ← handle_lines false ls;
      match fin with
      | Framer.GenStop => ret tt
      | Framer.GenRaise e => raise e
      end
  end.

(** [read_loop()]. *)
Definition read_loop : M unit :=
  try_except read_loop_body is_OSError (ret tt);;
  disconnect.

End Methods.

End SocketRepl.

(** ** The lifetime of a connection *)

Module Lifetime.

Export SocketRepl.

(** The state that the first [disconnect()] leaves. *)
Definition torn_down (m : machine) : machine := {|
  this := {| conn_ref := conn_ref (this m); status := status (this m);
             disconnecting := true; window := window (this m);
             addr := addr (this m); socket := None; reader := reader (this m);
             closing := closing (this m) |};
  active_window := active_window m;
  conn_of := delete (active_window m) (conn_of m);
  status_bar := delete (window (this m)) (status_bar m);
  evals := List.filter
    (fun e => negb (bool_decide (eval_window e = Some (window (this m))))) (evals m);
  watches := List.filter
    (fun w => negb (bool_decide (watch_window w = Some (window (this m))))) (watches m);
  next_eval_id := next_eval_id m;
  clock := clock m;
  attempts := attempts m;
  trace := trace m ++
           match socket (this m) with Some _ => [EClose] | None => [] end ++
           [ESetStatus (window (this m)) None; EResetWarnings (window (this m))]
|}.

(** The teardown actions in a trace: closing the socket and clearing the
    status. *)
Definition is_close (e : event) : bool :=
  match e with EClose => true | _ => false end.

Definition is_clear (e : event) : bool :=
  match e with ESetStatus _ None => true | _ => false end.

Definition closes (t : list event) : nat := length (List.filter is_close t).
Definition clears (t : list event) : nat := length (List.filter is_clear t).

(** A call of a method of the connection by its users: the commands of
    the plugin, the retry thread and the reader thread. *)
Inductive call :=
| CDisconnect
| CConnect
| CTryConnect (timeout : Z)
| CTryConnectImpl (fuel : nat) (timeout : Z)
| CReadLoop
| CEval (view : View) (sel : list region) (transform_fn : option transform)
        (print_quota : value) (on_finish : option callback)
| CEvalStatus (code ns : str)
| CLoadFile (view : View)
| CLookup (view : View) (r : region)
| CInterrupt (batch_id id : value).

Definition run_call (env : collaborators) (c : call) : M unit :=
  match c with
  | CDisconnect => disconnect env
  | CConnect => connect env
  | CTryConnect timeout => Conn.try_connect (socket_hooks env) timeout
  | CTryConnectImpl fuel timeout => _ ← try_connect_impl env fuel timeout; ret tt
  | CReadLoop => read_loop env
  | CEval view sel transform_fn print_quota on_finish =>
      eval env view sel transform_fn print_quota on_finish
  | CEvalStatus code ns => eval_status code ns
  | CLoadFile view => load_file env view
  | CLookup view r => lookup env view r
  | CInterrupt batch_id id => Conn.interrupt (socket_hooks env) batch_id id
  end.

(** The calls of a lifetime, one after the other; an exception that
    leaves a call ends that call only. *)
Fixpoint run_calls (env : collaborators) (cs : list call) (m : machine) : machine :=
  match cs with
  | [] => m
  | c :: rest => run_calls env rest (snd (run_call env c m))
  end.

(** The value of the [disconnecting] flag before the first call and after
    each call. *)
Fixpoint flag_history (env : collaborators) (cs : list call) (m : machine) : list bool :=
  disconnecting (this m) ::
  match cs with
  | [] => []
  | c :: rest => flag_history env rest (snd (run_call env c m))
  end.

(** How often a flag goes from false to true, and from true to false. *)
Fixpoint rises (flags : list bool) : nat :=
  match flags with
  | false :: (true :: _) as rest => S (rises rest)
  | _ :: rest => rises rest
  | [] => 0
  end.

Fixpoint falls (flags : list bool) : nat :=
  match flags with
  | true :: (false :: _) as rest => S (falls rest)
  | _ :: rest => falls rest
  | [] => 0
  end.

(** *** Submitting requests *)

(** The children of a parse tree that [code] keeps: neither comments nor
    discards. *)
Definition keep_form (child : node) : bool :=
  negb (bool_decide (node_name child = u "comment")
        || bool_decide (node_name child = u "discard")).

Definition top_level_forms (env : collaborators) (view : View) (r : region) : list node :=
  List.filter keep_form (parse env (substr view r)).

(** A batch: the request made for one region, with the top-level forms
    of its code. *)
Record batch := {
  batch_id : Z;
  batch_region : region;
  batch_forms : list node
}.

(** The Evals of a batch as the specification words them: one Eval per
    expression, with the identifier of the batch, a dot and the index of
    the expression, the indices following the source order from 0, and
    all of them with the batch identifier of the batch. *)
Definition batch_eval (view : View) (on_finish : option callback) (bt : batch)
  (idx : nat) (form : node) : Eval := {|
  eval_id := VStr (str_of_Z (batch_id bt) ++ u "." ++ str_of_nat idx);
  eval_batch_id := VInt (batch_id bt);
  eval_window := view_window view;
  eval_region := Some (region_begin (batch_region bt) + node_start form,
                       region_begin (batch_region bt) + node_end form)%Z;
  eval_on_finish := on_finish
|}.

Definition batch_evals (view : View) (on_finish : option callback) (bt : batch) : list Eval :=
  imap (batch_eval view on_finish bt) (batch_forms bt).

(** The events of one batch: its Evals are installed, then its request is
    sent (unless the sending failed). *)
Definition block (view : View) (on_finish : option callback)
  (b : batch * option str) : list event :=
  map ENewEval (batch_evals view on_finish (fst b)) ++
  match snd b with
  | Some wire => [ESend wire]
  | None => []
  end.

(** The batches of one call of [eval]: their identifiers are consecutive
    from [first_id], each holds the top-level forms of its region, each
    request carries the identifier of its batch, and only the last request
    can be missing. *)
Definition batches_from (env : collaborators) (view : View) (first_id : Z)
  (bs : list (batch * option str)) : Prop :=
  forall i bt w, bs !! i = Some (bt, w) ->
    batch_id bt = (first_id + Z.of_nat i)%Z /\
    batch_forms bt = top_level_forms env view (batch_region bt) /\
    (forall wire, w = Some wire -> wire_id wire = Some (str_of_Z (batch_id bt))) /\
    (w = None -> S i = length bs).

(** The identifier of the request that an Eval belongs to: its batch
    identifier when it has one, else its own. *)
Definition request_of (e : Eval) : value :=
  match eval_batch_id e with
  | VNone => eval_id e
  | b => b
  end.

(** In a trace, every request is sent after all the Evals of that request
    were installed in the registry. *)
Definition installs_before_send (t : list event) : Prop :=
  forall pre wire post e,
    t = pre ++ ESend wire :: post ->
    In (ENewEval e) t ->
    wire_id wire = Some (format (request_of e)) ->
    In (ENewEval e) pre.

(** What [eval_regions] has done when it stops, whether it returns or an
    exception leaves it. *)
Definition batched (env : collaborators) (view : View) (sel : list region) (on_finish : option callback)
  (m : machine) (r : outcome unit * machine) (bs : list (batch * option str)) : Prop :=
  trace (snd r) = trace m ++ flat_map (block view on_finish) bs /\
  evals (snd r) = evals m ++ flat_map (fun b => batch_evals view on_finish (fst b)) bs /\
  next_eval_id (snd r) = (next_eval_id m + Z.of_nat (length bs))%Z /\
  batches_from env view (next_eval_id m) bs /\
  (length bs <= length sel)%nat /\
  (fst r = Ret tt ->
     Forall (fun b => is_Some (snd b)) bs /\
     Forall2 (fun s b => region_empty s = false -> batch_region (fst b) = s) sel bs).

(** A trace in which no Eval is installed after the request that it
    belongs to was sent. *)
Fixpoint no_late_install (t : list event) : Prop :=
  match t with
  | [] => True
  | ESend wire :: rest =>
      (forall e, In (ENewEval e) rest -> wire_id wire <> Some (format (request_of e))) /\
      no_late_install rest
  | _ :: rest => no_late_install rest
  end.

(** A trace in good order: no Eval is installed after its
    request was sent, and the identifier of every request sent can be
    read back from the wire text. *)
Definition well_ordered (new : list event) : Prop :=
  no_late_install new /\
  forall wire, In (ESend wire) new -> exists z, wire_id wire = Some (str_of_Z z).

(** The ways of submitting a request. *)
Inductive submission :=
| SEval (view : View) (sel : list region) (transform_fn : option transform)
        (print_quota : value) (on_finish : option callback)
| SEvalStatus (code ns : str)
| SLookup (view : View) (r : region)
| SLoadFile (view : View).

Definition submit (env : collaborators) (s : submission) : M unit :=
  match s with
  | SEval view sel transform_fn print_quota on_finish =>
      eval env view sel transform_fn print_quota on_finish
  | SEvalStatus code ns => eval_status code ns
  | SLookup view r => lookup env view r
  | SLoadFile view => load_file env view
  end.

(** The instants at which the connection attempts of a trace were made. *)
Fixpoint connect_times (t : list event) : list Z :=
  match t with
  | [] => []
  | EConnect _ at_ms :: rest => at_ms :: connect_times rest
  | _ :: rest => connect_times rest
  end.

(** Successive instants are at least [gap] apart. *)
Fixpoint spaced (gap : Z) (times : list Z) : Prop :=
  match times with
  | t1 :: (t2 :: _) as rest => (t1 + gap <= t2)%Z /\ spaced gap rest
  | _ => True
  end.

(** The failure reports of a trace: the calls of [cs_common.error]. *)
Definition is_error (e : event) : bool :=
  match e with EError _ _ => true | _ => false end.

Definition errors (t : list event) : nat := length (List.filter is_error t).

(** The state after one turn of the retry loop in which the attempt is
    refused: the sleep, the status of phase 0, and the attempt. *)
Definition refused_attempt (env : collaborators) (m : machine) : machine :=
  let k := S (attempts m) in
  let text := nth 0 phases 0 :: u " " ++ (u "Connecting to " ++ addr (this m)) in
  let woke := (clock m + Z.of_N (250 + oversleep env k))%Z in
  {| this := {| conn_ref := conn_ref (this m); status := Some text;
                disconnecting := disconnecting (this m); window := window (this m);
                addr := addr (this m); socket := socket (this m);
                reader := reader (this m); closing := closing (this m) |};
     active_window := active_window m;
     conn_of := conn_of m;
     status_bar := <[window (this m) := text]> (status_bar m);
     evals := evals m;
     watches := watches m;
     next_eval_id := next_eval_id m;
     clock := (woke + Z.of_N (connect_ms env k))%Z;
     attempts := k;
     trace := trace m ++ [ESleep (250 + oversleep env k);
                          ESetStatus (window (this m)) (Some text);
                          EConnect k woke] |}.

(** What the retry loop has done when it ends without a connection. *)
Definition gave_up (env : collaborators) (T t0 : Z) (m m' : machine) : Prop :=
  exists new,
    trace m' = trace m ++ new /\
    closes new = 0%nat /\ clears new = 0%nat /\ errors new = 0%nat /\
    Forall (fun t => clock m + 250 <= t)%Z (connect_times new) /\
    spaced 250 (connect_times new) /\
    (Z.of_nat (length (connect_times new)) <= Z.max 0 ((T - (clock m - t0)) / 250 + 1))%Z /\
    (T < clock m - t0 -> m' = m)%Z /\
    (clock m - t0 <= T ->
       connect_times new <> [] /\
       clock m' - t0 <= T + 250 + Z.of_N (oversleep env (attempts m'))
                          + Z.of_N (connect_ms env (attempts m')))%Z /\
    (T < clock m' - t0)%Z /\
    disconnecting (this m') = disconnecting (this m) /\
    socket (this m') = socket (this m) /\
    window (this m') = window (this m).

(** What a run may do to the flag and to the teardown events: nothing,
    or the one transition of the flag from false to true, together with
    one clearing of the status and at most one closing of the socket. *)
Definition step_ok (m m' : machine) : Prop :=
  (disconnecting (this m) = true ->
     disconnecting (this m') = true /\
     closes (trace m') = closes (trace m) /\ clears (trace m') = clears (trace m)) /\
  (disconnecting (this m) = false ->
     (disconnecting (this m') = false /\
      closes (trace m') = closes (trace m) /\ clears (trace m') = clears (trace m)) \/
     (disconnecting (this m') = true /\
      (closes (trace m') <= closes (trace m) + 1)%nat /\
      clears (trace m') = (clears (trace m) + 1)%nat)).

Definition ok {A} (c : M A) : Prop := forall m, step_ok m (snd (c m)).

(** A run that leaves the flag and the teardown events alone. *)
Definition inert {A} (c : M A) : Prop :=
  forall m, disconnecting (this (snd (c m))) = disconnecting (this m) /\
            closes (trace (snd (c m))) = closes (trace m) /\
            clears (trace (snd (c m))) = clears (trace m).

(** The status of the connection is shown: the object holds a status
    and the status bar of its window shows one. *)
Definition status_shown (m : machine) : Prop :=
  is_Some (status (this m)) /\ is_Some (status_bar m !! window (this m)).

(** A run that tears nothing down: the flag, the window, the
    active-connection table and the registries are as before, no socket
    was closed and no status cleared, and a status that was shown still
    is. *)
Definition undisturbed (m m' : machine) : Prop :=
  disconnecting (this m') = disconnecting (this m) /\
  window (this m') = window (this m) /\
  conn_of m' = conn_of m /\
  evals m' = evals m /\
  watches m' = watches m /\
  closes (trace m') = closes (trace m) /\
  clears (trace m') = clears (trace m) /\
  (status_shown m -> status_shown m').

Definition calm {A} (c : M A) : Prop := forall m, undisturbed m (snd (c m)).

End Lifetime.

(** ** Sample data for the examples *)

Module Sample.

Export Lifetime.

(** An environment in which nothing is configured and no connection
    attempt is accepted; an attempt takes 40 ms and a sleep overshoots
    by 3 ms.  The parser finds three forms and a comment. *)
Definition env : collaborators := {|
  parse := fun _ =>
    [ {| node_name := u "parens"; node_start := 0; node_end := 7 |};
      {| node_name := u "comment"; node_start := 8; node_end := 15 |};
      {| node_name := u "parens"; node_start := 16; node_end := 23 |};
      {| node_name := u "symbol"; node_start := 24; node_end := 27 |} ];
  namespace := fun _ _ => None;
  topmost_form := fun _ _ => None;
  defsym := fun _ => None;
  parse_as_dict := fun _ => inl ParseError;
  by_region := fun _ _ _ => None;
  watch_transform := fun _ => None;
  setting := fun _ => VNone;
  clojure_source := fun name => name;
  accept := fun _ => None;
  connect_ms := fun _ => 40;
  oversleep := fun _ => 3
|}.

(** A connection as the constructor leaves it, in window 1. *)
Definition conn : Connection := {|
  conn_ref := 1%nat;
  status := None;
  disconnecting := false;
  window := 1%nat;
  addr := u "localhost:5555";
  socket := None;
  reader := false;
  closing := false
|}.

Definition eval_of (w : Window) (id : Z) : Eval := {|
  eval_id := VInt id; eval_batch_id := VNone; eval_window := Some w;
  eval_region := Some (0, 1)%Z; eval_on_finish := Some 0%nat
|}.

(** A plugin state with pending Evals and watches of windows 1 and 2. *)
Definition mach : machine := {|
  this := conn;
  active_window := Some 1%nat;
  conn_of := {[ Some 1%nat := 1%nat ]};
  status_bar := ∅;
  evals := [eval_of 1%nat 10; eval_of 2%nat 11; eval_of 1%nat 12];
  watches := [ {| watch_id := VInt 1; watch_window := Some 2%nat |};
               {| watch_id := VInt 2; watch_window := Some 1%nat |} ];
  next_eval_id := 13;
  clock := 1000;
  attempts := 0;
  trace := []
|}.

(** The same connection once connected to a peer that sends [chunks]. *)
Definition connected (chunks : list bytes) (m : machine) : machine :=
  with_this (fun c =>
    {| conn_ref := conn_ref c; status := status c; disconnecting := disconnecting c;
       window := window c; addr := addr c;
       socket := Some {| inbound := Framer.stream chunks; send_fails := false |};
       reader := true; closing := closing c |}) m.

Definition view : View := {|
  view_window := Some 1%nat;
  file_name := Some (u "core.clj");
  substr := fun _ => u "(+ 1 2) ; three (+ 3 4) abc";
  rowcol_utf16 := fun _ => (0, 0)%Z;
  size := 27
|}.

(** A message with tag ret, id 7 and a value, without idx. *)
Definition ret_without_idx : msg :=
  {[ u "tag" := VStr (u "ret"); u "id" := VInt 7; u "val" := VStr (u "3") ]}.

(** The message of the specification: tag ret, id 7, idx 2. *)
Definition ret_7_2 : msg :=
  {[ u "tag" := VStr (u "ret"); u "id" := VStr (u "7"); u "idx" := VInt 2;
     u "val" := VStr (u "3") ]}.

(** A message with a tag that no handler knows. *)
Definition unknown_tag : msg := {[ u "tag" := VStr (u "progress") ]}.

(** A peer that ends the handshake and then sends a line that does not
    decode as a message. *)
Definition junk_after_started : list bytes :=
  [default [] (encode (started_marker ++ [10] ++ u "junk" ++ [10]))].

(** The code of the specification's example: a call of println on a
    string literal that holds a, two backslashes and b. *)
Definition println_code : str :=
  u "(println " ++ [dquote] ++ u "a" ++ [backslash; backslash] ++ u "b" ++ [dquote] ++ u ")".

End Sample.

(** ** Outcomes of connecting *)

Module Outcome.

Export Lifetime.

(** The state after one turn of the retry loop in which the attempt is
    accepted with socket [s]: the sleep, the status of phase 0, the
    attempt, the socket and the reader thread, and [state.conn = self] for
    the state of context [key]. *)
Definition accepted_attempt (env : collaborators) (key : option Window) (s : Socket)
  (m : machine) : machine :=
  let k := S (attempts m) in
  let text := nth 0 phases 0 :: u " " ++ (u "Connecting to " ++ addr (this m)) in
  let woke := (clock m + Z.of_N (250 + oversleep env k))%Z in
  {| this := {| conn_ref := conn_ref (this m); status := Some text;
                disconnecting := disconnecting (this m); window := window (this m);
                addr := addr (this m); socket := Some s;
                reader := true; closing := closing (this m) |};
     active_window := active_window m;
     conn_of := <[key := conn_ref (this m)]> (conn_of m);
     status_bar := <[window (this m) := text]> (status_bar m);
     evals := evals m;
     watches := watches m;
     next_eval_id := next_eval_id m;
     clock := (woke + Z.of_N (connect_ms env k))%Z;
     attempts := k;
     trace := trace m ++ [ESleep (250 + oversleep env k);
                          ESetStatus (window (this m)) (Some text);
                          EConnect k woke;
                          ESpawnReader] |}.

(** The connection is established: it holds a socket, its reader thread
    was started, and the state of context [key] refers to it. *)
Definition established (key : option Window) (m : machine) : Prop :=
  is_Some (socket (this m)) /\
  reader (this m) = true /\
  conn_of m !! key = Some (conn_ref (this m)).

(** What the retry loop has done when it ends, with a connection
    ([connected] is true) or without: it reported no failure and tore
    nothing down; every attempt but a last accepted one was refused; and
    it ends either established or past the timeout with socket and
    active-connection table as they were. *)
Definition loop_ended (env : collaborators) (key : option Window) (T t0 : Z)
  (m : machine) (connected : bool) (m' : machine) : Prop :=
  exists new,
    trace m' = trace m ++ new /\
    closes new = 0%nat /\ clears new = 0%nat /\ errors new = 0%nat /\
    disconnecting (this m') = disconnecting (this m) /\
    window (this m') = window (this m) /\
    conn_ref (this m') = conn_ref (this m) /\
    addr (this m') = addr (this m) /\
    active_window m' = active_window m /\
    evals m' = evals m /\
    (attempts m <= attempts m')%nat /\
    (forall k, (attempts m < k)%nat ->
       (k < attempts m' + if connected then 0 else 1)%nat -> accept env k = None) /\
    if connected
    then established key m' /\
         accept env (attempts m') = socket (this m') /\
         ready (this m') = false
    else (T < clock m' - t0)%Z /\
         socket (this m') = socket (this m) /\
         conn_of m' = conn_of m.

End Outcome.

(** ** Streams that fail, and lines that were sent *)

Module Stream.

Export Framer.

(** A stream that delivers [chunks] and then fails: the next [recv]
    raises [OSError]. *)
Definition failing_stream (chunks : list bytes) : socket :=
  {| incoming := chunks; broken := true |}.

(** The lines of a byte sequence that end with a newline byte: what
    follows the last newline is left out. *)
Fixpoint frame_terminated (cur : bytes) (bs : bytes) : list bytes :=
  match bs with
  | [] => []
  | b :: rest =>
      if Byte.eqb b x0a then cur :: frame_terminated [] rest
      else frame_terminated (cur ++ [b]) rest
  end.

(** A run of the generator that an exception ends where it would have
    returned. *)
Definition ending_with (e : exn) (r : list str * gen_end) : list str * gen_end :=
  (fst r, match snd r with GenStop => GenRaise e | other => other end).

(** The bytes of some lines as a peer writes them: each line followed by
    a newline byte. *)
Definition written (ls : list bytes) : bytes :=
  concat (map (fun l => l ++ [x0a]) ls).

End Stream.

(** ** The characters that [escape] treats *)

Module Escaping.

Export Codec.

Definition special (c : N) : bool := (c =? backslash) || (c =? dquote).

End Escaping.

(** ** The address input: [AddressInputHandler] *)

Module AddressInput.

Export Py.

(** What the handler reads of the world around it: the Unicode database
    (the digit value of a character that the pattern [\d] matches, as
    [int] reads it), the file system, the folders of the active window
    ([None] without such a window) and the address of the last connection
    ([None] without one, [Some None] when its arguments hold no address). *)
Record surroundings := {
  decimal : N -> option N;        (* unicodedata.decimal *)
  isfile : str -> bool;           (* os.path.isfile *)
  exists_ : str -> bool;          (* os.path.exists *)
  read : str -> nat -> exn + str; (* open(path, "rt") and f.read(n) *)
  folders : option (list str);    (* sublime.active_window().folders() *)
  last_conn : option (option str) (* state.last_conn[1]['address'] *)
}.

(** [c.isspace()]: the characters that [str.strip()] removes. *)
Definition is_space (c : N) : bool :=
  ((9 <=? c) && (c <=? 13)) || ((28 <=? c) && (c <=? 32)) ||
  (c =? 133) || (c =? 160) || (c =? 5760) ||
  ((8192 <=? c) && (c <=? 8202)) ||
  (c =? 8232) || (c =? 8233) || (c =? 8239) || (c =? 8287) || (c =? 12288).

Fixpoint lstrip (s : str) : str :=
  match s with
  | [] => []
  | c :: rest => if is_space c then lstrip rest else s
  end.

Definition rstrip (s : str) : str := rev (lstrip (rev s)).

(** [s.strip()]. *)
Definition strip (s : str) : str := rstrip (lstrip s).

(** The class [[a-zA-Z0-9\.]] of the address pattern. *)
Definition host_char (c : N) : bool :=
  ((97 <=? c) && (c <=? 122)) || ((65 <=? c) && (c <=? 90)) ||
  ((48 <=? c) && (c <=? 57)) || (c =? 46).

(** The ASCII digits, [[0-9]]. *)
Definition ascii_digit (c : N) : bool := (48 <=? c) && (c <=? 57).

Definition colon : N := 58.
Definition slash : N := 47.

(** The longest prefix of characters of a class: what a greedy [+] or
    [*] takes first. *)
Fixpoint span (p : N -> bool) (s : str) : str * str :=
  match s with
  | [] => ([], [])
  | c :: rest =>
      if p c then let '(taken, remaining) := span p rest in (c :: taken, remaining)
      else ([], s)
  end.

Section Handler.

Variable world : surroundings.

Definition is_decimal (c : N) : bool :=
  match decimal world c with Some _ => true | None => false end.

(** [re.fullmatch(r'([a-zA-Z0-9\.]+):(\d{1,5})', text)]: the two groups.
    The class of the host holds no colon, so the host is the longest
    prefix in the class and no shorter one can be followed by the colon. *)
Definition match_address (text : str) : option (str * str) :=
  match span host_char text with
  | ((_ :: _) as host, c :: port) =>
      if (c =? colon) && (1 <=? length port)%nat && (length port <=? 5)%nat
         && forallb is_decimal port
      then Some (host, port)
      else None
  | _ => None
  end.

(** [int(port)] on decimal digits. *)
Definition int_of (port : str) : N :=
  fold_left (fun acc c => acc * 10 + default 0 (decimal world c)) port 0.

(** [validate(text)]. *)
Definition validate (text : str) : bool :=
  let text := strip text in
  if bool_decide (text = u "auto") then true
  else
    match match_address text with
    | Some (_, port) => (1 <=? int_of port) && (int_of port <? 65536)
    | None => isfile world text
    end.

(** [preview(text)]. *)
Definition preview (text : str) : option str :=
  if validate text then None else Some (u "Expected <host>:<port> or <path>").

(** [re.fullmatch(r'[1-9][0-9]*', content)]. *)
Definition port_pattern (content : str) : bool :=
  match content with
  | [] => false
  | c :: rest =>
      (49 <=? c) && (c <=? 57) && forallb (fun d => (48 <=? d) && (d <=? 57)) rest
  end.

(** The loop [for port_file in self.port_files] for one folder: the text
    to return, [None] when the loop ends without returning. *)
Fixpoint scan_files (folder : str) (port_files : list str) : exn + option str :=
  match port_files with
  | [] => inr None
  | port_file :: rest =>
      let path := folder ++ u "/" ++ port_file in
      if exists_ world path then
        match read world path 10 with
        | inl e => inl e
        | inr raw =>
            let content := strip raw in
            if port_pattern content then inr (Some (u "localhost:" ++ content))
            else scan_files folder rest
        end
      else scan_files folder rest
  end.

(** The loop [for folder in window.folders()]. *)
Fixpoint scan_folders (dirs : list str) (port_files : list str) : exn + option str :=
  match dirs with
  | [] => inr None
  | folder :: rest =>
      match scan_files folder port_files with
      | inr None => scan_folders rest port_files
      | found => found
      end
  end.

(** [initial_text()]. *)
Definition initial_text (port_files : list str) : exn + str :=
  let scanned :=
    match port_files, folders world with
    | _ :: _, Some dirs => scan_folders dirs port_files
    | _, _ => inr None
    end in
  match scanned with
  | inl e => inl e
  | inr (Some text) => inr text
  | inr None =>
      match last_conn world with
      | Some (Some address) => inr address
      | Some None => inl (KeyError (u "address"))
      | None => inr (u "localhost:")
      end
  end.

(** [text.rfind(c)]: the index of the last occurrence, -1 without one. *)
Fixpoint rfind (c : N) (text : str) : Z :=
  match text with
  | [] => (-1)%Z
  | x :: rest =>
      let i := rfind c rest in
      if (0 <=? i)%Z then (i + 1)%Z
      else if x =? c then 0%Z else (-1)%Z
  end.

(** [c in text] for one character. *)
Definition has (c : N) (text : str) : bool := existsb (N.eqb c) text.

(** [initial_selection()]: a list of one selection, or nothing. *)
Definition initial_selection (port_files : list str) : exn + option (Z * Z) :=
  match initial_text port_files with
  | inl e => inl e
  | inr text =>
      let stop := Z.of_nat (length text) in
      if has colon text then inr (Some (rfind colon text + 1, stop)%Z)
      else if has slash text then inr (Some (rfind slash text + 1, stop)%Z)
      else inr None
  end.

End Handler.

(** The texts that the address pattern matches, said without a matcher:
    a host of one or more characters of the class, a colon, and a port
    of one to five decimal digits. *)
Definition address_shape (world : surroundings) (text host port : str) : Prop :=
  text = host ++ colon :: port /\
  host <> [] /\
  forallb host_char host = true /\
  (1 <= length port <= 5)%nat /\
  forallb (is_decimal world) port = true.

(** The Unicode database gives the ASCII digits their values. *)
Definition reads_ascii (world : surroundings) : Prop :=
  forall c, 48 <= c <= 57 -> decimal world c = Some (c - 48).

(** A world whose only decimal digits are the ASCII ones, without files,
    folders or an earlier connection. *)
Definition ascii_world : surroundings := {|
  decimal := fun c => if (48 <=? c) && (c <=? 57) then Some (c - 48) else None;
  isfile := fun _ => false;
  exists_ := fun _ => false;
  read := fun _ _ => inl OSError;
  folders := None;
  last_conn := None
|}.

(** The same world with one folder that holds a port file. *)
Definition project_world (raw : str) : surroundings := {|
  decimal := decimal ascii_world;
  isfile := fun _ => false;
  exists_ := fun path => bool_decide (path = u "/work/.nrepl-port");
  read := fun _ n => inr (take n raw);
  folders := Some [u "/home"; u "/work"];
  last_conn := Some (Some (u "localhost:5555"))
|}.

End AddressInput.

(** ** More sample data *)

Module Scenario.

Export Outcome.

(** A peer that accepts a connection and then closes the stream. *)
Definition peer : Socket :=
  {| inbound := Framer.stream []; send_fails := false |}.

(** The sample environment with a remote end that accepts attempt [k]
    and refuses the others. *)
Definition accepting (k : nat) : collaborators := {|
  parse := parse Sample.env;
  namespace := namespace Sample.env;
  topmost_form := topmost_form Sample.env;
  defsym := defsym Sample.env;
  parse_as_dict := parse_as_dict Sample.env;
  by_region := by_region Sample.env;
  watch_transform := watch_transform Sample.env;
  setting := setting Sample.env;
  clojure_source := clojure_source Sample.env;
  accept := fun n => if (n =? k)%nat then Some peer else None;
  connect_ms := connect_ms Sample.env;
  oversleep := oversleep Sample.env
|}.

(** The sample environment with a parser that finds a comment and a
    discarded form, and nothing to evaluate. *)
Definition comments_only : collaborators := {|
  parse := fun _ =>
    [ {| node_name := u "comment"; node_start := 0; node_end := 9 |};
      {| node_name := u "discard"; node_start := 10; node_end := 27 |} ];
  namespace := namespace Sample.env;
  topmost_form := topmost_form Sample.env;
  defsym := defsym Sample.env;
  parse_as_dict := parse_as_dict Sample.env;
  by_region := by_region Sample.env;
  watch_transform := watch_transform Sample.env;
  setting := setting Sample.env;
  clojure_source := clojure_source Sample.env;
  accept := accept Sample.env;
  connect_ms := connect_ms Sample.env;
  oversleep := oversleep Sample.env
|}.

(** A message without a tag. *)
Definition no_tag : msg := {[ u "id" := VInt 7 ]}.

(** The batch that the sample call of [eval] makes, and the answer of the
    remote end for its form at index 1. *)
Definition sample_batch : batch := {|
  batch_id := 13;
  batch_region := (0, 27)%Z;
  batch_forms := top_level_forms Sample.env Sample.view (0, 27)%Z
|}.

Definition ret_13_1 : msg :=
  {[ u "tag" := VStr (u "ret"); u "id" := VInt 13; u "idx" := VInt 1;
     u "val" := VStr (u "7") ]}.


End Scenario.

(** ** The Evals of the base class *)

Module Plain.

Export Outcome.

(** The Eval that [Connection.eval] makes for the selected region at
    position [i]: a fresh identifier, no batch. *)
Definition region_eval (view : View) (on_finish : option callback) (first_id : Z)
  (i : nat) (s : region) : Eval := {|
  eval_id := VInt (first_id + Z.of_nat i);
  eval_batch_id := VNone;
  eval_window := view_window view;
  eval_region := Some s;
  eval_on_finish := on_finish
|}.

(** An [eval_impl] that returns and leaves the registry of Evals and
    the counter of identifiers alone. *)
Definition quiet (eval_impl : Form -> M unit) : Prop :=
  forall form m, exists m',
    eval_impl form m = (Ret tt, m') /\
    evals m' = evals m /\ next_eval_id m' = next_eval_id m.

End Plain.

(** * Properties *)

(** ** The text codec of Python *)

Example decode_two_bytes : decode [xc3; xa9] = Some [233].
Proof. reflexivity. Qed.

Example decode_three_bytes : decode [xe2; x82; xac] = Some [8364].
Proof. reflexivity. Qed.

Example decode_four_bytes : decode [xf0; x9f; x8c; x91] = Some [127761].
Proof. reflexivity. Qed.

Example decode_overlong : decode [xc0; x80] = None.
Proof. reflexivity. Qed.

Example decode_surrogate : decode [xed; xa0; x80] = None.
Proof. reflexivity. Qed.

Example decode_beyond_unicode : decode [xf4; x90; x80; x80] = None.
Proof. reflexivity. Qed.

Example decode_truncated : decode [x61; xe2; x82] = None.
Proof. reflexivity. Qed.

Example encode_phase : encode [127761; 32; 233] = Some [xf0; x9f; x8c; x91; x20; xc3; xa9].
Proof. reflexivity. Qed.

Example encode_surrogate : encode [55296] = None.
Proof. reflexivity. Qed.

Example format_values :
  format (VInt 13) = u "13" /\ format (VInt (-4)) = u "-4" /\
  format VNone = u "None" /\ format (VStr (u "7")) = u "7".
Proof. repeat split; reflexivity. Qed.

(** ** The line framer *)

Section FramerFacts.

Import Framer.

Lemma drain_unfold buffer :
  drain buffer =
  match split_newline buffer with
  | None => ([], inr buffer)
  | Some (line, rest) =>
      match decode line with
      | None => ([], inl UnicodeDecodeError)
      | Some text => (text :: fst (drain rest), snd (drain rest))
      end
  end.
Proof.
  rewrite drain_equation_1. unfold inspect.
  generalize (@eq_refl _ (split_newline buffer)).
  generalize (split_newline buffer) at 2 4 5.
  intros [[line rest]|] Hs; simpl; [|reflexivity].
  destruct (decode line); reflexivity.
Qed.

Lemma frame_split cur bs line rest more :
  split_newline bs = Some (line, rest) ->
  frame cur (bs ++ more) = (cur ++ line) :: frame [] (rest ++ more).
Proof.
  revert cur line; induction bs as [|b bs IH]; intros cur line; simpl; [discriminate|].
  destruct (Byte.eqb b x0a).
  - intros [= <- <-]. now rewrite app_nil_r.
  - destruct (split_newline bs) as [[l t]|]; [|discriminate].
    intros [= <- <-]. rewrite (IH (cur ++ [b]) l eq_refl).
    now rewrite <- app_assoc.
Qed.

Lemma frame_no_newline cur bs :
  split_newline bs = None ->
  frame cur bs = match cur ++ bs with [] => [] | l => [l] end.
Proof.
  revert cur; induction bs as [|b bs IH]; intros cur; simpl.
  - intros _. rewrite app_nil_r. now destruct cur.
  - destruct (Byte.eqb b x0a); [discriminate|].
    destruct (split_newline bs) as [[l t]|] eqn:E; [discriminate|].
    intros _. rewrite (IH (cur ++ [b]) eq_refl), <- app_assoc. reflexivity.
Qed.

Lemma drain_rest_no_newline buffer ls rest :
  drain buffer = (ls, inr rest) -> split_newline rest = None.
Proof.
  remember (length buffer) as n eqn:Hn.
  revert buffer Hn ls; induction (lt_wf n) as [n _ IH]; intros buffer -> ls.
  rewrite drain_unfold.
  destruct (split_newline buffer) as [[line tail]|] eqn:Hs.
  - destruct (decode line); [|discriminate].
    destruct (drain tail) as [ls' [e|rest']] eqn:Hd; simpl; [discriminate|].
    intros [= <- <-].
    eapply (IH (length tail)); eauto using split_newline_shorter.
  - now intros [= <- <-].
Qed.

Lemma drain_frame buffer more :
  decode_lines (frame [] (buffer ++ more)) =
  match drain buffer with
  | (ls, inl e) => (ls, GenRaise e)
  | (ls, inr rest) => then_lines ls (decode_lines (frame [] (rest ++ more)))
  end.
Proof.
  remember (length buffer) as n eqn:Hn.
  revert buffer Hn; induction (lt_wf n) as [n _ IH]; intros buffer ->.
  rewrite drain_unfold.
  destruct (split_newline buffer) as [[line tail]|] eqn:Hs.
  - rewrite (frame_split [] _ _ _ more Hs). simpl.
    destruct (decode line) as [text|]; [|reflexivity].
    rewrite (IH (length tail) (split_newline_shorter _ _ _ Hs) tail eq_refl).
    destruct (drain tail) as [ls [e|rest]]; reflexivity.
  - unfold then_lines. now destruct (decode_lines (frame [] (buffer ++ more))).
Qed.

Lemma flush_frame rest :
  split_newline rest = None -> decode_lines (frame [] rest) = flush rest.
Proof.
  intros H. rewrite (frame_no_newline [] rest H). cbn [app].
  destruct rest as [|b rest]; [reflexivity|]. unfold flush.
  cbn [decode_lines app]. now destruct (decode (b :: rest)).
Qed.

Lemma lines_loop_frame buffer chunks :
  Forall (fun chunk => chunk <> []) chunks ->
  lines_loop false buffer chunks = decode_lines (frame [] (buffer ++ concat chunks)).
Proof.
  intros Hne; revert buffer; induction Hne as [|more rest Hmore _ IH]; intros buffer.
  - simpl. rewrite drain_frame.
    destruct (drain buffer) as [ls [e|tail]] eqn:Hd; [reflexivity|].
    rewrite app_nil_r, (flush_frame tail (drain_rest_no_newline _ _ _ Hd)).
    reflexivity.
  - destruct more as [|b more]; [contradiction|].
    cbn [lines_loop concat]. rewrite app_assoc, drain_frame.
    destruct (drain (buffer ++ b :: more)) as [ls [e|tail]]; [reflexivity|].
    now rewrite IH.
Qed.

(** C3.  However the bytes of a stream are cut into non-empty chunks,
    [lines] yields the decoded lines that it yields when all the bytes
    come in one chunk: the lines between newline bytes 0x0A, in order, then
    what follows the last newline as one more line when that is not empty,
    and nothing more when it is empty.  Should a line fail to decode, the
    generator stops with the decoding error at that line in both runs. *)
Theorem lines_chunk_independent (chunks : list bytes) :
  Forall (fun chunk => chunk <> []) chunks ->
  lines (stream chunks) = lines (stream [concat chunks]) /\
  lines (stream chunks) = decode_lines (frame [] (concat chunks)).
Proof.
  intros Hne.
  assert (Hall : lines (stream chunks) = decode_lines (frame [] (concat chunks))).
  { unfold lines, stream; simpl. now rewrite lines_loop_frame. }
  split; [|exact Hall]. rewrite Hall.
  unfold lines, stream; simpl incoming; simpl broken.
  destruct (concat chunks) as [|b bs] eqn:Hc.
  - simpl. rewrite drain_unfold. reflexivity.
  - rewrite lines_loop_frame by (constructor; [discriminate|constructor]).
    simpl. now rewrite app_nil_r.
Qed.

Lemma lines_chunk_independent_witness :
  lines (stream [[x61; x0a; x62]; [x63; x0a]; [x64]]) =
  lines (stream [[x61; x0a; x62; x63; x0a; x64]]) /\
  lines (stream [[x61; x0a; x62]; [x63; x0a]; [x64]]) =
  decode_lines (frame [] [x61; x0a; x62; x63; x0a; x64]).
Proof.
  apply (lines_chunk_independent [[x61; x0a; x62]; [x63; x0a]; [x64]]).
  repeat constructor; discriminate.
Defined.

Example lines_three_chunks :
  lines (stream [[x61; x0a; x62]; [x63; x0a]; [x64]]) = ([u "a"; u "bc"; u "d"], GenStop).
Proof. vm_compute. reflexivity. Qed.

Example lines_trailing_newline :
  lines (stream [[x61; x0a]]) = ([u "a"], GenStop).
Proof. vm_compute. reflexivity. Qed.

Example lines_bad_utf8 :
  lines (stream [[x61; x0a; xff]; [x0a; x62]]) = ([u "a"], GenRaise UnicodeDecodeError).
Proof. vm_compute. reflexivity. Qed.

End FramerFacts.

(** ** The codec *)

Section CodecFacts.

Import Codec.

Lemma escape_cons c s : escape (c :: s) = escape_char c ++ escape s.
Proof.
  unfold escape, replace, escape_char, backslash, dquote. simpl.
  destruct (c =? 92) eqn:Hb.
  - simpl. reflexivity.
  - simpl. destruct (c =? 34); reflexivity.
Qed.

Lemma escape_chars s : escape s = flat_map escape_char s.
Proof.
  induction s as [|c s IH]; [reflexivity|].
  rewrite escape_cons, IH. reflexivity.
Qed.

Lemma read_literal_escaped e t :
  e = backslash \/ e = dquote ->
  read_literal (backslash :: e :: t) =
  match read_literal t with
  | Some (body, tail) => Some (e :: body, tail)
  | None => None
  end.
Proof. intros [-> | ->]; reflexivity. Qed.

Lemma read_literal_plain c t :
  c <> backslash -> c <> dquote ->
  read_literal (c :: t) =
  match read_literal t with
  | Some (body, tail) => Some (c :: body, tail)
  | None => None
  end.
Proof.
  intros Hb Hq. apply N.eqb_neq in Hb, Hq. cbn [read_literal]. now rewrite Hq, Hb.
Qed.

Lemma read_literal_escape s rest :
  read_literal (escape s ++ dquote :: rest) = Some (s, rest).
Proof.
  induction s as [|c s IH]; [reflexivity|].
  rewrite escape_cons. unfold escape_char.
  destruct (c =? backslash) eqn:Hb; [|destruct (c =? dquote) eqn:Hq].
  - apply N.eqb_eq in Hb; subst c. cbn [app].
    rewrite read_literal_escaped, IH by now left. reflexivity.
  - apply N.eqb_eq in Hq; subst c. cbn [app].
    rewrite read_literal_escaped, IH by now right. reflexivity.
  - apply N.eqb_neq in Hb, Hq. cbn [app].
    rewrite read_literal_plain, IH by assumption. reflexivity.
Qed.

Lemma escape_injective s1 s2 : escape s1 = escape s2 -> s1 = s2.
Proof.
  intros H.
  pose proof (read_literal_escape s1 []) as H1.
  rewrite H, read_literal_escape in H1. congruence.
Qed.

Lemma eval_msg_code_field form :
  exists post,
    eval_msg form =
    eval_msg_head form ++ quoted (u "code") ++ u " " ++
    quoted (escape (form_code form)) ++ post.
Proof.
  unfold eval_msg.
  set (hd := eval_msg_head form).
  set (m1 := hd ++ quoted (u "code") ++ u " " ++ quoted (escape (form_code form))).
  assert (E1 : forall t, m1 ++ t =
    hd ++ quoted (u "code") ++ u " " ++ quoted (escape (form_code form)) ++ t).
  { intros t. unfold m1. now rewrite <- !app_assoc. }
  set (m2 := match form_file form with Some (_ :: _ as file) => _ | _ => m1 end).
  assert (E2 : exists t2, m2 = m1 ++ t2).
  { unfold m2. destruct (form_file form) as [[|c file]|].
    - exists []. now rewrite app_nil_r.
    - eexists. reflexivity.
    - exists []. now rewrite app_nil_r. }
  destruct E2 as [t2 ->].
  destruct (form_line form) as [line|], (form_column form) as [column|];
    rewrite <- ?app_assoc; rewrite E1; eexists; reflexivity.
Qed.

(** C4.  [escape] doubles every backslash, puts a backslash before every
    double quote and leaves every other character, control characters
    included, as it is; it is injective; reading the escaped text back as
    a string literal gives the original text; and so the code of a Form is
    recovered from the wire text of [eval_impl], where it is the string
    literal that follows the head of the message and the code key. *)
Theorem escape_roundtrip :
  (forall s, escape s = flat_map escape_char s) /\
  (forall c, c <> backslash -> c <> dquote -> escape [c] = [c]) /\
  (forall s1 s2, escape s1 = escape s2 -> s1 = s2) /\
  (forall s rest, read_literal (escape s ++ dquote :: rest) = Some (s, rest)) /\
  (forall form, exists post,
     eval_msg form = eval_msg_head form ++ quoted (u "code") ++ u " " ++
                     dquote :: escape (form_code form) ++ dquote :: post /\
     read_literal (escape (form_code form) ++ dquote :: post) = Some (form_code form, post)).
Proof.
  split; [exact escape_chars|].
  split.
  { intros c Hb Hq. rewrite escape_chars. simpl. unfold escape_char.
    apply N.eqb_neq in Hb, Hq. now rewrite Hb, Hq. }
  split; [exact escape_injective|].
  split; [exact read_literal_escape|].
  intros form. destruct (eval_msg_code_field form) as (post & E).
  exists post. split; [|apply read_literal_escape].
  rewrite E. unfold quoted. simpl. now rewrite <- !app_assoc.
Qed.

Lemma escape_roundtrip_witness :
  escape Sample.println_code = escape Sample.println_code /\ Sample.println_code = Sample.println_code.
Proof.
  split; [reflexivity|].
  apply (proj1 (proj2 (proj2 escape_roundtrip)) Sample.println_code Sample.println_code).
  reflexivity.
Defined.

Example eval_msg_sample :
  eval_msg {| form_id := VInt 7; form_code := u "(+ 1 2)"; form_ns := u "user";
              form_line := Some 1%Z; form_column := Some 0%Z; form_file := None;
              form_print_quota := VInt 1024 |} =
  u "{" ++ quoted (u "id") ++ u " 7, " ++
  quoted (u "op") ++ u " " ++ quoted (u "eval") ++ u ", " ++
  quoted (u "ns") ++ u " " ++ quoted (u "user") ++ u ", " ++
  quoted (u "print_quota") ++ u " 1024, " ++
  quoted (u "code") ++ u " " ++ quoted (u "(+ 1 2)") ++ u ", " ++
  quoted (u "line") ++ u " 1, " ++ quoted (u "column") ++ u " 0}".
Proof. vm_compute. reflexivity. Qed.

Example escape_println :
  escape Sample.println_code =
  u "(println " ++ [backslash; dquote] ++ u "a" ++
  [backslash; backslash; backslash; backslash] ++ u "b" ++ [backslash; dquote] ++ u ")".
Proof. vm_compute. reflexivity. Qed.

Example escape_keeps_control_characters : escape [10; 9; 13; 0] = [10; 9; 13; 0].
Proof. vm_compute. reflexivity. Qed.

End CodecFacts.

(** ** The dispatch of incoming messages *)

Section DispatchFacts.

Import SocketRepl.

Variable env : collaborators.

Lemma handle_msg_first_fired m mach :
  handle_msg env m mach = (_ ← first_fired (handlers env) m; ret tt) mach.
Proof.
  unfold handle_msg, handlers, first_fired, or_else. run.
  destruct (handle_value m mach) as [[[]|] ?]; try reflexivity.
  destruct (handle_exception m _) as [[[]|] ?]; try reflexivity.
  destruct (handle_done m _) as [[[]|] ?]; try reflexivity.
  destruct (handle_watch m _) as [[[]|] ?]; try reflexivity.
  destruct (handle_lookup env m _) as [[[]|] ?]; try reflexivity.
  destruct (handle_err m _) as [[[]|] ?]; reflexivity.
Qed.

Lemma handler_tests_tag i h t m mach tag :
  handlers env !! i = Some h ->
  handled_tags !! i = Some t ->
  m !! u "tag" = Some tag ->
  (tag = VStr t -> fired h m mach) /\ (tag <> VStr t -> skipped h m mach).
Proof.
  intros Hh Ht Htag.
  destruct i as [|[|[|[|[|[|i]]]]]]; simpl in Hh, Ht; try discriminate;
    injection Hh as <-; injection Ht as <-.
  all: unfold fired, skipped, handle_value, handle_exception, handle_done,
         handle_watch, handle_lookup, handle_err, item; run; rewrite Htag.
  all: split; [intros ->; rewrite bool_decide_eq_true_2 by reflexivity
              |intros Hne; rewrite bool_decide_eq_false_2 by assumption; reflexivity].
  all: try (simpl; discriminate).
  - destruct (m !! u "val") as [[| |text]|]; simpl; try discriminate.
    destruct (parse_as_dict env text); simpl; discriminate.
  - destruct (m !! u "val") as [[| |text]|]; simpl; try discriminate.
    match goal with |- context [if ?b then _ else _] => destruct b end;
      simpl; discriminate.
Qed.

Lemma first_fired_none hs m mach :
  (forall h, In h hs -> skipped h m mach) -> first_fired hs m mach = (Ret false, mach).
Proof.
  induction hs as [|h hs IH]; intros Hall; [reflexivity|].
  cbn [first_fired]. unfold or_else. run.
  rewrite (Hall h (or_introl eq_refl)). apply IH.
  intros h' Hin. apply Hall. now right.
Qed.

Lemma first_fired_at hs i h m mach :
  hs !! i = Some h ->
  (forall j h', (j < i)%nat -> hs !! j = Some h' -> skipped h' m mach) ->
  fired h m mach ->
  first_fired hs m mach = h m mach.
Proof.
  revert i; induction hs as [|h0 hs IH]; intros i Hi Hbefore Hfired; [discriminate|].
  cbn [first_fired]. unfold or_else. run.
  destruct i as [|i].
  - injection Hi as ->. unfold fired in Hfired.
    destruct (h m mach) as [[[]|e] mach']; simpl in *; congruence.
  - rewrite (Hbefore 0%nat h0 ltac:(lia) eq_refl).
    apply (IH i Hi); [|assumption].
    intros j h' Hj Hl. apply (Hbefore (S j) h'); [lia|exact Hl].
Qed.

Lemma handled_tags_distinct i j t :
  handled_tags !! i = Some t -> handled_tags !! j = Some t -> i = j.
Proof.
  assert (Hnd : NoDup handled_tags).
  { unfold handled_tags. compute_done. }
  intros Hi Hj. eapply NoDup_lookup; eauto.
Qed.

Lemma other_handlers_skipped i t j h' m mach tag :
  m !! u "tag" = Some tag ->
  handled_tags !! i = Some t -> tag = VStr t ->
  j <> i -> handlers env !! j = Some h' -> skipped h' m mach.
Proof.
  intros Htag Ht -> Hne Hj.
  destruct (handled_tags !! j) as [t'|] eqn:Ht'.
  - apply (proj2 (handler_tests_tag j h' t' m mach _ Hj Ht' Htag)).
    intros [= <-]. apply Hne. eapply handled_tags_distinct; eauto.
  - apply lookup_ge_None in Ht'. apply lookup_lt_Some in Hj.
    simpl in Ht', Hj. lia.
Qed.

(** C6.  [handle_msg] consults the handlers in the order ret, ex, done,
    watch, lookup, err and stops at the first one that fires.  For a
    message with a tag: when the tag is one of the six, the handler of
    that tag fires, [handle_msg] does what that handler does, and the five
    others do not fire; when the tag is none of the six, no handler fires
    and [handle_msg] returns with the state unchanged. *)
Theorem handle_msg_dispatch (m : msg) (mach : machine) (tag : value) :
  m !! u "tag" = Some tag ->
  handle_msg env m mach = (_ ← first_fired (handlers env) m; ret tt) mach /\
  length (handlers env) = length handled_tags /\
  (forall i h t,
     handlers env !! i = Some h -> handled_tags !! i = Some t -> tag = VStr t ->
     fired h m mach /\
     handle_msg env m mach = (_ ← h m; ret tt) mach /\
     forall j h', j <> i -> handlers env !! j = Some h' -> skipped h' m mach) /\
  ((forall t, In t handled_tags -> tag <> VStr t) ->
     handle_msg env m mach = (Ret tt, mach) /\
     forall h, In h (handlers env) -> skipped h m mach).
Proof.
  intros Htag.
  split; [apply handle_msg_first_fired|].
  split; [reflexivity|].
  split.
  - intros i h t Hh Ht Heq.
    assert (Hfired : fired h m mach)
      by exact (proj1 (handler_tests_tag i h t m mach tag Hh Ht Htag) Heq).
    assert (Hothers : forall j h', j <> i -> handlers env !! j = Some h' -> skipped h' m mach)
      by (intros j h' Hne Hj; eapply other_handlers_skipped; eauto).
    split; [exact Hfired|]. split; [|exact Hothers].
    rewrite handle_msg_first_fired. run.
    rewrite (first_fired_at (handlers env) i h m mach Hh); [reflexivity| |exact Hfired].
    intros j h' Hlt Hj. apply (Hothers j h'); [lia|exact Hj].
  - intros Hnone.
    assert (Hall : forall h, In h (handlers env) -> skipped h m mach).
    { intros h Hin. apply list_elem_of_In, list_elem_of_lookup in Hin as [i Hi].
      destruct (handled_tags !! i) as [t|] eqn:Ht.
      - apply (proj2 (handler_tests_tag i h t m mach tag Hi Ht Htag)).
        apply Hnone. apply list_elem_of_In, list_elem_of_lookup. eauto.
      - apply lookup_ge_None in Ht. apply lookup_lt_Some in Hi. simpl in Ht, Hi. lia. }
    split; [|exact Hall].
    rewrite handle_msg_first_fired. run. now rewrite (first_fired_none _ _ _ Hall).
Qed.

(** C10.  [handle_value] fires on every message with tag ret.  When the
    message has no idx, [msg.get('idx')] is [None] and the success
    callback receives the identifier followed by a dot and the text
    None. *)
Theorem handle_value_without_idx (m : msg) (mach : machine) :
  m !! u "tag" = Some (VStr (u "ret")) ->
  m !! u "idx" = None ->
  handle_value m mach =
  (Ret true,
   with_trace (fun t => t ++ [EOnSuccess (format (get_item m (u "id")) ++ u ".None")
                                         (get_item m (u "val"))
                                         (get_item m (u "time"))]) mach).
Proof.
  intros Htag Hidx. unfold handle_value, item, get_item. run.
  rewrite Htag, Hidx. reflexivity.
Qed.

End DispatchFacts.

Lemma handle_msg_dispatch_witness :
  SocketRepl.handle_msg Sample.env Sample.unknown_tag Sample.mach = (Runtime.Ret tt, Sample.mach).
Proof.
  refine (proj1 (proj2 (proj2 (proj2
    (handle_msg_dispatch Sample.env Sample.unknown_tag Sample.mach
       (VStr (u "progress")) _))) _)).
  - vm_compute. reflexivity.
  - intros t Hin [= <-]. revert Hin. vm_compute. intuition discriminate.
Defined.

Lemma handle_value_without_idx_witness :
  Runtime.run_trace (SocketRepl.handle_value Sample.ret_without_idx) Sample.mach =
  [Runtime.EOnSuccess (u "7.None") (VStr (u "3")) VNone].
Proof.
  unfold Runtime.run_trace.
  rewrite (handle_value_without_idx Sample.ret_without_idx Sample.mach);
    vm_compute; reflexivity.
Defined.

Example handle_msg_ret_7_2 :
  Runtime.run_trace (SocketRepl.handle_msg Sample.env Sample.ret_7_2) Sample.mach =
  [Runtime.EOnSuccess (u "7.2") (VStr (u "3")) VNone].
Proof. vm_compute. reflexivity. Qed.

(** ** Disconnecting *)

Section DisconnectFacts.

Import Lifetime.

Variable env : collaborators.

Lemma disconnect_again m :
  disconnecting (this m) = true -> disconnect env m = (Ret tt, m).
Proof.
  intros H. unfold disconnect, Conn.disconnect. run. now rewrite H.
Qed.

Lemma disconnect_first m :
  disconnecting (this m) = false -> disconnect env m = (Ret tt, torn_down m).
Proof.
  intros H. unfold disconnect, Conn.disconnect. run. rewrite H.
  unfold torn_down, socket_disconnect_impl, set_self, get_state, set_state_conn,
    cs_common_set_status, erase_evals, erase_watches, reset_warnings, set_socket.
  run. destruct m as [[ref st dis w a [s|] rd cl] aw co sb ev wa ne ck at_ tr];
    simpl in *; unfold with_trace, with_this; simpl;
    rewrite <- ?app_assoc; reflexivity.
Qed.

Lemma run_trace_appended {A} (c : M A) m new :
  trace (snd (c m)) = trace m ++ new -> run_trace c m = new.
Proof. unfold run_trace. intros ->. apply drop_app_length. Qed.

Lemma filter_negb_In {A} (p : A -> bool) (P : A -> Prop) l x :
  (forall a, p a = true <-> P a) ->
  In x (List.filter (fun a => negb (p a)) l) <-> In x l /\ ~ P x.
Proof.
  intros Hp. rewrite filter_In, negb_true_iff, <- not_true_iff_false, Hp. reflexivity.
Qed.

(** C8.  The first [disconnect()] of a connection removes from the
    registries every Eval and every watch whose window is the window of
    the connection and keeps all the others as they are and in their
    order.  It calls no callback: the only events of the call are the
    closing of the socket, the clearing of the status and the reset of the
    warnings. *)
Theorem disconnect_evicts_own_context (m : machine) :
  disconnecting (this m) = false ->
  let w := window (this m) in
  let m' := snd (disconnect env m) in
  evals m' = List.filter (fun e => negb (bool_decide (eval_window e = Some w))) (evals m) /\
  watches m' = List.filter (fun x => negb (bool_decide (watch_window x = Some w))) (watches m) /\
  (forall e, In e (evals m') <-> In e (evals m) /\ eval_window e <> Some w) /\
  (forall x, In x (watches m') <-> In x (watches m) /\ watch_window x <> Some w) /\
  (forall ev, In ev (run_trace (disconnect env) m) ->
     ev = EClose \/ ev = ESetStatus w None \/ ev = EResetWarnings w).
Proof.
  intros Hflag w m'. subst m'. rewrite (disconnect_first m Hflag). simpl.
  split; [reflexivity|]. split; [reflexivity|].
  split; [|split].
  - intros e. apply (filter_negb_In (fun a => bool_decide (eval_window a = Some w))
      (fun a => eval_window a = Some w)). intros a. apply bool_decide_eq_true.
  - intros x. apply (filter_negb_In (fun a => bool_decide (watch_window a = Some w))
      (fun a => watch_window a = Some w)). intros a. apply bool_decide_eq_true.
  - intros ev. erewrite run_trace_appended
      by (rewrite (disconnect_first m Hflag); reflexivity).
    destruct (socket (this m)); simpl; intuition auto.
Qed.

End DisconnectFacts.

Lemma disconnect_evicts_own_context_witness :
  Runtime.evals (snd (SocketRepl.disconnect Sample.env Sample.mach)) =
  [Sample.eval_of 2%nat 11].
Proof.
  rewrite (proj1 (disconnect_evicts_own_context Sample.env Sample.mach eq_refl)).
  vm_compute. reflexivity.
Defined.

(** ** Teardown happens once in a lifetime *)

Section LifetimeFacts.

Import Lifetime.

Variable env : collaborators.

Lemma step_ok_refl m : step_ok m m.
Proof. unfold step_ok. intuition auto. Qed.

Lemma step_ok_trans m1 m2 m3 : step_ok m1 m2 -> step_ok m2 m3 -> step_ok m1 m3.
Proof.
  unfold step_ok. intros [A1 B1] [A2 B2]. split; intros H.
  - destruct (A1 H) as (F & C & S). destruct (A2 F) as (F' & C' & S').
    repeat split; [assumption|lia|lia].
  - destruct (B1 H) as [(F & C & S)|(F & C & S)].
    + destruct (B2 F) as [(F' & C' & S')|(F' & C' & S')]; [left|right];
        (repeat split; [assumption|lia|lia]).
    + destruct (A2 F) as (F' & C' & S'). right.
      repeat split; [assumption|lia|lia].
Qed.

Lemma inert_ok {A} (c : M A) : inert c -> ok c.
Proof.
  intros H m. destruct (H m) as (Hf & Hc & Hs). unfold step_ok.
  rewrite Hf, Hc, Hs. destruct (disconnecting (this m)); intuition auto.
Qed.

Lemma ok_ret {A} (a : A) : ok (mret a).
Proof. intros m. apply step_ok_refl. Qed.

Lemma ok_raise {A} e : ok (@raise A e).
Proof. intros m. apply step_ok_refl. Qed.

Lemma ok_bind {A B} (c : M A) (k : A -> M B) :
  ok c -> (forall a, ok (k a)) -> ok (c ≫= k).
Proof.
  intros Hc Hk m. run. specialize (Hc m).
  destruct (c m) as [[a|e] m1]; simpl in *; [|exact Hc].
  eapply step_ok_trans; [exact Hc|apply Hk].
Qed.

Lemma ok_try_except {A} (body handler : M A) caught :
  ok body -> ok handler -> ok (try_except body caught handler).
Proof.
  intros Hb Hh m. unfold try_except. specialize (Hb m).
  destruct (body m) as [[a|e] m1]; simpl in *; [exact Hb|].
  destruct (caught e); [|exact Hb].
  eapply step_ok_trans; [exact Hb|apply Hh].
Qed.

Lemma ok_get : ok get.
Proof. intros m. apply step_ok_refl. Qed.

Lemma ok_self : ok self.
Proof. intros m. apply step_ok_refl. Qed.

Lemma closes_app t t' : closes (t ++ t') = (closes t + closes t')%nat.
Proof. unfold closes. now rewrite List.filter_app, length_app. Qed.

Lemma clears_app t t' : clears (t ++ t') = (clears t + clears t')%nat.
Proof. unfold clears. now rewrite List.filter_app, length_app. Qed.

Lemma ok_emit e : is_close e = false -> is_clear e = false -> ok (emit e).
Proof.
  intros Hc Hs. apply inert_ok. intros m. unfold emit, modify. simpl.
  rewrite closes_app, clears_app. unfold closes, clears. simpl.
  rewrite Hc, Hs. simpl. repeat split; lia.
Qed.

Lemma ok_modify (f : machine -> machine) :
  (forall m, disconnecting (this (f m)) = disconnecting (this m) /\ trace (f m) = trace m) ->
  ok (modify f).
Proof.
  intros H. apply inert_ok. intros m. unfold modify. simpl.
  destruct (H m) as [-> ->]. auto.
Qed.

Lemma ok_set_self (f : Connection -> Connection) :
  (forall c, disconnecting (f c) = disconnecting c) -> ok (set_self f).
Proof. intros H. apply ok_modify. intros m. simpl. auto. Qed.

Lemma ok_for_each {A} (xs : list A) (body : A -> M unit) :
  (forall x, ok (body x)) -> ok (for_each xs body).
Proof.
  intros H. induction xs as [|x xs IH]; simpl; [apply ok_ret|].
  apply ok_bind; auto.
Qed.

Lemma ok_disconnect : ok (disconnect env).
Proof.
  intros m. destruct (disconnecting (this m)) eqn:Hflag.
  - rewrite (disconnect_again env m Hflag). apply step_ok_refl.
  - rewrite (disconnect_first env m Hflag). unfold step_ok. rewrite Hflag. simpl.
    split; [discriminate|]. intros _. right. split; [reflexivity|].
    rewrite closes_app, clears_app.
    destruct (socket (this m)); unfold closes, clears; simpl; lia.
Qed.

Ltac ok_step :=
  match goal with
  | |- ok (mbind _ _) => apply ok_bind; [|intros]
  | |- ok (mret _) => apply ok_ret
  | |- ok (ret _) => apply ok_ret
  | |- ok (raise _) => apply ok_raise
  | |- ok get => apply ok_get
  | |- ok self => apply ok_self
  | |- ok (emit _) => apply ok_emit; reflexivity
  | |- ok (set_self _) => apply ok_set_self; intros; reflexivity
  | |- ok (modify _) => apply ok_modify; intros; split; reflexivity
  | |- ok (try_except _ _ _) => apply ok_try_except
  | |- ok (for_each _ _) => apply ok_for_each; intros
  | |- ok (disconnect _) => apply ok_disconnect
  | |- ok (Conn.disconnect _) => apply ok_disconnect
  | |- ok (match ?x with _ => _ end) => destruct x
  | |- ok (if ?b then _ else _) => destruct b
  | |- ok _ => assumption
  end.

Ltac ok_unfold :=
  unfold time, sleep, socket_connect, get_state, set_state_conn, cs_common_set_status,
    reset_warnings, next_id, new_eval, status_message_if_window, set_status,
    set_socket, set_reader, send, socket_connect_impl, socket_eval_impl,
    socket_lookup_impl, socket_interrupt_impl, item, or_else.

Ltac ok_auto := repeat (progress ok_unfold || ok_step).

Lemma ok_set_status phase message : ok (set_status phase message).
Proof. ok_auto. Qed.

Lemma ok_send text : ok (send text).
Proof. ok_auto. Qed.

Lemma ok_new_eval w r id batch_id on_finish : ok (new_eval w r id batch_id on_finish).
Proof. ok_auto. Qed.

Lemma ok_connect_impl : ok (socket_connect_impl env).
Proof. ok_auto. Qed.

Lemma ok_connect : ok (connect env).
Proof.
  unfold connect, Conn.connect. simpl. pose proof ok_connect_impl. ok_auto.
Qed.

Lemma ok_retry_loop fuel state timeout t0 attempt :
  ok (retry_loop env (socket_hooks env) fuel state timeout t0 attempt).
Proof.
  revert attempt; induction fuel as [|fuel IH]; intros attempt; simpl.
  - apply ok_ret.
  - pose proof ok_connect_impl. pose proof (IH (S attempt)). ok_auto.
Qed.

Lemma ok_try_connect_impl fuel timeout : ok (try_connect_impl env fuel timeout).
Proof.
  unfold try_connect_impl, Conn.try_connect_impl.
  pose proof (fun s t a => ok_retry_loop fuel s timeout t a) as Hloop.
  ok_unfold. repeat (ok_step || apply Hloop).
Qed.

Lemma ok_try_connect timeout : ok (Conn.try_connect (socket_hooks env) timeout).
Proof. unfold Conn.try_connect. pose proof ok_connect. fold (connect env). ok_auto. Qed.

Lemma ok_eval_region_of r view : ok (eval_region_of env r view).
Proof. unfold eval_region_of. ok_auto. Qed.

Lemma ok_create_evals view start batch_id on_finish idx forms :
  ok (create_evals view start batch_id on_finish idx forms).
Proof.
  revert idx; induction forms as [|form forms IH]; intros idx; simpl.
  - apply ok_ret.
  - pose proof (IH (S idx)). pose proof ok_new_eval. repeat (ok_step || apply ok_new_eval).
Qed.

Lemma ok_eval_regions view sel transform_fn print_quota on_finish :
  ok (eval_regions env view sel transform_fn print_quota on_finish).
Proof.
  revert transform_fn; induction sel as [|r sel IH]; intros transform_fn; simpl.
  - apply ok_ret.
  - apply ok_bind; [apply ok_eval_region_of|]. intros [eval_region|]; [|apply ok_raise].
    destruct (code _ _ _ _ _) as [[c ns] forms].
    destruct (rowcol_utf16 _ _) as [line column].
    repeat (ok_step || apply ok_create_evals || apply IH || apply ok_send || unfold next_id).
Qed.

Lemma ok_eval view sel transform_fn print_quota on_finish :
  ok (eval env view sel transform_fn print_quota on_finish).
Proof. unfold eval. repeat (ok_step || apply ok_eval_regions || unfold reset_warnings). Qed.

Lemma ok_eval_status code ns : ok (eval_status code ns).
Proof. unfold eval_status. ok_auto. Qed.

Lemma ok_lookup view r : ok (lookup env view r).
Proof. unfold lookup, Conn.lookup. simpl. ok_auto. Qed.

Lemma ok_handle_msg m : ok (handle_msg env m).
Proof.
  unfold handle_msg, handle_value, handle_exception, handle_done, handle_watch,
    handle_lookup, handle_err. ok_auto.
Qed.

Lemma ok_handle_lines started ls : ok (handle_lines env started ls).
Proof.
  revert started; induction ls as [|line ls IH]; intros started; simpl.
  - apply ok_ret.
  - apply ok_bind; [|intros; apply IH].
    unfold handle_line. pose proof ok_handle_msg. pose proof ok_set_status.
    repeat (ok_step || apply ok_handle_msg || apply ok_set_status).
Qed.

Lemma ok_read_loop : ok (read_loop env).
Proof.
  unfold read_loop, read_loop_body.
  repeat (ok_step || apply ok_set_status || apply ok_send || apply ok_handle_lines).
Qed.

Lemma ok_run_call c : ok (run_call env c).
Proof.
  destruct c; simpl.
  - apply ok_disconnect.
  - apply ok_connect.
  - apply ok_try_connect.
  - apply ok_bind; [apply ok_try_connect_impl|intros; apply ok_ret].
  - apply ok_read_loop.
  - apply ok_eval.
  - apply ok_eval_status.
  - apply ok_eval.
  - apply ok_lookup.
  - unfold Conn.interrupt. simpl. apply ok_send.
Qed.

Lemma run_calls_ok calls m : step_ok m (run_calls env calls m).
Proof.
  revert m; induction calls as [|c calls IH]; intros m; simpl.
  - apply step_ok_refl.
  - eapply step_ok_trans; [apply ok_run_call|apply IH].
Qed.

Lemma flag_history_head calls m :
  exists rest, flag_history env calls m = disconnecting (this m) :: rest.
Proof. destruct calls; simpl; eauto. Qed.

Lemma flag_history_after_teardown calls m :
  disconnecting (this m) = true ->
  rises (flag_history env calls m) = 0%nat /\ falls (flag_history env calls m) = 0%nat.
Proof.
  revert m; induction calls as [|c calls IH]; intros m Hflag; simpl; rewrite Hflag.
  - split; reflexivity.
  - assert (Hnext : disconnecting (this (snd (run_call env c m))) = true)
      by (apply (proj1 (ok_run_call c m) Hflag)).
    destruct (IH _ Hnext) as [Hr Hf].
    destruct (flag_history_head calls (snd (run_call env c m))) as [rest E].
    rewrite E in Hr, Hf |- *; rewrite ?Hnext in Hr, Hf |- *. simpl in Hr, Hf |- *. auto.
Qed.

Lemma flag_history_rises calls m :
  disconnecting (this m) = false ->
  rises (flag_history env calls m) =
    (if disconnecting (this (run_calls env calls m)) then 1 else 0)%nat /\
  falls (flag_history env calls m) = 0%nat.
Proof.
  revert m; induction calls as [|c calls IH]; intros m Hflag; simpl; rewrite Hflag.
  - split; reflexivity.
  - destruct (flag_history_head calls (snd (run_call env c m))) as [rest E].
    destruct (disconnecting (this (snd (run_call env c m)))) eqn:Hnext.
    + destruct (flag_history_after_teardown calls _ Hnext) as [Hr Hf].
      rewrite E in Hr, Hf |- *; rewrite ?Hnext in Hr, Hf |- *. simpl in Hr, Hf |- *.
      rewrite (proj1 (proj1 (run_calls_ok calls _) Hnext)). auto.
    + destruct (IH _ Hnext) as [Hr Hf]. rewrite E in Hr, Hf |- *; rewrite ?Hnext in Hr, Hf |- *.
      simpl in Hr, Hf |- *. auto.
Qed.

Lemma flag_after_disconnect calls m :
  In CDisconnect calls -> disconnecting (this (run_calls env calls m)) = true.
Proof.
  revert m; induction calls as [|c calls IH]; intros m; simpl; [contradiction|].
  intros [-> | Hin]; [|now apply IH].
  apply (proj1 (run_calls_ok calls _)). simpl.
  destruct (disconnecting (this m)) eqn:Hflag.
  - now rewrite (disconnect_again env m Hflag).
  - now rewrite (disconnect_first env m Hflag).
Qed.

(** C2.  [disconnect()] on a connection whose flag is set returns at once
    and changes nothing; on a connection whose flag is not set it sets
    the flag.  Hence over any sequence of calls made one after the other
    on a connection that starts with the flag not set: the flag never goes
    back to false and goes from false to true at most once; when it ends
    set (as it does whenever [disconnect()] is among the calls) it rose
    exactly once, the status was cleared exactly once and the socket was
    closed at most once; and while it is not set nothing was cleared or
    closed. *)
Theorem disconnect_idempotent :
  (forall m, disconnecting (this m) = true -> disconnect env m = (Ret tt, m)) /\
  (forall m, disconnecting (this m) = false ->
     disconnecting (this (snd (disconnect env m))) = true) /\
  (forall calls m,
     disconnecting (this m) = false ->
     let m' := run_calls env calls m in
     falls (flag_history env calls m) = 0%nat /\
     (In CDisconnect calls -> disconnecting (this m') = true) /\
     (disconnecting (this m') = true ->
        rises (flag_history env calls m) = 1%nat /\
        clears (trace m') = (clears (trace m) + 1)%nat /\
        (closes (trace m') <= closes (trace m) + 1)%nat) /\
     (disconnecting (this m') = false ->
        rises (flag_history env calls m) = 0%nat /\
        clears (trace m') = clears (trace m) /\
        closes (trace m') = closes (trace m))).
Proof.
  split; [exact (disconnect_again env)|].
  split; [intros m H; now rewrite (disconnect_first env m H)|].
  intros calls m Hflag m'.
  destruct (flag_history_rises calls m Hflag) as [Hr Hf].
  destruct (run_calls_ok calls m) as [_ Hstep]. specialize (Hstep Hflag).
  fold m' in Hr, Hstep.
  split; [exact Hf|]. split; [apply flag_after_disconnect|].
  split; intros Hend; rewrite Hend in Hr;
    (split; [exact Hr|]);
    destruct Hstep as [(F & C & S)|(F & C & S)]; try congruence; auto.
Qed.

End LifetimeFacts.

Lemma disconnect_idempotent_witness :
  let calls := [Lifetime.CEvalStatus (u "1") (u "user"); Lifetime.CDisconnect;
                Lifetime.CReadLoop; Lifetime.CDisconnect] in
  let m := Sample.connected [] Sample.mach in
  Lifetime.clears (Runtime.trace (Lifetime.run_calls Sample.env calls m)) = 1%nat /\
  (Lifetime.closes (Runtime.trace (Lifetime.run_calls Sample.env calls m)) <= 1)%nat.
Proof.
  intros calls m.
  destruct (proj2 (proj2 (disconnect_idempotent Sample.env)) calls m eq_refl)
    as (_ & _ & Hset & _).
  destruct (Hset eq_refl) as (_ & Hclears & Hcloses).
  split; [exact Hclears|exact Hcloses].
Defined.

Example disconnect_twice_trace :
  Runtime.run_trace
    (fun m => (Runtime.Ret tt, Lifetime.run_calls Sample.env
                 [Lifetime.CDisconnect; Lifetime.CDisconnect] m))
    (Sample.connected [] Sample.mach) =
  [Runtime.EClose; Runtime.ESetStatus 1%nat None; Runtime.EResetWarnings 1%nat].
Proof. vm_compute. reflexivity. Qed.

(** ** The retry loop *)

Section RetryFacts.

Import Lifetime.

Variable env : collaborators.

(** Every connection attempt is refused. *)
Hypothesis never_accepts : forall k, accept env k = None.

Lemma machine_ext (m1 m2 : machine) :
  this m1 = this m2 -> active_window m1 = active_window m2 ->
  conn_of m1 = conn_of m2 -> status_bar m1 = status_bar m2 ->
  evals m1 = evals m2 -> watches m1 = watches m2 ->
  next_eval_id m1 = next_eval_id m2 -> clock m1 = clock m2 ->
  attempts m1 = attempts m2 -> trace m1 = trace m2 -> m1 = m2.
Proof. destruct m1, m2. simpl. intros. subst. reflexivity. Qed.

Lemma retry_turn_refused fuel state timeout t0 attempt m :
  retry_loop env (socket_hooks env) (S fuel) state timeout t0 attempt m =
  if (clock m - t0 <=? timeout)%Z
  then retry_loop env (socket_hooks env) fuel state timeout t0 (S attempt) (refused_attempt env m)
  else (Ret (Some false), m).
Proof.
  cbn [retry_loop]. unfold time. run. fields.
  destruct (clock m - t0 <=? timeout)%Z; [|reflexivity].
  unfold sleep, try_except. run. cbn [connect_impl socket_hooks].
  unfold socket_connect_impl, set_status, set_self, socket_connect,
    cs_common_set_status. run. fields.
  rewrite never_accepts. f_equal.
  apply machine_ext; unfold refused_attempt; fields; try reflexivity.
  rewrite <- !app_assoc. reflexivity.
Qed.

Lemma connect_times_app t t' : connect_times (t ++ t') = connect_times t ++ connect_times t'.
Proof.
  induction t as [|e t IH]; [reflexivity|].
  destruct e; simpl; rewrite IH; reflexivity.
Qed.

Lemma spaced_cons gap t times :
  Forall (fun t' => t + gap <= t')%Z times -> spaced gap times -> spaced gap (t :: times).
Proof.
  intros Hall Hsp. destruct times as [|t2 times]; [exact I|].
  split; [|exact Hsp]. now inversion Hall.
Qed.

Lemma fuel_step T e e' (fuel : nat) :
  (e <= T -> e + 250 <= e' ->
   Z.max 0 ((T - e) / 250 + 1) + 1 <= Z.of_nat (S fuel) ->
   Z.max 0 ((T - e') / 250 + 1) + 1 <= Z.of_nat fuel /\
   (T - e') / 250 + 1 <= (T - e) / 250 /\
   0 <= (T - e) / 250)%Z.
Proof.
  intros.
  assert ((T - e') / 250 <= (T - e - 250) / 250)%Z by (apply Z.div_le_mono; lia).
  assert ((T - e - 250) / 250 = (T - e) / 250 - 1)%Z.
  { replace (T - e - 250)%Z with ((T - e) + (-1) * 250)%Z by lia.
    rewrite Z.div_add by lia. lia. }
  assert (0 <= (T - e) / 250)%Z by (apply Z.div_pos; lia).
  lia.
Qed.

Lemma retry_loop_gives_up fuel state T t0 attempt m :
  (Z.max 0 ((T - (clock m - t0)) / 250 + 1) + 1 <= Z.of_nat fuel)%Z ->
  exists m',
    retry_loop env (socket_hooks env) fuel state T t0 attempt m = (Ret (Some false), m') /\
    gave_up env T t0 m m'.
Proof.
  revert attempt m; induction fuel as [|fuel IH]; intros attempt m Hfuel; [lia|].
  rewrite retry_turn_refused.
  destruct (clock m - t0 <=? T)%Z eqn:Hle.
  - apply Z.leb_le in Hle.
    set (m1 := refused_attempt env m).
    assert (Hclock : (clock m1 = clock m + 250 + Z.of_N (oversleep env (S (attempts m)))
                                + Z.of_N (connect_ms env (S (attempts m))))%Z)
      by (unfold m1, refused_attempt; fields; lia).
    destruct (fuel_step T (clock m - t0) (clock m1 - t0) fuel Hle ltac:(lia) Hfuel)
      as (Hfuel1 & Hdiv & Hpos).
    destruct (IH (S attempt) m1) as (m' & Hrun & new & Htr & Hc & Hs & He & Hall & Hsp
                                     & Hlen & Hstop & Hlast & Hend & Hflag & Hsock & Hwin).
    { exact Hfuel1. }
    exists m'. split; [exact Hrun|].
    exists ([ESleep (250 + oversleep env (S (attempts m)));
             ESetStatus (window (this m))
               (Some (nth 0 phases 0 :: u " " ++ (u "Connecting to " ++ addr (this m))));
             EConnect (S (attempts m))
               (clock m + Z.of_N (250 + oversleep env (S (attempts m))))%Z] ++ new).
    split; [rewrite Htr; unfold m1; simpl; now rewrite <- app_assoc|].
    split; [rewrite closes_app, Hc; reflexivity|].
    split; [rewrite clears_app, Hs; reflexivity|].
    split; [unfold errors in *; rewrite List.filter_app, length_app, He; reflexivity|].
    rewrite connect_times_app. cbn [connect_times app].
    split.
    { constructor; [lia|]. eapply Forall_impl; [exact Hall|]. cbv beta. intros t Ht. lia. }
    split.
    { apply spaced_cons; [|exact Hsp].
      eapply Forall_impl; [exact Hall|]. cbv beta. intros t Ht. lia. }
    split; [cbn [length]; lia|].
    split; [lia|].
    split.
    { intros _. split; [discriminate|].
      destruct (Z.le_gt_cases (clock m1 - t0) T) as [Hmore|Hdone].
      - apply (Hlast Hmore).
      - rewrite (Hstop ltac:(lia)). unfold m1 at 2 3. cbn [attempts refused_attempt]. lia. }
    split; [exact Hend|].
    split; [rewrite Hflag; reflexivity|].
    split; [rewrite Hsock; reflexivity|rewrite Hwin; reflexivity].
  - apply Z.leb_gt in Hle. exists m. split; [reflexivity|].
    exists []. rewrite app_nil_r.
    repeat split; try reflexivity; try (simpl; constructor); try (cbn [connect_times length]; lia).
Qed.

Lemma try_connect_impl_run fuel T m :
  disconnecting (this m) = false ->
  (T / 250 + 2 <= Z.of_nat fuel)%Z ->
  (0 <= T)%Z ->
  exists m1 m',
    gave_up env T (clock m) m m1 /\
    try_connect_impl env fuel T m = (Ret (Some tt), m') /\
    clock m' = clock m1 /\ attempts m' = attempts m1 /\
    disconnecting (this m') = true /\
    trace m' = trace m1 ++
      [EError (u "Giving up after {} sec connecting to {}")
              [VInt (clock m1 - clock m); VStr (addr (this m))]] ++
      match socket (this m1) with Some _ => [EClose] | None => [] end ++
      [ESetStatus (window (this m1)) None; EResetWarnings (window (this m1))] ++
      match active_window m1 with
      | Some w => [EStatusMessage w (u "Connection failed")]
      | None => []
      end.
Proof.
  intros Hflag Hfuel HT.
  destruct (retry_loop_gives_up fuel (Some (window (this m))) T (clock m) 1 m)
    as (m1 & Hrun & Hgave).
  { replace (clock m - clock m)%Z with 0%Z by lia. rewrite Z.sub_0_r.
    pose proof (Z.div_pos T 250 HT ltac:(lia)). lia. }
  set (reported := with_trace
         (fun t => t ++ [EError (u "Giving up after {} sec connecting to {}")
                                [VInt (clock m1 - clock m); VStr (addr (this m))]]) m1).
  set (final := match active_window m1 with
                | Some w => with_trace
                    (fun t => t ++ [EStatusMessage w (u "Connection failed")])
                    (torn_down reported)
                | None => torn_down reported
                end).
  exists m1, final. split; [exact Hgave|].
  destruct Hgave as (new & Htr & _ & _ & _ & _ & _ & _ & _ & _ & _ & Hflag1 & _ & _).
  split.
  { unfold try_connect_impl, Conn.try_connect_impl, get_state, time. run. fields.
    rewrite Hrun. fields.
    change (Conn.disconnect (socket_hooks env)) with (disconnect env).
    fold reported.
    rewrite (disconnect_first env reported) by (unfold reported; fields; congruence).
    unfold status_message_if_window. run.
    change (active_window (torn_down reported)) with (active_window m1).
    unfold final. destruct (active_window m1); reflexivity. }
  unfold final, reported.
  destruct (active_window m1); unfold torn_down; fields;
    (repeat split; [rewrite <- !app_assoc; destruct (socket (this m1)); reflexivity]).
Qed.

(** C1.  Against an address that refuses every attempt, and for every
    timeout T > 0 (in milliseconds), [try_connect_impl] returns as soon as
    it is given [T / 250 + 2] turns of the loop or more.  It makes at
    least one attempt and at most [T / 250 + 1]; the first comes 250 ms
    or more after the start and each next one 250 ms or more after the one
    before.  When it gives up, more than T has elapsed since the start,
    and no more than T plus the last sleep (250 ms and its overshoot) plus
    the duration of the last attempt.  It reports the failure once, and
    disconnects once: the flag is set, the status cleared once and the
    socket closed at most once. *)
Theorem try_connect_impl_gives_up (T : Z) (m : machine) (fuel : nat) :
  (0 < T)%Z ->
  disconnecting (this m) = false ->
  (T / 250 + 2 <= Z.of_nat fuel)%Z ->
  exists m',
    try_connect_impl env fuel T m = (Ret (Some tt), m') /\
    let new := run_trace (try_connect_impl env fuel T) m in
    let times := connect_times new in
    times <> [] /\
    (Z.of_nat (length times) <= T / 250 + 1)%Z /\
    Forall (fun t => clock m + 250 <= t)%Z times /\
    spaced 250 times /\
    (T < clock m' - clock m)%Z /\
    (clock m' - clock m <= T + 250 + Z.of_N (oversleep env (attempts m'))
                           + Z.of_N (connect_ms env (attempts m')))%Z /\
    errors new = 1%nat /\
    clears new = 1%nat /\
    (closes new <= 1)%nat /\
    disconnecting (this m') = true.
Proof.
  intros HT Hflag Hfuel.
  destruct (try_connect_impl_run fuel T m Hflag Hfuel ltac:(lia))
    as (m1 & m' & Hgave & Hrun & Hclock & Hatt & Hset & Htrace).
  destruct Hgave as (new & Htr & Hc & Hs & He & Hall & Hsp & Hlen & _ & Hlast & Hend & _).
  destruct (Hlast ltac:(lia)) as [Hsome Hbound].
  exists m'. split; [exact Hrun|].
  remember ([EError (u "Giving up after {} sec connecting to {}")
                    [VInt (clock m1 - clock m); VStr (addr (this m))]] ++
            match socket (this m1) with Some _ => [EClose] | None => [] end ++
            [ESetStatus (window (this m1)) None; EResetWarnings (window (this m1))] ++
            match active_window m1 with
            | Some w => [EStatusMessage w (u "Connection failed")]
            | None => []
            end) as ending eqn:Hending.
  assert (Hnew : run_trace (try_connect_impl env fuel T) m = new ++ ending).
  { apply run_trace_appended. rewrite Hrun. cbn [snd]. rewrite Htrace, Htr.
    now rewrite <- app_assoc. }
  assert (Hcounts : connect_times ending = [] /\ errors ending = 1%nat /\
                    clears ending = 1%nat /\ (closes ending <= 1)%nat).
  { subst ending. destruct (socket (this m1)), (active_window m1);
      cbv [errors clears closes app connect_times List.filter is_error is_clear is_close
           length]; repeat split; lia. }
  destruct Hcounts as (Ht & Herr & Hclr & Hcls).
  cbv zeta. rewrite Hnew.
  rewrite connect_times_app, Ht, app_nil_r.
  rewrite Hclock, Hatt.
  replace (clock m - clock m)%Z with 0%Z in Hlen by lia. rewrite Z.sub_0_r in Hlen.
  pose proof (Z.div_pos T 250 ltac:(lia) ltac:(lia)).
  unfold errors in *. rewrite closes_app, clears_app, List.filter_app, length_app, Hc, Hs, He.
  repeat split; try assumption; try lia.
Qed.

End RetryFacts.

Lemma try_connect_impl_gives_up_witness :
  exists m',
    SocketRepl.try_connect_impl Sample.env 10 600 Sample.mach = (Runtime.Ret (Some tt), m') /\
    Lifetime.connect_times
      (Runtime.run_trace (SocketRepl.try_connect_impl Sample.env 10 600) Sample.mach) <> [].
Proof.
  destruct (try_connect_impl_gives_up Sample.env (fun _ => eq_refl) 600 Sample.mach 10)
    as (m' & Hrun & Htimes & _); [reflexivity|reflexivity|vm_compute; discriminate|].
  exists m'. split; [exact Hrun|exact Htimes].
Defined.

Example retry_600ms :
  Lifetime.connect_times
    (Runtime.run_trace (SocketRepl.try_connect_impl Sample.env 10 600) Sample.mach) =
  [1253; 1546; 1839]%Z /\
  Runtime.clock (snd (SocketRepl.try_connect_impl Sample.env 10 600 Sample.mach)) = 1879%Z.
Proof. vm_compute. split; reflexivity. Qed.

(** ** The read loop *)

Section ReadLoopFacts.

Import Lifetime.

Variable env : collaborators.

Lemma undisturbed_refl m : undisturbed m m.
Proof. unfold undisturbed. intuition auto. Qed.

Lemma undisturbed_trans m1 m2 m3 :
  undisturbed m1 m2 -> undisturbed m2 m3 -> undisturbed m1 m3.
Proof.
  unfold undisturbed.
  intros (F1 & W1 & C1 & E1 & A1 & X1 & S1 & H1) (F2 & W2 & C2 & E2 & A2 & X2 & S2 & H2).
  repeat split; try congruence; try apply H2; try apply H1; assumption.
Qed.

Lemma calm_ret {A} (a : A) : calm (mret a).
Proof. intros m. apply undisturbed_refl. Qed.

Lemma calm_raise {A} e : calm (@raise A e).
Proof. intros m. apply undisturbed_refl. Qed.

Lemma calm_self : calm self.
Proof. intros m. apply undisturbed_refl. Qed.

Lemma calm_bind {A B} (c : M A) (k : A -> M B) :
  calm c -> (forall a, calm (k a)) -> calm (c ≫= k).
Proof.
  intros Hc Hk m. run. specialize (Hc m).
  destruct (c m) as [[a|e] m1]; simpl in *; [|exact Hc].
  eapply undisturbed_trans; [exact Hc|apply Hk].
Qed.

Lemma calm_emit e : is_close e = false -> is_clear e = false -> calm (emit e).
Proof.
  intros Hc Hs m. unfold emit, modify, undisturbed, status_shown. simpl.
  rewrite closes_app, clears_app. unfold closes, clears. simpl. rewrite Hc, Hs. simpl.
  repeat split; try lia; tauto.
Qed.

Lemma calm_set_status phase message : calm (set_status phase message).
Proof.
  intros m. unfold set_status, set_self, cs_common_set_status. run.
  unfold undisturbed, status_shown. simpl.
  rewrite closes_app, clears_app. unfold closes, clears. simpl.
  rewrite lookup_insert_eq. repeat split; try lia; eauto.
Qed.

Lemma calm_send text : calm (send text).
Proof.
  intros m. unfold send. run.
  destruct (socket (this m)) as [s|]; [|apply undisturbed_refl].
  destruct (encode text); [|apply undisturbed_refl].
  destruct (send_fails s); [apply undisturbed_refl|].
  apply (calm_emit (ESend text)); reflexivity.
Qed.

Ltac calm_step :=
  match goal with
  | |- calm (mbind _ _) => apply calm_bind; [|intros]
  | |- calm (mret _) => apply calm_ret
  | |- calm (ret _) => apply calm_ret
  | |- calm (raise _) => apply calm_raise
  | |- calm self => apply calm_self
  | |- calm (emit _) => apply calm_emit; reflexivity
  | |- calm (set_status _ _) => apply calm_set_status
  | |- calm (send _) => apply calm_send
  | |- calm (match ?x with _ => _ end) => destruct x
  | |- calm (if ?b then _ else _) => destruct b
  | |- calm _ => assumption
  end.

Lemma calm_handle_msg m : calm (handle_msg env m).
Proof.
  unfold handle_msg, handle_value, handle_exception, handle_done, handle_watch,
    handle_lookup, handle_err, or_else, item. repeat calm_step.
Qed.

Lemma calm_handle_lines started ls : calm (handle_lines env started ls).
Proof.
  revert started; induction ls as [|line ls IH]; intros started; simpl.
  - apply calm_ret.
  - apply calm_bind; [|intros; apply IH].
    unfold handle_line. repeat (calm_step || apply calm_handle_msg).
Qed.

Lemma calm_read_loop_body : calm (read_loop_body env).
Proof.
  unfold read_loop_body. repeat (calm_step || apply calm_handle_lines).
Qed.

Lemma read_loop_body_shows_status m : status_shown (snd (read_loop_body env m)).
Proof.
  unfold read_loop_body.
  set (rest := (send (clojure_source env (u "core.clj"));; _) : M unit).
  assert (Hrest : calm rest).
  { unfold rest. repeat (calm_step || apply calm_handle_lines). }
  run. destruct (set_status 1 (u "Upgrading REPL") m) as [[[]|e] m1] eqn:Hset.
  - assert (Hshown : status_shown m1).
    { replace m1 with (snd (set_status 1 (u "Upgrading REPL") m)) by now rewrite Hset.
      unfold set_status, set_self, cs_common_set_status, status_shown. run. simpl.
      rewrite lookup_insert_eq. eauto. }
    apply (Hrest m1). exact Hshown.
  - exfalso. revert Hset. unfold set_status, set_self, cs_common_set_status. run.
    simpl. discriminate.
Qed.

Lemma read_loop_disconnects_on_OSError m m1 :
  read_loop_body env m = (Raise OSError, m1) -> read_loop env m = disconnect env m1.
Proof.
  intros Hbody. unfold read_loop, try_except. run. rewrite Hbody. reflexivity.
Qed.

Lemma read_loop_disconnects_at_end m m1 :
  read_loop_body env m = (Ret tt, m1) -> read_loop env m = disconnect env m1.
Proof.
  intros Hbody. unfold read_loop, try_except. run. rewrite Hbody. reflexivity.
Qed.

(** C9.  The guard of [read_loop] catches [OSError] only.  When the
    handling of a line (or anything else in the [try] block) raises another
    exception, that exception leaves [read_loop] and [disconnect()] is not
    called: the flag is as it was (false when it was false), the status is
    still shown, the active-connection table and the registries of Evals
    and watches are as they were, no socket was closed and no status
    cleared. *)
Theorem read_loop_escape (m m1 : machine) (e : exn) :
  read_loop_body env m = (Raise e, m1) ->
  is_OSError e = false ->
  read_loop env m = (Raise e, m1) /\
  disconnecting (this m1) = disconnecting (this m) /\
  status_shown m1 /\
  conn_of m1 = conn_of m /\
  evals m1 = evals m /\
  watches m1 = watches m /\
  closes (trace m1) = closes (trace m) /\
  clears (trace m1) = clears (trace m).
Proof.
  intros Hbody Hother.
  split.
  { unfold read_loop, try_except. run. rewrite Hbody, Hother. reflexivity. }
  pose proof (calm_read_loop_body m) as Hcalm.
  pose proof (read_loop_body_shows_status m) as Hshown.
  rewrite Hbody in Hcalm, Hshown. cbn [snd] in Hcalm, Hshown.
  destruct Hcalm as (Hf & _ & Hc & He & Hw & Hcl & Hcr & _).
  repeat split; try assumption; apply Hshown.
Qed.

End ReadLoopFacts.

Lemma read_loop_escape_witness :
  fst (SocketRepl.read_loop Sample.env (Sample.connected Sample.junk_after_started Sample.mach)) =
    Runtime.Raise ParseError.
Proof.
  refine (f_equal fst (proj1 (read_loop_escape Sample.env
    (Sample.connected Sample.junk_after_started Sample.mach)
    (snd (SocketRepl.read_loop_body Sample.env
            (Sample.connected Sample.junk_after_started Sample.mach)))
    ParseError _ _))).
  - vm_compute. reflexivity.
  - reflexivity.
Defined.

Example read_loop_bad_utf8 :
  fst (SocketRepl.read_loop Sample.env (Sample.connected [[xff; x0a]] Sample.mach)) =
    Runtime.Raise UnicodeDecodeError.
Proof. vm_compute. reflexivity. Qed.

Example read_loop_closed_by_peer :
  Runtime.run_trace (SocketRepl.read_loop Sample.env) (Sample.connected [] Sample.mach) =
  [Runtime.ESetStatus 1%nat (Some (127762 :: u " Upgrading REPL"));
   Runtime.ESend (u "core.clj"); Runtime.ESend (u "socket_repl.clj");
   Runtime.ESend (u "(repl)" ++ [10]);
   Runtime.EClose; Runtime.ESetStatus 1%nat None; Runtime.EResetWarnings 1%nat].
Proof. vm_compute. reflexivity. Qed.

(** ** Identifiers of batches *)

Section IdentifierFacts.

Import Codec.

Lemma digits_numeric d : Forall numeric (digits d).
Proof.
  induction d; simpl; constructor; auto; unfold numeric; lia.
Qed.

Lemma digits_no_minus d : Forall (fun c => c <> 45) (digits d).
Proof.
  induction d; simpl; constructor; auto; lia.
Qed.

Lemma digits_injective d1 d2 : digits d1 = digits d2 -> d1 = d2.
Proof.
  revert d2; induction d1; intros d2; destruct d2; simpl; intros H;
    try discriminate; try reflexivity;
    injection H as H; f_equal; auto.
Qed.

Lemma str_of_nat_injective i j : str_of_nat i = str_of_nat j -> i = j.
Proof.
  unfold str_of_nat. intros H%digits_injective.
  rewrite <- (DecimalNat.Unsigned.of_to i), <- (DecimalNat.Unsigned.of_to j).
  now rewrite H.
Qed.

Lemma str_of_Z_injective a b : str_of_Z a = str_of_Z b -> a = b.
Proof.
  unfold str_of_Z. intros H.
  rewrite <- (DecimalZ.of_to a), <- (DecimalZ.of_to b).
  destruct (Z.to_int a) as [da|da], (Z.to_int b) as [db|db].
  - apply digits_injective in H. now subst.
  - exfalso. pose proof (digits_no_minus da) as Hd. rewrite H in Hd.
    inversion Hd. congruence.
  - exfalso. pose proof (digits_no_minus db) as Hd. rewrite <- H in Hd.
    inversion Hd. congruence.
  - injection H as H. apply digits_injective in H. now subst.
Qed.

Lemma str_of_Z_numeric z : Forall numeric (str_of_Z z).
Proof.
  unfold str_of_Z. destruct (Z.to_int z); [apply digits_numeric|].
  constructor; [now left|apply digits_numeric].
Qed.

Lemma str_of_nat_numeric n : Forall numeric (str_of_nat n).
Proof. apply digits_numeric. Qed.

(** Two texts that are cut at their first dot agree part by part. *)
Lemma dotted_injective (a a' r r' : str) :
  Forall numeric a -> Forall numeric a' ->
  a ++ 46 :: r = a' ++ 46 :: r' -> a = a' /\ r = r'.
Proof.
  intros Ha; revert a'; induction Ha as [|c a Hc Ha IH]; intros a' Ha' H.
  - destruct Ha' as [|c' a' Hc' Ha']; simpl in H.
    + injection H as ->. auto.
    + injection H as <- _. unfold numeric in Hc'. lia.
  - destruct Ha' as [|c' a' Hc' Ha']; simpl in H.
    + injection H as -> _. unfold numeric in Hc. lia.
    + injection H as -> H. destruct (IH a' Ha' H) as [-> ->]. auto.
Qed.

Lemma strip_prefix_app prefix s : strip_prefix prefix (prefix ++ s) = Some s.
Proof.
  induction prefix as [|p prefix IH]; [reflexivity|].
  simpl. now rewrite N.eqb_refl.
Qed.

Lemma until_delimiter_numeric a rest :
  Forall numeric a -> until_delimiter (a ++ u ", " ++ rest) = a.
Proof.
  induction 1 as [|c a Hc Ha IH]; [reflexivity|].
  change ((c :: a) ++ u ", " ++ rest) with (c :: (a ++ u ", " ++ rest)).
  assert (H44 : (c =? 44) = false) by (apply N.eqb_neq; unfold numeric in Hc; lia).
  assert (H125 : (c =? 125) = false) by (apply N.eqb_neq; unfold numeric in Hc; lia).
  remember (a ++ u ", " ++ rest) as tail.
  cbn [until_delimiter]. rewrite H44, H125. cbn [orb]. now rewrite IH.
Qed.

Lemma wire_id_eval_msg form z :
  form_id form = VInt z -> wire_id (eval_msg form) = Some (str_of_Z z).
Proof.
  intros Hid. unfold wire_id, eval_msg, eval_msg_head. rewrite Hid. cbn [format].
  set (p := u "{" ++ quoted (u "id") ++ u " ").
  set (hd := u "{" ++ quoted (u "id") ++ _).
  assert (Hhd : exists t, hd = p ++ str_of_Z z ++ u ", " ++ t).
  { unfold hd, p. eexists. rewrite <- !app_assoc. reflexivity. }
  destruct Hhd as [t Hhd]. clearbody hd p. subst hd.
  match goal with |- _ <$> strip_prefix p ?w = _ =>
    assert (Hw : exists t', w = p ++ str_of_Z z ++ u ", " ++ t') end.
  { destruct (form_print_quota form), (form_file form) as [[|]|],
      (form_line form), (form_column form);
      eexists; rewrite <- ?app_assoc; reflexivity. }
  destruct Hw as [t' ->]. rewrite strip_prefix_app. cbn [fmap option_fmap option_map].
  now rewrite until_delimiter_numeric by apply str_of_Z_numeric.
Qed.

Lemma wire_id_lookup_msg z symbol ns :
  wire_id (lookup_msg (VInt z) symbol ns) = Some (str_of_Z z).
Proof.
  unfold wire_id, lookup_msg. cbn [format].
  set (p := u "{" ++ quoted (u "id") ++ u " ").
  match goal with |- _ <$> strip_prefix p ?w = _ =>
    assert (Hw : exists t', w = p ++ str_of_Z z ++ u ", " ++ t') end.
  { unfold p. eexists. rewrite <- !app_assoc. reflexivity. }
  destruct Hw as [t' ->]. rewrite strip_prefix_app. cbn [fmap option_fmap option_map].
  now rewrite until_delimiter_numeric by apply str_of_Z_numeric.
Qed.

End IdentifierFacts.

(** ** Batches of Evals *)

Section BatchFacts.

Import Lifetime.

Variable env : collaborators.

Lemma truthy_dotted a r : truthy (VStr (a ++ u "." ++ r)) = true.
Proof. destruct a; reflexivity. Qed.

Lemma new_eval_given w r id batch_id on_finish m :
  truthy id = true ->
  let e := {| eval_id := id; eval_batch_id := batch_id; eval_window := w;
              eval_region := r; eval_on_finish := on_finish |} in
  new_eval w r id batch_id on_finish m =
  (Ret e, with_trace (fun t => t ++ [ENewEval e]) (with_evals (fun l => l ++ [e]) m)).
Proof.
  intros Hid e. unfold new_eval. run. rewrite Hid. reflexivity.
Qed.

Lemma create_evals_run view bt on_finish forms idx m :
  exists m',
    create_evals view (region_begin (batch_region bt)) (batch_id bt) on_finish idx forms m
      = (Ret tt, m') /\
    trace m' = trace m ++
      map ENewEval (imap (fun i => batch_eval view on_finish bt (idx + i)) forms) /\
    evals m' = evals m ++ imap (fun i => batch_eval view on_finish bt (idx + i)) forms /\
    this m' = this m /\ next_eval_id m' = next_eval_id m.
Proof.
  revert idx m; induction forms as [|form forms IH]; intros idx m.
  - exists m. simpl. rewrite !app_nil_r. auto.
  - cbn [create_evals]. run.
    rewrite new_eval_given by apply truthy_dotted.
    match goal with |- context [create_evals _ _ _ _ _ _ ?m1] =>
      destruct (IH (S idx) m1) as (m' & Hrun & Htr & Hev & Hthis & Hnext) end.
    exists m'. rewrite Hrun. split; [reflexivity|].
    fields. rewrite Htr, Hev, Hthis, Hnext. cbn [imap map].
    rewrite <- !app_assoc, Nat.add_0_r. cbn [app].
    rewrite (imap_ext (fun i => batch_eval view on_finish bt (S idx + i))
                      ((fun i => batch_eval view on_finish bt (idx + i)) ∘ S))
      by (intros; cbn; f_equal; lia).
    auto.
Qed.

Lemma eval_region_of_pure s view m :
  exists r, eval_region_of env s view m = (Ret r, m) /\
            (region_empty s = false -> r = Some s).
Proof.
  unfold eval_region_of. destruct (region_empty s).
  - run. destruct (by_region env (evals m) view s); eexists; (split; [reflexivity|discriminate]).
  - eexists. split; [reflexivity|auto].
Qed.

Lemma code_forms view selected_region eval_region transform_fn :
  snd (code env view selected_region eval_region transform_fn) =
  top_level_forms env view eval_region.
Proof. unfold code. destruct transform_fn; reflexivity. Qed.

Lemma send_cases text m :
  (exists e, send text m = (Raise e, m)) \/
  send text m = (Ret tt, with_trace (fun t => t ++ [ESend text]) m).
Proof.
  unfold send. run. destruct (socket (this m)) as [s|]; [|left; eauto].
  destruct (encode text); [|left; eauto].
  destruct (send_fails s); [left; eauto|right; reflexivity].
Qed.

Lemma batches_from_cons view first bt w bs :
  batch_id bt = first ->
  batch_forms bt = top_level_forms env view (batch_region bt) ->
  (forall wire, w = Some wire -> wire_id wire = Some (str_of_Z (batch_id bt))) ->
  (w = None -> bs = []) ->
  batches_from env view (first + 1) bs ->
  batches_from env view first ((bt, w) :: bs).
Proof.
  intros Hid Hforms Hwire Hlast Hrest [|i] bt' w' Hi.
  - injection Hi as <- <-. repeat split; auto; [lia|].
    intros Hw. now rewrite (Hlast Hw).
  - destruct (Hrest i bt' w' Hi) as (Hid' & Hforms' & Hwire' & Hlast').
    repeat split; auto; [lia|]. intros Hw. cbn [length]. now rewrite (Hlast' Hw).
Qed.

Lemma batches_from_nil view first : batches_from env view first [].
Proof. intros i bt w Hi. discriminate. Qed.

Lemma batched_stop view sel on_finish m r :
  snd r = m -> (fst r = Ret tt -> sel = []) -> batched env view sel on_finish m r [].
Proof.
  intros Hm Hsel. unfold batched. rewrite Hm. cbn [flat_map length].
  rewrite !app_nil_r, Z.add_0_r.
  split; [reflexivity|]. split; [reflexivity|]. split; [reflexivity|].
  split; [apply batches_from_nil|]. split; [lia|].
  intros Hret. rewrite (Hsel Hret). split; constructor.
Qed.

Lemma eval_regions_batched view sel transform_fn print_quota on_finish m :
  exists bs,
    batched env view sel on_finish m
      (eval_regions env view sel transform_fn print_quota on_finish m) bs.
Proof.
  revert transform_fn m; induction sel as [|s sel IH]; intros transform_fn m.
  - exists []. now apply batched_stop.
  - cbn [eval_regions]. run.
    destruct (eval_region_of_pure s view m) as (r & -> & Hr).
    destruct r as [er|].
    2:{ exists []. apply batched_stop; [reflexivity|discriminate]. }
    set (tf := match transform_fn with Some f => Some f | None => watch_transform env view end).
    pose proof (code_forms view s er tf) as Hforms.
    destruct (code env view s er tf) as [[c ns] forms]. cbn [snd] in Hforms.
    unfold next_id. run. fields.
    set (bt := {| batch_id := next_eval_id m; batch_region := er; batch_forms := forms |}).
    destruct (create_evals_run view bt on_finish forms 0 (with_next_eval_id Z.succ m))
      as (m2 & Hrun & Htr & Hev & Hthis & Hnext).
    cbn [batch_region batch_id bt] in Hrun. rewrite Hrun.
    change (imap (fun i => batch_eval view on_finish bt (0 + i)) forms)
      with (batch_evals view on_finish bt) in Htr, Hev.
    destruct (rowcol_utf16 view (region_begin er)) as [line column].
    unfold socket_eval_impl.
    match goal with |- context [send ?text m2] =>
      set (wire := text); destruct (send_cases wire m2) as [[e Hsend]|Hsend] end.
    + exists [(bt, None)]. rewrite Hsend. unfold batched, block.
      cbn [fst snd flat_map length]. rewrite !app_nil_r. fields. rewrite Htr, Hev, Hnext. fields.
      split; [reflexivity|]. split; [reflexivity|]. split; [lia|].
      split; [|split; [lia|discriminate]].
      apply batches_from_cons; auto using batches_from_nil; discriminate.
    + rewrite Hsend.
      destruct (IH tf (with_trace (fun t => t ++ [ESend wire]) m2)) as (bs & Hbs).
      exists ((bt, Some wire) :: bs).
      destruct Hbs as (Htr' & Hev' & Hnext' & Hfrom & Hlen & Hok).
      unfold batched. fields. rewrite Htr in Htr'. rewrite Hev in Hev'.
      rewrite Hnext in Hnext', Hfrom. fields.
      split; [rewrite Htr'; cbn [flat_map]; unfold block at 2; cbn [fst snd];
              now rewrite <- !app_assoc|].
      split; [rewrite Hev'; cbn [flat_map fst]; now rewrite <- !app_assoc|].
      split; [rewrite Hnext'; cbn [length]; lia|].
      split.
      { apply batches_from_cons;
          [reflexivity|exact Hforms| |discriminate|].
        - intros w [= <-]. unfold wire. now apply wire_id_eval_msg.
        - replace (next_eval_id m + 1)%Z with (Z.succ (next_eval_id m)) by lia. exact Hfrom. }
      split; [cbn [length]; lia|].
      intros Hret. destruct (Hok Hret) as [Hall Hlink].
      split; constructor; auto.
      intros Hs. cbn [fst batch_region bt]. specialize (Hr Hs). congruence.
Qed.

Lemma batches_from_inv view first bt w bs :
  batches_from env view first ((bt, w) :: bs) ->
  batch_id bt = first /\ batches_from env view (first + 1) bs.
Proof.
  intros H. split.
  - destruct (H 0%nat bt w eq_refl) as [-> _]. lia.
  - intros i bt' w' Hi. destruct (H (S i) bt' w' Hi) as (Hid & Hforms & Hwire & Hlast).
    repeat split; auto; [lia|]. intros Hw. specialize (Hlast Hw). cbn [length] in Hlast. lia.
Qed.

Lemma batch_evals_lookup view on_finish bt idx e :
  batch_evals view on_finish bt !! idx = Some e ->
  exists form, batch_forms bt !! idx = Some form /\ e = batch_eval view on_finish bt idx form.
Proof.
  unfold batch_evals. rewrite list_lookup_imap.
  destruct (batch_forms bt !! idx) as [form|]; [|discriminate].
  intros [= <-]. eauto.
Qed.

Lemma batch_ids_distinct view on_finish bt :
  NoDup (map eval_id (batch_evals view on_finish bt)).
Proof.
  apply NoDup_alt. intros i j x Hi Hj.
  rewrite list_lookup_fmap in Hi, Hj.
  destruct (batch_evals view on_finish bt !! i) as [ei|] eqn:Ei; [|discriminate].
  destruct (batch_evals view on_finish bt !! j) as [ej|] eqn:Ej; [|discriminate].
  apply batch_evals_lookup in Ei as (fi & _ & ->).
  apply batch_evals_lookup in Ej as (fj & _ & ->).
  injection Hi as <-. injection Hj as Hj.
  apply dotted_injective in Hj as [_ Hj]; try apply str_of_Z_numeric.
  now apply str_of_nat_injective in Hj.
Qed.

Lemma batches_ids_distinct view on_finish first bs :
  batches_from env view first bs ->
  NoDup (map eval_id (flat_map (fun b => batch_evals view on_finish (fst b)) bs)) /\
  (forall x, In x (map eval_id (flat_map (fun b => batch_evals view on_finish (fst b)) bs)) ->
     exists b idx, x = VStr (str_of_Z b ++ u "." ++ str_of_nat idx) /\ (first <= b)%Z).
Proof.
  revert first; induction bs as [|[bt w] bs IH]; intros first Hfrom.
  - split; [constructor|intros x []].
  - apply batches_from_inv in Hfrom as [Hid Hrest].
    destruct (IH _ Hrest) as [Hnd Hin].
    cbn [flat_map fst]. rewrite map_app.
    assert (Hhere : forall x, In x (map eval_id (batch_evals view on_finish bt)) ->
              exists idx, x = VStr (str_of_Z first ++ u "." ++ str_of_nat idx)).
    { intros x Hx. apply in_map_iff in Hx as (e & <- & He).
      apply list_elem_of_In, list_elem_of_lookup in He as [idx He].
      apply batch_evals_lookup in He as (form & _ & ->).
      exists idx. cbn [batch_eval eval_id]. now rewrite Hid. }
    split.
    + apply NoDup_app. split; [apply batch_ids_distinct|]. split; [|exact Hnd].
      intros x Hx Hx'. apply list_elem_of_In in Hx, Hx'.
      destruct (Hhere x Hx) as [idx ->]. destruct (Hin _ Hx') as (b & idx' & Heq & Hb).
      injection Heq as Heq.
      apply dotted_injective in Heq as [Heq _]; try apply str_of_Z_numeric.
      apply str_of_Z_injective in Heq. lia.
    + intros x Hx. apply in_app_or in Hx as [Hx|Hx].
      * destruct (Hhere x Hx) as [idx ->]. exists first, idx. split; [reflexivity|lia].
      * destruct (Hin x Hx) as (b & idx & -> & Hb). exists b, idx. split; [reflexivity|lia].
Qed.

(** C5.  A call of [eval] makes one batch for each selected region that
    it processes, the batches taking consecutive fresh identifiers from
    the counter.  For a batch whose code has n top-level forms (comments
    and discards left out) it installs exactly n Evals: the Eval of the
    form at index idx, counted from 0 in source order, has the identifier
    of the batch, a dot and idx as its identifier and the identifier of
    the batch as its batch identifier.  All the identifiers installed by
    the call are distinct. *)
Theorem eval_assigns_batch_identifiers (view : View) (sel : list region)
  (transform_fn : option transform) (print_quota : value)
  (on_finish : option callback) (m : machine) :
  exists bs : list (batch * option str),
    let r := eval env view sel transform_fn print_quota on_finish m in
    evals (snd r) = evals m ++ flat_map (fun b => batch_evals view on_finish (fst b)) bs /\
    batches_from env view (next_eval_id m) bs /\
    (length bs <= length sel)%nat /\
    (fst r = Ret tt ->
       Forall2 (fun s b => region_empty s = false -> batch_region (fst b) = s) sel bs) /\
    (forall bt w, In (bt, w) bs ->
       length (batch_evals view on_finish bt) =
         length (top_level_forms env view (batch_region bt)) /\
       forall idx e, batch_evals view on_finish bt !! idx = Some e ->
         eval_id e = VStr (str_of_Z (batch_id bt) ++ u "." ++ str_of_nat idx) /\
         eval_batch_id e = VInt (batch_id bt)) /\
    NoDup (map eval_id (flat_map (fun b => batch_evals view on_finish (fst b)) bs)).
Proof.
  unfold eval, reset_warnings. run. fields.
  match goal with |- context [eval_regions _ _ _ _ _ _ ?m1] =>
    destruct (eval_regions_batched view sel transform_fn print_quota on_finish m1)
      as (bs & Htr & Hev & Hnext & Hfrom & Hlen & Hok);
    destruct (eval_regions env view sel transform_fn print_quota on_finish m1)
      as [out m'] eqn:Hrun end.
  exists bs. fields. cbv zeta.
  replace (let (o, m'0) := (out, m') in
           match o with Ret _ => (Ret tt, m'0) | Raise e => (Raise e, m'0) end)
    with (out, m') by (destruct out as [[]|]; reflexivity).
  cbn [fst snd].
  split; [exact Hev|]. split; [exact Hfrom|]. split; [exact Hlen|].
  split; [intros Hret; apply (Hok Hret)|].
  split; [|eapply batches_ids_distinct; exact Hfrom].
  intros bt w Hin.
  apply list_elem_of_In, list_elem_of_lookup in Hin as [i Hi].
  destruct (Hfrom i bt w Hi) as (_ & Hforms & _).
  split; [unfold batch_evals; now rewrite length_imap, Hforms|].
  intros idx e He. apply batch_evals_lookup in He as (form & _ & ->). auto.
Qed.

End BatchFacts.

Lemma eval_assigns_batch_identifiers_witness :
  exists bs : list (Lifetime.batch * option str),
    Runtime.evals
      (snd (SocketRepl.eval Sample.env Sample.view [(0, 27)%Z] None VNone None
              (Sample.connected [] Sample.mach))) =
    Runtime.evals (Sample.connected [] Sample.mach) ++
    flat_map (fun b => Lifetime.batch_evals Sample.view None (fst b)) bs /\
    (length bs <= 1)%nat.
Proof.
  destruct (eval_assigns_batch_identifiers Sample.env Sample.view [(0, 27)%Z] None VNone None
              (Sample.connected [] Sample.mach)) as (bs & Hev & _ & Hlen & _).
  exists bs. split; [exact Hev|exact Hlen].
Defined.

Example eval_three_forms :
  map Runtime.eval_id
    (drop 3 (Runtime.evals
      (snd (SocketRepl.eval Sample.env Sample.view [(0, 27)%Z] None VNone None
              (Sample.connected [] Sample.mach))))) =
  [VStr (u "13.0"); VStr (u "13.1"); VStr (u "13.2")].
Proof. vm_compute. reflexivity. Qed.

(** ** Installing before sending *)

Section SubmitFacts.

Import Lifetime.

Variable env : collaborators.

Lemma no_late_install_sound t : no_late_install t -> installs_before_send t.
Proof.
  intros Hok pre; revert t Hok; induction pre as [|x pre IH];
    intros t Hok wire post e -> Hin Hid.
  - cbn [app no_late_install] in Hok. destruct Hok as [Hlate _].
    destruct Hin as [Hin|Hin]; [discriminate|]. exfalso. exact (Hlate e Hin Hid).
  - destruct Hin as [->|Hin]; [now left|]. right.
    apply (IH (pre ++ ESend wire :: post)) with (wire := wire) (post := post); auto.
    destruct x; cbn [app no_late_install] in Hok; try exact Hok. apply Hok.
Qed.

Lemma no_late_install_new_evals evs t :
  no_late_install t -> no_late_install (map ENewEval evs ++ t).
Proof. intros H. induction evs; simpl; auto. Qed.

Lemma batch_evals_request view on_finish bt e :
  In e (batch_evals view on_finish bt) -> request_of e = VInt (batch_id bt).
Proof.
  intros He. apply list_elem_of_In, list_elem_of_lookup in He as [idx He].
  apply batch_evals_lookup in He as (form & _ & ->). reflexivity.
Qed.

Lemma In_new_eval_block view on_finish b e :
  In (ENewEval e) (block view on_finish b) -> In e (batch_evals view on_finish (fst b)).
Proof.
  unfold block. intros H. apply in_app_or in H as [H|H].
  - apply in_map_iff in H as (e' & [= ->] & H). exact H.
  - destruct (snd b); [destruct H as [H|[]]; discriminate|destruct H].
Qed.

Lemma blocks_requests view on_finish first bs e :
  batches_from env view first bs ->
  In (ENewEval e) (flat_map (block view on_finish) bs) ->
  exists b, request_of e = VInt b /\ (first <= b)%Z.
Proof.
  revert first; induction bs as [|[bt w] bs IH]; intros first Hfrom Hin; [destruct Hin|].
  apply batches_from_inv in Hfrom as [Hid Hrest].
  cbn [flat_map] in Hin. apply in_app_or in Hin as [Hin|Hin].
  - apply In_new_eval_block, batch_evals_request in Hin. cbn [fst] in Hin.
    exists first. rewrite Hin, Hid. split; [reflexivity|lia].
  - destruct (IH _ Hrest Hin) as (b & Hb & Hle). exists b. split; [exact Hb|lia].
Qed.

Lemma blocks_no_late_install view on_finish first bs :
  batches_from env view first bs ->
  no_late_install (flat_map (block view on_finish) bs).
Proof.
  revert first; induction bs as [|[bt w] bs IH]; intros first Hfrom; [exact I|].
  pose proof (Hfrom 0%nat bt w eq_refl) as (_ & _ & Hwire & _).
  apply batches_from_inv in Hfrom as [Hid Hrest].
  cbn [flat_map]. unfold block at 1. cbn [fst snd]. rewrite <- app_assoc.
  apply no_late_install_new_evals.
  destruct w as [wire|]; cbn [app no_late_install]; [|eapply IH; exact Hrest].
  split; [|eapply IH; exact Hrest].
  intros e Hin Heq.
  destruct (blocks_requests view on_finish _ bs e Hrest Hin) as (b & Hb & Hle).
  rewrite (Hwire wire eq_refl), Hb in Heq. cbn [format] in Heq.
  injection Heq as Heq. apply str_of_Z_injective in Heq. lia.
Qed.

Lemma blocks_sends view on_finish first bs wire :
  batches_from env view first bs ->
  In (ESend wire) (flat_map (block view on_finish) bs) ->
  exists z, wire_id wire = Some (str_of_Z z).
Proof.
  revert first; induction bs as [|[bt w] bs IH]; intros first Hfrom Hin; [destruct Hin|].
  pose proof (Hfrom 0%nat bt w eq_refl) as (_ & _ & Hwire & _).
  apply batches_from_inv in Hfrom as [Hid Hrest].
  cbn [flat_map] in Hin. apply in_app_or in Hin as [Hin|Hin]; [|eapply IH; eauto].
  unfold block in Hin. cbn [fst snd] in Hin. apply in_app_or in Hin as [Hin|Hin].
  - apply in_map_iff in Hin as (e' & Hd & _). discriminate.
  - destruct w as [w|]; [|destruct Hin]. destruct Hin as [[= ->]|[]]. eauto.
Qed.

Lemma eval_well_ordered view sel transform_fn print_quota on_finish m :
  exists new,
    trace (snd (eval env view sel transform_fn print_quota on_finish m)) = trace m ++ new /\
    well_ordered new.
Proof.
  unfold eval, reset_warnings. run. fields.
  match goal with |- context [eval_regions _ _ _ _ _ _ ?m1] =>
    destruct (eval_regions_batched env view sel transform_fn print_quota on_finish m1)
      as (bs & Htr & _ & _ & Hfrom & _);
    destruct (eval_regions env view sel transform_fn print_quota on_finish m1)
      as [out m'] eqn:Hrun end.
  fields.
  exists (EResetWarnings (window (this m)) :: flat_map (block view on_finish) bs).
  split.
  { replace (let (o, m'0) := (out, m') in
             match o with Ret _ => (Ret tt, m'0) | Raise e => (Raise e, m'0) end)
      with (out, m') by (destruct out as [[]|]; reflexivity).
    cbn [snd]. rewrite Htr, <- app_assoc. reflexivity. }
  split.
  - cbn [no_late_install]. eapply blocks_no_late_install; exact Hfrom.
  - intros wire [Hin|Hin]; [discriminate|]. eapply blocks_sends; eauto.
Qed.

Lemma no_sends_well_ordered pre :
  (forall wire, ~ In (ESend wire) pre) -> well_ordered pre.
Proof.
  intros Hpre. split; [|intros wire Hin; destruct (Hpre wire Hin)].
  induction pre as [|x pre IH]; [exact I|].
  assert (Hrest : forall wire, ~ In (ESend wire) pre)
    by (intros wire Hin; apply (Hpre wire); now right).
  destruct x; cbn [no_late_install]; auto.
  exfalso. apply (Hpre wire). now left.
Qed.

Lemma send_well_ordered text z m1 base pre :
  wire_id text = Some (str_of_Z z) ->
  (forall wire, ~ In (ESend wire) pre) ->
  trace m1 = base ++ pre ->
  exists new, trace (snd (send text m1)) = base ++ new /\ well_ordered new.
Proof.
  intros Hid Hpre Htr.
  destruct (send_cases text m1) as [[e ->]| ->].
  - exists pre. split; [exact Htr|now apply no_sends_well_ordered].
  - exists (pre ++ [ESend text]). fields. rewrite Htr. split; [now rewrite app_assoc|].
    split.
    + clear Htr Hid. induction pre as [|x pre IH].
      * cbn. split; [intros e []|exact I].
      * assert (Hrest : forall wire, ~ In (ESend wire) pre)
          by (intros wire Hin; apply (Hpre wire); now right).
        destruct x; cbn [app no_late_install]; auto.
        exfalso. apply (Hpre wire). now left.
    + intros wire Hin. apply in_app_or in Hin as [Hin|Hin]; [destruct (Hpre wire Hin)|].
      destruct Hin as [[= <-]|[]]. eauto.
Qed.

Lemma eval_status_well_ordered code ns m :
  exists new, trace (snd (eval_status code ns m)) = trace m ++ new /\ well_ordered new.
Proof.
  unfold eval_status, reset_warnings, next_id. run. fields.
  rewrite new_eval_given by (apply (truthy_dotted _ (u "0"))).
  unfold socket_eval_impl.
  match goal with |- context [send ?text ?m1] =>
    destruct (send_well_ordered text (next_eval_id m) m1 (trace m)
      [EResetWarnings (window (this m));
       ENewEval {| eval_id := VStr (str_of_Z (next_eval_id m) ++ u ".0");
                   eval_batch_id := VInt (next_eval_id m);
                   eval_window := active_window m; eval_region := None;
                   eval_on_finish := None |}]) as (new & Htr & Hok);
    [now apply wire_id_eval_msg
    |intros wire [H|[H|[]]]; discriminate
    |fields; now rewrite <- app_assoc
    |destruct (send text m1) as [[[]|e] m'] eqn:Hsend] end;
    exists new; (split; [exact Htr|exact Hok]).
Qed.

Lemma lookup_well_ordered view r m :
  exists new, trace (snd (lookup env view r m)) = trace m ++ new /\ well_ordered new.
Proof.
  unfold lookup, Conn.lookup, new_eval, next_id. run. cbn [truthy lookup_impl socket_hooks].
  fields. unfold socket_lookup_impl.
  match goal with |- context [send ?text ?m1] =>
    destruct (send_well_ordered text (next_eval_id m) m1 (trace m)
      [ENewEval {| eval_id := VInt (next_eval_id m); eval_batch_id := VNone;
                   eval_window := view_window view; eval_region := Some r;
                   eval_on_finish := None |}]) as (new & Htr & Hok);
    [apply wire_id_lookup_msg
    |intros wire [H|[]]; discriminate
    |reflexivity
    |destruct (send text m1) as [[[]|e] m'] eqn:Hsend] end;
    exists new; (split; [exact Htr|exact Hok]).
Qed.

(** C7.  On each of the four ways of submitting a request ([eval],
    [eval_status], [lookup], [load_file]) the events of the call are such
    that whenever a request is written to the socket, every Eval that the
    call installs for that request (the Evals whose batch identifier, or
    else own identifier, is the identifier written in the request) is
    already installed in the registry; the identifier of every request
    written can be read back from the wire text. *)
Theorem submit_installs_before_send (s : submission) (m : machine) :
  exists new,
    trace (snd (submit env s m)) = trace m ++ new /\
    installs_before_send new /\
    forall wire, In (ESend wire) new -> exists z, wire_id wire = Some (str_of_Z z).
Proof.
  assert (H : exists new, trace (snd (submit env s m)) = trace m ++ new /\ well_ordered new).
  { destruct s; cbn [submit].
    - apply eval_well_ordered.
    - apply eval_status_well_ordered.
    - apply lookup_well_ordered.
    - apply eval_well_ordered. }
  destruct H as (new & Htr & Hlate & Hsends).
  exists new. split; [exact Htr|]. split; [now apply no_late_install_sound|exact Hsends].
Qed.

End SubmitFacts.

Lemma submit_installs_before_send_witness :
  exists new,
    Runtime.trace
      (snd (Lifetime.submit Sample.env (Lifetime.SLookup Sample.view (0, 3)%Z)
              (Sample.connected [] Sample.mach))) =
    Runtime.trace (Sample.connected [] Sample.mach) ++ new /\
    Lifetime.installs_before_send new.
Proof.
  destruct (submit_installs_before_send Sample.env
              (Lifetime.SLookup Sample.view (0, 3)%Z)
              (Sample.connected [] Sample.mach)) as (new & Htr & Hok & _).
  exists new. split; [exact Htr|exact Hok].
Defined.

Example eval_trace_three_forms :
  let new := Runtime.run_trace
    (SocketRepl.eval Sample.env Sample.view [(0, 27)%Z] None VNone None)
    (Sample.connected [] Sample.mach) in
  map (fun ev => match ev with
                 | Runtime.ENewEval e => Some (Runtime.eval_id e)
                 | Runtime.ESend wire => VStr <$> Codec.wire_id wire
                 | _ => None
                 end) new =
  [None; Some (VStr (u "13.0")); Some (VStr (u "13.1")); Some (VStr (u "13.2"));
   Some (VStr (u "13"))].
Proof. vm_compute. reflexivity. Qed.

(** * Further properties *)

(** ** How connecting ends *)

Section OutcomeFacts.

Import Outcome.

Variable env : collaborators.

Lemma retry_turn fuel key timeout t0 attempt m :
  retry_loop env (socket_hooks env) (S fuel) key timeout t0 attempt m =
  if (clock m - t0 <=? timeout)%Z
  then match accept env (S (attempts m)) with
       | Some s => (Ret (Some true), accepted_attempt env key s m)
       | None =>
           retry_loop env (socket_hooks env) fuel key timeout t0 (S attempt)
             (refused_attempt env m)
       end
  else (Ret (Some false), m).
Proof.
  cbn [retry_loop]. unfold time. run. fields.
  destruct (clock m - t0 <=? timeout)%Z; [|reflexivity].
  unfold sleep, try_except. run. cbn [connect_impl socket_hooks].
  unfold socket_connect_impl, set_status, set_self, socket_connect,
    cs_common_set_status, set_socket, set_reader, set_state_conn. run. fields.
  destruct (accept env (S (attempts m))) as [s|].
  - fields. f_equal.
    apply machine_ext; unfold accepted_attempt; fields; try reflexivity.
    rewrite <- !app_assoc. reflexivity.
  - f_equal.
    apply machine_ext; unfold refused_attempt; fields; try reflexivity.
    rewrite <- !app_assoc. reflexivity.
Qed.

Lemma retry_loop_ends fuel key T t0 attempt m :
  (Z.max 0 ((T - (clock m - t0)) / 250 + 1) + 1 <= Z.of_nat fuel)%Z ->
  exists connected m',
    retry_loop env (socket_hooks env) fuel key T t0 attempt m = (Ret (Some connected), m') /\
    loop_ended env key T t0 m connected m'.
Proof.
  revert attempt m; induction fuel as [|fuel IH]; intros attempt m Hfuel; [lia|].
  rewrite retry_turn.
  destruct (clock m - t0 <=? T)%Z eqn:Hle.
  - apply Z.leb_le in Hle.
    destruct (accept env (S (attempts m))) as [s|] eqn:Hacc.
    + exists true, (accepted_attempt env key s m). split; [reflexivity|].
      eexists. unfold accepted_attempt at 1. fields.
      split; [reflexivity|].
      unfold established, accepted_attempt. fields. rewrite lookup_insert_eq.
      repeat split; try reflexivity; eauto; try lia.
    + set (m1 := refused_attempt env m).
      assert (Hclock : (clock m + 250 <= clock m1)%Z)
        by (unfold m1, refused_attempt; fields; lia).
      destruct (fuel_step T (clock m - t0) (clock m1 - t0) fuel Hle ltac:(lia) Hfuel)
        as (Hfuel1 & _ & _).
      destruct (IH (S attempt) m1 Hfuel1) as (b & m' & Hrun & new & Htr & Hc & Hs & He
        & Hflag & Hwin & Href & Haddr & Hact & Hev & Hatt & Hrefused & Hend).
      exists b, m'. split; [exact Hrun|].
      exists ([ESleep (250 + oversleep env (S (attempts m)));
               ESetStatus (window (this m))
                 (Some (nth 0 phases 0 :: u " " ++ (u "Connecting to " ++ addr (this m))));
               EConnect (S (attempts m))
                 (clock m + Z.of_N (250 + oversleep env (S (attempts m))))%Z] ++ new).
      split; [rewrite Htr; unfold m1, refused_attempt; fields; now rewrite <- app_assoc|].
      split; [rewrite closes_app, Hc; reflexivity|].
      split; [rewrite clears_app, Hs; reflexivity|].
      split; [unfold errors in *; rewrite List.filter_app, length_app, He; reflexivity|].
      unfold m1, refused_attempt in Hflag, Hwin, Href, Haddr, Hact, Hev, Hatt, Hrefused. fields.
      repeat (split; [assumption || lia|]).
      split.
      { intros k H1 H2. destruct (decide (k = S (attempts m))) as [->|Hne]; [exact Hacc|].
        apply Hrefused; lia. }
      destruct b; [exact Hend|].
      unfold m1, refused_attempt in Hend. fields. exact Hend.
  - apply Z.leb_gt in Hle. exists false, m. split; [reflexivity|].
    exists []. rewrite app_nil_r.
    repeat split; try reflexivity; try lia.
Qed.

Lemma errors_app t t' : errors (t ++ t') = (errors t + errors t')%nat.
Proof. unfold errors. now rewrite List.filter_app, length_app. Qed.

Lemma disconnect_sets_flag m :
  exists new,
    fst (disconnect env m) = Ret tt /\
    trace (snd (disconnect env m)) = trace m ++ new /\
    errors new = 0%nat /\
    disconnecting (this (snd (disconnect env m))) = true /\
    attempts (snd (disconnect env m)) = attempts m /\
    clock (snd (disconnect env m)) = clock m /\
    active_window (snd (disconnect env m)) = active_window m.
Proof.
  destruct (disconnecting (this m)) eqn:Hflag.
  - rewrite (disconnect_again env m Hflag). exists []. cbn [fst snd].
    rewrite app_nil_r. repeat split; auto.
  - rewrite (disconnect_first env m Hflag). eexists. unfold torn_down. fields.
    split; [reflexivity|]. split; [reflexivity|].
    split; [|repeat split; auto]. destruct (socket (this m)); reflexivity.
Qed.

(** X1.  Whatever the remote end does, [try_connect_impl] returns once it
    is given [T / 250 + 2] turns of the loop (one turn for a negative
    timeout), and it ends in one of two ways.  Either an attempt was
    accepted, all the attempts before it having been refused: then the
    connection holds the socket of that attempt, its reader thread is
    started, the state of its own window refers to it, no failure was
    reported, nothing was torn down, and it is not ready yet.  Or every
    attempt was refused: then the timeout has passed, the failure was
    reported once and the flag is set. *)
Theorem try_connect_impl_ends (T : Z) (m : machine) (fuel : nat) :
  (Z.max 0 (T / 250 + 1) + 1 <= Z.of_nat fuel)%Z ->
  exists m',
    try_connect_impl env fuel T m = (Ret (Some tt), m') /\
    let new := run_trace (try_connect_impl env fuel T) m in
    (attempts m <= attempts m')%nat /\
    ((established (Some (window (this m))) m' /\
      accept env (attempts m') = socket (this m') /\
      (forall k, (attempts m < k < attempts m')%nat -> accept env k = None) /\
      errors new = 0%nat /\ clears new = 0%nat /\ closes new = 0%nat /\
      disconnecting (this m') = disconnecting (this m) /\
      ready (this m') = false)
     \/
     ((forall k, (attempts m < k <= attempts m')%nat -> accept env k = None) /\
      errors new = 1%nat /\
      disconnecting (this m') = true /\
      (T < clock m' - clock m)%Z)).
Proof.
  intros Hfuel.
  destruct (retry_loop_ends fuel (Some (window (this m))) T (clock m) 1 m)
    as (b & m1 & Hrun & new & Htr & Hc & Hs & He & Hflag & Hwin & Href & Haddr & Hact
        & Hev & Hatt & Hrefused & Hend).
  { replace (clock m - clock m)%Z with 0%Z by lia. now rewrite Z.sub_0_r. }
  destruct b.
  - exists m1. split.
    { unfold try_connect_impl, Conn.try_connect_impl, get_state, time. run. fields.
      rewrite Hrun. reflexivity. }
    cbv zeta.
    assert (Hnew : run_trace (try_connect_impl env fuel T) m = new).
    { apply run_trace_appended.
      unfold try_connect_impl, Conn.try_connect_impl, get_state, time. run. fields.
      rewrite Hrun. exact Htr. }
    rewrite Hnew. split; [exact Hatt|]. left.
    destruct Hend as (Hest & Hacc & Hready).
    repeat split; try assumption; try apply Hest.
    intros k Hk. apply Hrefused; lia.
  - set (reported := with_trace
           (fun t => t ++ [EError (u "Giving up after {} sec connecting to {}")
                                  [VInt (clock m1 - clock m); VStr (addr (this m))]]) m1).
    destruct (disconnect_sets_flag reported)
      as (tail & Hret & Htail & Herr & Hset & Hatt' & Hclock' & Hact').
    destruct (disconnect env reported) as [out m2] eqn:Hdisc.
    cbn [fst snd] in Hret, Htail, Hset, Hatt', Hclock', Hact'. subst out.
    assert (Hfinal : exists m' last,
              try_connect_impl env fuel T m = (Ret (Some tt), m') /\
              trace m' = trace m2 ++ last /\ errors last = 0%nat /\
              disconnecting (this m') = true /\ attempts m' = attempts m2 /\
              clock m' = clock m2).
    { unfold try_connect_impl, Conn.try_connect_impl, get_state, time. run. fields.
      rewrite Hrun. fields.
      change (Conn.disconnect (socket_hooks env)) with (disconnect env).
      fold reported. rewrite Hdisc.
      unfold status_message_if_window. run.
      destruct (active_window m2).
      - eexists _, [_]. fields. repeat split; auto.
      - exists m2, []. rewrite app_nil_r. repeat split; auto. }
    destruct Hfinal as (m' & last & Hrun' & Hlast & Herr' & Hset' & Hatt'' & Hclock'').
    exists m'. split; [exact Hrun'|]. cbv zeta.
    assert (Hnew : run_trace (try_connect_impl env fuel T) m =
                   new ++ [EError (u "Giving up after {} sec connecting to {}")
                                  [VInt (clock m1 - clock m); VStr (addr (this m))]]
                       ++ tail ++ last).
    { apply run_trace_appended. rewrite Hrun'. cbn [snd].
      rewrite Hlast, Htail. unfold reported. fields. rewrite Htr.
      now rewrite <- !app_assoc. }
    rewrite Hnew, Hatt'', Hatt', Hclock'', Hclock'. unfold reported. fields.
    destruct Hend as (Hpast & _ & _).
    split; [exact Hatt|]. right.
    split; [intros k Hk; apply Hrefused; lia|].
    split; [rewrite !errors_app, He, Herr, Herr'; reflexivity|].
    split; [exact Hset'|exact Hpast].
Qed.

Ltac unfold_connect :=
  unfold connect, Conn.connect, get_state, try_except; run; fields;
  cbn [connect_impl socket_hooks];
  unfold socket_connect_impl, set_status, set_self, socket_connect,
    cs_common_set_status, set_socket, set_reader, set_state_conn; run; fields.

Lemma connect_accepted m s :
  accept env (S (attempts m)) = Some s ->
  exists m' new,
    connect env m = (Ret tt, m') /\
    trace m' = trace m ++ new /\
    errors new = 0%nat /\ clears new = 0%nat /\ closes new = 0%nat /\
    attempts m' = S (attempts m) /\
    socket (this m') = Some s /\
    established (active_window m) m' /\
    disconnecting (this m') = disconnecting (this m) /\
    ready (this m') = false.
Proof.
  intros Hacc. eexists. eexists.
  split; [unfold_connect; rewrite Hacc; fields; reflexivity|].
  unfold established. fields. rewrite lookup_insert_eq.
  split; [rewrite <- !app_assoc; reflexivity|].
  repeat split; eauto.
Qed.

Lemma connect_refused m :
  accept env (S (attempts m)) = None ->
  exists m' new,
    connect env m = (Ret tt, m') /\
    trace m' = trace m ++ new /\
    errors new = 1%nat /\
    attempts m' = S (attempts m) /\
    disconnecting (this m') = true.
Proof.
  intros Hacc.
  set (failed := with_trace (fun t => t ++ [EError (u "Connection failed") []])
        (with_clock (fun t => (t + Z.of_N (connect_ms env (S (attempts m))))%Z)
        (with_trace (fun t => t ++ [EConnect (S (attempts m)) (clock m)])
        (with_attempts S
        (with_trace (fun t => t ++
           [ESetStatus (window (this m))
              (Some (nth 0 phases 0 :: u " " ++ (u "Connecting to " ++ addr (this m))))])
        (with_status_bar (fun bar =>
           <[window (this m) := nth 0 phases 0 :: u " " ++ (u "Connecting to " ++ addr (this m))]> bar)
        (with_this (fun c =>
           {| conn_ref := conn_ref c;
              status := Some (nth 0 phases 0 :: u " " ++ (u "Connecting to " ++ addr (this m)));
              disconnecting := disconnecting c; window := window c; addr := addr c;
              socket := socket c; reader := reader c; closing := closing c |}) m))))))).
  assert (Hrun : connect env m =
                 (_ ← disconnect env; status_message_if_window (u "Connection failed")) failed).
  { unfold_connect. rewrite Hacc. reflexivity. }
  destruct (disconnect_sets_flag failed)
    as (tail & Hret & Htail & Herr & Hset & Hatt' & Hclock' & Hact').
  destruct (disconnect env failed) as [out m2] eqn:Hdisc.
  cbn [fst snd] in Hret, Htail, Hset, Hatt', Hclock', Hact'. subst out.
  rewrite Hrun. run. rewrite Hdisc. unfold status_message_if_window. run.
  destruct (active_window m2).
  - eexists. exists ([ESetStatus (window (this m))
              (Some (nth 0 phases 0 :: u " " ++ (u "Connecting to " ++ addr (this m))));
             EConnect (S (attempts m)) (clock m);
             EError (u "Connection failed") []] ++ tail ++ [EStatusMessage w (u "Connection failed")]).
    split; [reflexivity|]. fields. rewrite Htail, Hatt'. unfold failed. fields.
    split; [rewrite <- !app_assoc; reflexivity|].
    split; [rewrite !errors_app, Herr; reflexivity|]. auto.
  - exists m2. exists ([ESetStatus (window (this m))
              (Some (nth 0 phases 0 :: u " " ++ (u "Connecting to " ++ addr (this m))));
             EConnect (S (attempts m)) (clock m);
             EError (u "Connection failed") []] ++ tail).
    split; [reflexivity|]. rewrite Htail, Hatt'. unfold failed. fields.
    split; [rewrite <- !app_assoc; reflexivity|].
    split; [rewrite !errors_app, Herr; reflexivity|]. auto.
Qed.

(** X2.  [connect()] never raises.  When the attempt is accepted the
    connection holds its socket, the reader thread is started and the state
    of the current window refers to the connection, with no failure
    reported and nothing torn down.  When the attempt is refused the
    failure is reported once and the flag is set. *)
Theorem connect_ends (m : machine) :
  exists m',
    connect env m = (Ret tt, m') /\
    let new := run_trace (connect env) m in
    attempts m' = S (attempts m) /\
    match accept env (S (attempts m)) with
    | Some s =>
        socket (this m') = Some s /\
        established (active_window m) m' /\
        errors new = 0%nat /\ clears new = 0%nat /\ closes new = 0%nat /\
        disconnecting (this m') = disconnecting (this m) /\
        ready (this m') = false
    | None =>
        errors new = 1%nat /\
        disconnecting (this m') = true
    end.
Proof.
  destruct (accept env (S (attempts m))) as [s|] eqn:Hacc.
  - destruct (connect_accepted m s Hacc)
      as (m' & new & Hrun & Htr & He & Hs & Hc & Hatt & Hsock & Hest & Hflag & Hready).
    exists m'. split; [exact Hrun|]. cbv zeta.
    rewrite (run_trace_appended (connect env) m new) by (now rewrite Hrun).
    repeat split; try assumption; apply Hest.
  - destruct (connect_refused m Hacc) as (m' & new & Hrun & Htr & He & Hatt & Hflag).
    exists m'. split; [exact Hrun|]. cbv zeta.
    rewrite (run_trace_appended (connect env) m new) by (now rewrite Hrun).
    auto.
Qed.

End OutcomeFacts.

(** ** The read loop: handshake and ending *)

Section HandshakeFacts.

Import Outcome.

Variable env : collaborators.

(** X3.  [read_loop] lets no [OSError] out, and it returns only after
    [disconnect()]: when it returns the flag is set.  An exception that
    leaves it is not an [OSError]. *)
Theorem read_loop_outcome (m : machine) :
  match fst (read_loop env m) with
  | Ret _ => disconnecting (this (snd (read_loop env m))) = true
  | Raise e => is_OSError e = false
  end.
Proof.
  unfold read_loop, try_except. run.
  destruct (read_loop_body env m) as [[[]|e] m1].
  - destruct (disconnect_sets_flag env m1) as (new & Hret & _ & _ & Hset & _).
    destruct (disconnect env m1) as [out m2]. cbn [fst snd] in *. subst out. exact Hset.
  - destruct (is_OSError e) eqn:He.
    + destruct (disconnect_sets_flag env m1) as (new & Hret & _ & _ & Hset & _).
      destruct (disconnect env m1) as [out m2]. cbn [fst snd] in *. subst out. exact Hset.
    + cbn [fst]. exact He.
Qed.



Lemma ready_phase phase message m :
  (phase < 5)%nat ->
  ready (this (snd (set_status phase message m))) = bool_decide (phase = 4%nat).
Proof.
  intros Hphase. unfold set_status, set_self, cs_common_set_status. run. fields.
  unfold ready. fields.
  destruct phase as [|[|[|[|[|phase]]]]]; try reflexivity. lia.
Qed.


(** X5.  [ready()] holds after [set_status(phase, ...)] exactly when the
    phase is 4: the phases 0 of a connection attempt and 1 of the upgrade
    leave the connection not ready. *)
Theorem ready_iff_phase_4 (phase : nat) (message : str) (m : machine) :
  (phase < 5)%nat ->
  (ready (this (snd (set_status phase message m))) = true <-> phase = 4%nat) /\
  status (this (snd (set_status phase message m))) =
    Some (nth phase phases 0 :: u " " ++ message) /\
  status_bar (snd (set_status phase message m)) !!
    window (this m) = status (this (snd (set_status phase message m))).
Proof.
  intros Hphase. rewrite (ready_phase phase message m Hphase).
  split; [apply bool_decide_eq_true|].
  unfold set_status, set_self, cs_common_set_status. run. fields.
  split; [reflexivity|apply lookup_insert_eq].
Qed.

(** X6.  A message that lacks a key that a handler reads ends
    [handle_msg] with a [KeyError] and without any callback: a message
    without a tag raises at the first handler; a lookup or err message
    without a val raises at its own handler; an err message whose val is
    not a string raises an [AttributeError]. *)
Theorem handle_msg_missing_key (m : msg) (mach : machine) :
  (m !! u "tag" = None ->
     handle_msg env m mach = (Raise (KeyError (u "tag")), mach)) /\
  (m !! u "tag" = Some (VStr (u "lookup")) -> m !! u "val" = None ->
     handle_msg env m mach = (Raise (KeyError (u "val")), mach)) /\
  (m !! u "tag" = Some (VStr (u "err")) -> m !! u "val" = None ->
     handle_msg env m mach = (Raise (KeyError (u "val")), mach)) /\
  (forall v, m !! u "tag" = Some (VStr (u "err")) -> m !! u "val" = Some v ->
     (forall text, v <> VStr text) ->
     handle_msg env m mach = (Raise AttributeError, mach)).
Proof.
  unfold handle_msg, or_else, handle_value, handle_exception, handle_done, handle_watch,
    handle_lookup, handle_err, item. run.
  repeat split.
  - intros ->. reflexivity.
  - intros -> ->. reflexivity.
  - intros -> ->. reflexivity.
  - intros v -> -> Hv. destruct v as [| |text]; try reflexivity.
    destruct (Hv text eq_refl).
Qed.

End HandshakeFacts.

(** ** More on the line framer *)

Section StreamFacts.

Import Stream.

Lemma drain_step buffer :
  drain buffer =
  match split_newline buffer with
  | None => ([], inr buffer)
  | Some (line, rest) =>
      match decode line with
      | None => ([], inl UnicodeDecodeError)
      | Some text => (text :: fst (drain rest), snd (drain rest))
      end
  end.
Proof.
  rewrite drain_equation_1. unfold inspect.
  generalize (@eq_refl _ (split_newline buffer)).
  generalize (split_newline buffer) at 2 4 5.
  intros [[line rest]|] Hs; simpl; [|reflexivity].
  destruct (decode line); reflexivity.
Qed.

Lemma frame_terminated_split cur bs line rest more :
  split_newline bs = Some (line, rest) ->
  frame_terminated cur (bs ++ more) = (cur ++ line) :: frame_terminated [] (rest ++ more).
Proof.
  revert cur line; induction bs as [|b bs IH]; intros cur line; simpl; [discriminate|].
  destruct (Byte.eqb b x0a).
  - intros [= <- <-]. now rewrite app_nil_r.
  - destruct (split_newline bs) as [[l t]|]; [|discriminate].
    intros [= <- <-]. rewrite (IH (cur ++ [b]) l eq_refl).
    now rewrite <- app_assoc.
Qed.

Lemma frame_terminated_no_newline cur bs :
  split_newline bs = None -> frame_terminated cur bs = [].
Proof.
  revert cur; induction bs as [|b bs IH]; intros cur; simpl; [reflexivity|].
  destruct (Byte.eqb b x0a); [discriminate|].
  destruct (split_newline bs) as [[l t]|]; [discriminate|]. intros _. now apply IH.
Qed.

Lemma drain_frame_terminated buffer more :
  decode_lines (frame_terminated [] (buffer ++ more)) =
  match drain buffer with
  | (ls, inl e) => (ls, GenRaise e)
  | (ls, inr rest) => then_lines ls (decode_lines (frame_terminated [] (rest ++ more)))
  end.
Proof.
  remember (length buffer) as n eqn:Hn.
  revert buffer Hn; induction (lt_wf n) as [n _ IH]; intros buffer ->.
  rewrite drain_step.
  destruct (split_newline buffer) as [[line tail]|] eqn:Hs.
  - rewrite (frame_terminated_split [] _ _ _ more Hs). simpl.
    destruct (decode line) as [text|]; [|reflexivity].
    rewrite (IH (length tail) (split_newline_shorter _ _ _ Hs) tail eq_refl).
    destruct (drain tail) as [ls [e|rest]]; reflexivity.
  - unfold then_lines. now destruct (decode_lines (frame_terminated [] (buffer ++ more))).
Qed.

Lemma ending_with_then_lines e ls r :
  ending_with e (then_lines ls r) = then_lines ls (ending_with e r).
Proof. reflexivity. Qed.

Lemma lines_loop_failing buffer chunks :
  Forall (fun chunk => chunk <> []) chunks ->
  split_newline buffer = None ->
  lines_loop true buffer chunks =
  ending_with OSError (decode_lines (frame_terminated [] (buffer ++ concat chunks))).
Proof.
  intros Hne; revert buffer; induction Hne as [|more rest Hmore _ IH]; intros buffer Hbuf.
  - simpl. rewrite app_nil_r, (frame_terminated_no_newline [] buffer Hbuf). reflexivity.
  - destruct more as [|b more]; [contradiction|].
    cbn [lines_loop concat]. rewrite app_assoc, drain_frame_terminated.
    destruct (drain (buffer ++ b :: more)) as [ls [e|tail]] eqn:Hd; [reflexivity|].
    rewrite (IH tail (drain_rest_no_newline _ _ _ Hd)).
    now rewrite ending_with_then_lines.
Qed.

(** X7.  When the stream fails ([recv] raises [OSError]) instead of being
    closed, [lines] yields the lines that were ended by a newline byte
    and then lets the [OSError] out: the bytes received after the last
    newline are never yielded. *)
Theorem lines_of_failing_stream (chunks : list bytes) :
  Forall (fun chunk => chunk <> []) chunks ->
  lines (failing_stream chunks) =
  ending_with OSError (decode_lines (frame_terminated [] (concat chunks))).
Proof.
  intros Hne. unfold lines, failing_stream. simpl.
  now rewrite lines_loop_failing.
Qed.

Lemma lines_of_failing_stream_witness :
  lines (failing_stream [[x61; x0a; x62]; [x63]]) = ([u "a"], GenRaise OSError).
Proof.
  rewrite (lines_of_failing_stream [[x61; x0a; x62]; [x63]]).
  - reflexivity.
  - repeat constructor; discriminate.
Defined.

End StreamFacts.

(** ** Sending and receiving text: UTF-8 and the framer *)

Section Utf8Facts.

Import Stream.

Lemma to_N_byte_of n : n < 256 -> Byte.to_N (byte_of n) = n.
Proof.
  intros Hn. unfold byte_of. destruct (Byte.of_N n) as [b|] eqn:Hb.
  - now apply Byte.to_of_N.
  - apply Byte.of_N_None_iff in Hb. lia.
Qed.

Ltac div_lia := zify; Z.to_euclidean_division_equations; lia.

Ltac decide_tests :=
  unfold in_range;
  repeat match goal with
  | |- context [?a =? ?b] => destruct (N.eqb_spec a b); try lia
  end;
  repeat match goal with
  | |- context [?a <? ?b] => destruct (N.ltb_spec a b); try lia
  | |- context [?a <=? ?b] => destruct (N.leb_spec a b); try lia
  end.

Lemma decode_cons b0 r0 :
  decode (b0 :: r0) =
    let n0 := Byte.to_N b0 in
    if n0 <? 128 then cons n0 <$> decode r0
    else if in_range 194 223 b0 then
      match r0 with
      | b1 :: r1 =>
          if in_range 128 191 b1
          then cons ((n0 - 192) * 64 + low6 b1) <$> decode r1
          else None
      | _ => None
      end
    else if in_range 224 239 b0 then
      match r0 with
      | b1 :: b2 :: r2 =>
          let lo := if n0 =? 224 then 160 else 128 in
          let hi := if n0 =? 237 then 159 else 191 in
          if in_range lo hi b1 && in_range 128 191 b2
          then cons ((n0 - 224) * 4096 + low6 b1 * 64 + low6 b2) <$> decode r2
          else None
      | _ => None
      end
    else if in_range 240 244 b0 then
      match r0 with
      | b1 :: b2 :: b3 :: r3 =>
          let lo := if n0 =? 240 then 144 else 128 in
          let hi := if n0 =? 244 then 143 else 191 in
          if in_range lo hi b1 && in_range 128 191 b2 && in_range 128 191 b3
          then cons ((n0 - 240) * 262144 + low6 b1 * 4096 + low6 b2 * 64 + low6 b3)
                 <$> decode r3
          else None
      | _ => None
      end
    else None.
Proof. reflexivity. Qed.

Ltac decode_head := rewrite decode_cons; cbv beta iota zeta; now decide_tests.

Lemma decode_1 b r :
  Byte.to_N b < 128 -> decode (b :: r) = cons (Byte.to_N b) <$> decode r.
Proof. intros. decode_head. Qed.

Lemma decode_2 b0 b1 r :
  194 <= Byte.to_N b0 <= 223 -> 128 <= Byte.to_N b1 <= 191 ->
  decode (b0 :: b1 :: r) = cons ((Byte.to_N b0 - 192) * 64 + low6 b1) <$> decode r.
Proof. intros. decode_head. Qed.

Lemma decode_3 b0 b1 b2 r :
  224 <= Byte.to_N b0 <= 239 ->
  128 <= Byte.to_N b1 <= 191 -> 128 <= Byte.to_N b2 <= 191 ->
  (Byte.to_N b0 = 224 -> 160 <= Byte.to_N b1) ->
  (Byte.to_N b0 = 237 -> Byte.to_N b1 <= 159) ->
  decode (b0 :: b1 :: b2 :: r)
  = cons ((Byte.to_N b0 - 224) * 4096 + low6 b1 * 64 + low6 b2) <$> decode r.
Proof. intros. decode_head. Qed.

Lemma decode_4 b0 b1 b2 b3 r :
  240 <= Byte.to_N b0 <= 244 ->
  128 <= Byte.to_N b1 <= 191 -> 128 <= Byte.to_N b2 <= 191 ->
  128 <= Byte.to_N b3 <= 191 ->
  (Byte.to_N b0 = 240 -> 144 <= Byte.to_N b1) ->
  (Byte.to_N b0 = 244 -> Byte.to_N b1 <= 143) ->
  decode (b0 :: b1 :: b2 :: b3 :: r)
  = cons ((Byte.to_N b0 - 240) * 262144 + low6 b1 * 4096 + low6 b2 * 64 + low6 b3)
      <$> decode r.
Proof. intros. decode_head. Qed.

Ltac byte_facts := rewrite ?to_N_byte_of by div_lia; try div_lia.

Ltac encoded_char :=
  intros [= <-]; cbn [app];
  split;
  [ first [rewrite decode_1 by byte_facts | rewrite decode_2 by byte_facts
          | rewrite decode_3 by byte_facts | rewrite decode_4 by byte_facts];
    unfold low6; byte_facts; do 2 f_equal; div_lia
  | repeat constructor; byte_facts ].

Lemma decode_encode_char c enc bs :
  encode [c] = Some enc ->
  decode (enc ++ bs) = cons c <$> decode bs /\ Forall (fun b => Byte.to_N b = 10 -> c = 10) enc.
Proof.
  cbn [encode fmap option_fmap option_map].
  destruct (N.ltb_spec c 128); [encoded_char|].
  destruct (N.ltb_spec c 2048); [encoded_char|].
  destruct ((55296 <=? c) && (c <=? 57343)) eqn:Hsur; [discriminate|].
  assert (Hns : c < 55296 \/ 57343 < c).
  { apply andb_false_iff in Hsur as [H'%N.leb_gt|H'%N.leb_gt]; lia. }
  destruct (N.ltb_spec c 65536); [encoded_char|].
  destruct (N.ltb_spec c 1114112); [|discriminate].
  encoded_char.
Qed.

Lemma encode_cons c rest :
  encode (c :: rest) =
  match encode [c] with Some enc => app enc <$> encode rest | None => None end.
Proof.
  cbn [encode fmap option_fmap option_map].
  repeat match goal with
  | |- context [if ?b then _ else _] => destruct b
  end; destruct (encode rest); reflexivity.
Qed.

Lemma decode_encode t bs : encode t = Some bs -> decode bs = Some t.
Proof.
  revert bs; induction t as [|c t IH]; intros bs.
  - now intros [= <-].
  - rewrite encode_cons. destruct (encode [c]) as [enc|] eqn:Hc; [|discriminate].
    destruct (encode t) as [tail|]; [|discriminate]. intros [= <-].
    destruct (decode_encode_char c enc tail Hc) as [-> _].
    now rewrite (IH tail eq_refl).
Qed.

Lemma encode_no_newline t bs :
  encode t = Some bs -> ~ In 10 t -> split_newline bs = None.
Proof.
  revert bs; induction t as [|c t IH]; intros bs.
  - now intros [= <-].
  - rewrite encode_cons. destruct (encode [c]) as [enc|] eqn:Hc; [|discriminate].
    destruct (encode t) as [tail|]; [|discriminate]. intros [= <-] Hnl.
    destruct (decode_encode_char c enc [] Hc) as [_ Henc].
    assert (Htail : split_newline tail = None).
    { apply IH; [reflexivity|]. intros Hin. apply Hnl. now right. }
    assert (Hc10 : c <> 10) by (intros ->; apply Hnl; now left).
    clear Hc IH. induction Henc as [|b enc Hb _ IHenc]; [exact Htail|].
    cbn [app split_newline].
    destruct (Byte.eqb b x0a) eqn:Hb0.
    + apply Byte.byte_dec_bl in Hb0. subst b. now destruct Hc10; apply Hb.
    + now rewrite IHenc.
Qed.

Lemma frame_written_line l more :
  split_newline l = None -> frame [] ((l ++ [x0a]) ++ more) = l :: frame [] more.
Proof.
  intros Hl.
  assert (Hs : split_newline (l ++ [x0a]) = Some (l, [])).
  { induction l as [|b l IH]; [reflexivity|]. cbn [app split_newline] in *.
    destruct (Byte.eqb b x0a); [discriminate|].
    destruct (split_newline l) as [[? ?]|]; [discriminate|]. now rewrite IH. }
  now rewrite (frame_split [] _ _ _ more Hs).
Qed.

Lemma frame_terminated_written_line l more :
  split_newline l = None ->
  frame_terminated [] ((l ++ [x0a]) ++ more) = l :: frame_terminated [] more.
Proof.
  intros Hl.
  assert (Hs : split_newline (l ++ [x0a]) = Some (l, [])).
  { induction l as [|b l IH]; [reflexivity|]. cbn [app split_newline] in *.
    destruct (Byte.eqb b x0a); [discriminate|].
    destruct (split_newline l) as [[? ?]|]; [discriminate|]. now rewrite IH. }
  now rewrite (frame_terminated_split [] _ _ _ more Hs).
Qed.

Lemma decode_lines_written ts bss :
  Forall2 (fun t bs => encode t = Some bs) ts bss ->
  Forall (fun t => ~ In 10 t) ts ->
  decode_lines (frame [] (written bss)) = (ts, GenStop) /\
  decode_lines (frame_terminated [] (written bss)) = (ts, GenStop).
Proof.
  induction 1 as [|t bs ts bss Hbs _ IH]; intros Hnl; [now split|].
  apply Forall_cons in Hnl as [Ht Hts]. destruct (IH Hts) as [IH1 IH2].
  unfold written in *. cbn [map concat].
  rewrite frame_written_line, frame_terminated_written_line
    by eauto using encode_no_newline.
  cbn [decode_lines]. rewrite (decode_encode _ _ Hbs), IH1, IH2. now split.
Qed.

(** X8.  [lines] gives back what was sent.  When texts that hold no
    newline character are encoded as [send] encodes them and each is
    followed by a newline byte, [lines] yields exactly these texts, in
    order, however the bytes arrive in non-empty chunks; it then ends
    normally when the peer closes the stream, and with the [OSError] when
    the stream fails. *)
Theorem lines_recovers_written (ts : list str) (bss chunks : list bytes) :
  Forall2 (fun t bs => encode t = Some bs) ts bss ->
  Forall (fun t => ~ In 10 t) ts ->
  Forall (fun chunk => chunk <> []) chunks ->
  concat chunks = written bss ->
  lines (stream chunks) = (ts, GenStop) /\
  lines (failing_stream chunks) = (ts, GenRaise OSError).
Proof.
  intros Henc Hnl Hne Hcat.
  destruct (decode_lines_written ts bss Henc Hnl) as [H1 H2].
  unfold lines, stream, failing_stream; cbn [broken incoming]. split.
  - rewrite lines_loop_frame by assumption. cbn [app]. now rewrite Hcat.
  - rewrite lines_loop_failing by (assumption || reflexivity).
    cbn [app]. now rewrite Hcat, H2.
Qed.

Lemma lines_recovers_written_witness :
  lines (stream [[x68; xc3]; [xa9; x0a; x0a; xe2; x82]; [xac; x0a]])
  = ([[104; 233]; []; [8364]], GenStop) /\
  lines (failing_stream [[x68; xc3]; [xa9; x0a; x0a; xe2; x82]; [xac; x0a]])
  = ([[104; 233]; []; [8364]], GenRaise OSError).
Proof.
  apply (lines_recovers_written [[104; 233]; []; [8364]]
           [[x68; xc3; xa9]; []; [xe2; x82; xac]]).
  - repeat constructor.
  - repeat constructor; cbn; intros H; repeat destruct H as [H|H]; try discriminate H; exact H.
  - repeat constructor; discriminate.
  - reflexivity.
Defined.

End Utf8Facts.

(** ** [eval] at its edges *)

Section EvalEdgeFacts.

Import Outcome.

Variable env : collaborators.

Lemma eval_first_region view s rest transform_fn print_quota on_finish m :
  region_empty s = false ->
  let bt := {| batch_id := next_eval_id m; batch_region := s;
               batch_forms := top_level_forms env view s |} in
  exists m2 wire tf,
    trace m2 = trace m ++
      EResetWarnings (window (this m)) :: map ENewEval (batch_evals view on_finish bt) /\
    evals m2 = evals m ++ batch_evals view on_finish bt /\
    this m2 = this m /\
    next_eval_id m2 = (next_eval_id m + 1)%Z /\
    wire_id wire = Some (str_of_Z (next_eval_id m)) /\
    eval env view (s :: rest) transform_fn print_quota on_finish m =
      match send wire m2 with
      | (Ret _, m3) => eval_regions env view rest tf print_quota on_finish m3
      | (Raise e, m3) => (Raise e, m3)
      end.
Proof.
  intros Hs bt.
  unfold eval, reset_warnings. run. fields. cbn [eval_regions].
  unfold eval_region_of. rewrite Hs. run.
  set (tf := match transform_fn with Some f => Some f | None => watch_transform env view end).
  pose proof (code_forms env view s s tf) as Hforms.
  destruct (code env view s s tf) as [[c ns] forms]. cbn [snd] in Hforms.
  unfold next_id. run. fields.
  match goal with |- context [create_evals _ _ _ _ _ _ ?m1] =>
    destruct (create_evals_run view bt on_finish forms 0 m1)
      as (m2 & Hrun & Htr & Hev & Hthis & Hnext) end.
  cbn [batch_region batch_id bt] in Hrun. rewrite Hrun.
  rewrite Hforms in Htr, Hev.
  change (imap (fun i => batch_eval view on_finish bt (0 + i)) (top_level_forms env view s))
    with (batch_evals view on_finish bt) in Htr, Hev.
  destruct (rowcol_utf16 view (region_begin s)) as [line column].
  unfold socket_eval_impl.
  match goal with |- context [send ?text m2] => set (wire := text) end.
  exists m2, wire, tf. fields. 
  rewrite Htr, Hev, Hthis, Hnext. fields.
  split; [now rewrite <- app_assoc|]. split; [reflexivity|]. split; [reflexivity|].
  split; [lia|]. split; [now apply wire_id_eval_msg|].
  destruct (send wire m2) as [[[]|e] m3]; reflexivity.
Qed.

(** X9.  [eval] on a connection without a socket.  For a non-empty first
    selected region the call takes a batch identifier and installs the
    Evals of the forms of that region, then fails in [send] with
    [AttributeError]: nothing is sent, the Evals stay in the registry, and
    the regions that follow are not looked at. *)
Theorem eval_without_socket (view : View) (s : region) (rest : list region)
  (transform_fn : option transform) (print_quota : value)
  (on_finish : option callback) (m : machine) :
  socket (this m) = None ->
  region_empty s = false ->
  let bt := {| batch_id := next_eval_id m; batch_region := s;
               batch_forms := top_level_forms env view s |} in
  let r := eval env view (s :: rest) transform_fn print_quota on_finish m in
  fst r = Raise AttributeError /\
  evals (snd r) = evals m ++ batch_evals view on_finish bt /\
  next_eval_id (snd r) = (next_eval_id m + 1)%Z /\
  trace (snd r) = trace m ++
    EResetWarnings (window (this m)) :: map ENewEval (batch_evals view on_finish bt) /\
  this (snd r) = this m.
Proof.
  intros Hsock Hs bt r.
  destruct (eval_first_region view s rest transform_fn print_quota on_finish m Hs)
    as (m2 & wire & tf & Htr & Hev & Hthis & Hnext & _ & Hrun).
  subst r. rewrite Hrun. unfold send. run. rewrite Hthis, Hsock. cbn [fst snd].
  auto.
Qed.

(** X10.  [eval] on a region whose code has no form to evaluate (only
    comments and discards).  The call installs no Eval, yet it takes a
    batch identifier and, when it returns, it has sent one request,
    which carries that identifier. *)
Theorem eval_without_forms (view : View) (s : region)
  (transform_fn : option transform) (print_quota : value)
  (on_finish : option callback) (m : machine) :
  region_empty s = false ->
  top_level_forms env view s = [] ->
  let r := eval env view [s] transform_fn print_quota on_finish m in
  evals (snd r) = evals m /\
  next_eval_id (snd r) = (next_eval_id m + 1)%Z /\
  (fst r = Ret tt ->
     exists wire,
       trace (snd r) = trace m ++ [EResetWarnings (window (this m)); ESend wire] /\
       wire_id wire = Some (str_of_Z (next_eval_id m))).
Proof.
  intros Hs Hforms r.
  destruct (eval_first_region view s [] transform_fn print_quota on_finish m Hs)
    as (m2 & wire & tf & Htr & Hev & Hthis & Hnext & Hid & Hrun).
  unfold batch_evals in Htr, Hev. cbn [batch_forms] in Htr, Hev.
  rewrite Hforms in Htr, Hev. cbn [imap map] in Htr, Hev. rewrite app_nil_r in Hev.
  subst r. rewrite Hrun.
  destruct (send_cases wire m2) as [[e ->]| ->]; cbn [eval_regions]; run; fields.
  - split; [exact Hev|]. split; [exact Hnext|]. discriminate.
  - split; [exact Hev|]. split; [exact Hnext|]. intros _. exists wire.
    split; [|exact Hid]. rewrite Htr, <- app_assoc. reflexivity.
Qed.

End EvalEdgeFacts.

(** ** [escape], character by character *)

Section EscapeFacts.

Import Escaping.

Lemma escape_char_length c :
  length (escape_char c) = if special c then 2%nat else 1%nat.
Proof.
  unfold escape_char, special.
  destruct (c =? backslash); [reflexivity|]. now destruct (c =? dquote).
Qed.

Lemma escape_length s :
  length (escape s) = (length s + length (List.filter special s))%nat.
Proof.
  rewrite escape_chars. induction s as [|c s IH]; [reflexivity|].
  cbn [flat_map List.filter]. rewrite length_app, escape_char_length, IH.
  destruct (special c); cbn [length]; lia.
Qed.

(** X11.  [escape] works character by character: the escape of a
    concatenation is the concatenation of the escapes; the result is
    longer than the text by the number of its backslashes and double
    quotes; and the text comes back unchanged exactly when it holds
    neither. *)
Theorem escape_app_length (s t : str) :
  escape (s ++ t) = escape s ++ escape t /\
  length (escape s) = (length s + length (List.filter special s))%nat /\
  (escape s = s <-> Forall (fun c => special c = false) s).
Proof.
  split; [rewrite !escape_chars; apply flat_map_app|].
  split; [apply escape_length|].
  split.
  - intros Heq. pose proof (escape_length s) as Hlen. rewrite Heq in Hlen.
    assert (Hnone : List.filter special s = []) by (apply length_zero_iff_nil; lia).
    clear Heq Hlen. induction s as [|c s IH]; [constructor|].
    cbn [List.filter] in Hnone. destruct (special c) eqn:Hc; [discriminate|].
    constructor; auto.
  - intros Hall. rewrite escape_chars.
    induction Hall as [|c s Hc _ IH]; [reflexivity|].
    cbn [flat_map]. rewrite IH. unfold escape_char. unfold special in Hc.
    apply orb_false_iff in Hc as [-> ->]. reflexivity.
Qed.

End EscapeFacts.

(** ** The address input *)

Section AddressFacts.

Import AddressInput.

Variable world : surroundings.

Lemma lstrip_spaces a s : forallb is_space a = true -> lstrip (a ++ s) = lstrip s.
Proof.
  induction a as [|c a IH]; [reflexivity|]. cbn [forallb app lstrip].
  intros [Hc Ha]%andb_true_iff. now rewrite Hc, IH.
Qed.

Lemma lstrip_app s b :
  lstrip (s ++ b) = if forallb is_space s then lstrip b else lstrip s ++ b.
Proof.
  induction s as [|c s IH]; [reflexivity|]. cbn [forallb app lstrip].
  destruct (is_space c); [exact IH|reflexivity].
Qed.

Lemma rstrip_spaces s b : forallb is_space b = true -> rstrip (s ++ b) = rstrip s.
Proof.
  intros Hb. unfold rstrip. rewrite rev_app_distr, lstrip_spaces; [reflexivity|].
  rewrite forallb_forall in *. intros c Hc. apply Hb. now apply in_rev.
Qed.

Lemma strip_spaces a t b :
  forallb is_space a = true -> forallb is_space b = true ->
  strip (a ++ t ++ b) = strip t.
Proof.
  intros Ha Hb. unfold strip. rewrite lstrip_spaces by exact Ha.
  rewrite lstrip_app. destruct (forallb is_space t) eqn:Ht.
  - pose proof (lstrip_spaces b [] Hb) as Hb'. rewrite app_nil_r in Hb'.
    pose proof (lstrip_spaces t [] Ht) as Ht'. rewrite app_nil_r in Ht'.
    now rewrite Hb', Ht'.
  - now apply rstrip_spaces.
Qed.

(** X12.  [validate] and [preview] do not see the white space around
    the text: adding characters that [str.isspace] accepts before and
    after a text changes neither answer. *)
Theorem validate_ignores_spaces (a t b : str) :
  forallb is_space a = true -> forallb is_space b = true ->
  validate world (a ++ t ++ b) = validate world t /\
  preview world (a ++ t ++ b) = preview world t.
Proof.
  intros Ha Hb. unfold preview, validate. now rewrite strip_spaces.
Qed.

Lemma span_spec p s :
  s = fst (span p s) ++ snd (span p s) /\
  forallb p (fst (span p s)) = true /\
  match snd (span p s) with [] => True | c :: _ => p c = false end.
Proof.
  induction s as [|c s IH]; [now repeat split|]. cbn [span].
  destruct (p c) eqn:Hc.
  - destruct (span p s) as [taken remaining]. cbn [fst snd] in *.
    destruct IH as (Hs & Hall & Hnext). cbn [forallb app]. rewrite Hc, Hall.
    repeat split; auto. now f_equal.
  - cbn [fst snd forallb app]. auto.
Qed.

Lemma span_prefix p host c rest :
  forallb p host = true -> p c = false -> span p (host ++ c :: rest) = (host, c :: rest).
Proof.
  intros Hall Hc. induction host as [|x host IH].
  - cbn [app span]. now rewrite Hc.
  - cbn [forallb] in Hall. apply andb_true_iff in Hall as [Hx Hall].
    cbn [app span]. now rewrite Hx, (IH Hall).
Qed.

Lemma match_address_shape text host port :
  match_address world text = Some (host, port) <-> address_shape world text host port.
Proof.
  unfold match_address, address_shape. split.
  - destruct (span_spec host_char text) as (Hs & Hall & _).
    destruct (span host_char text) as [[|h taken] [|c remaining]]; try discriminate.
    cbn [fst snd] in *.
    match goal with |- (if ?test then _ else _) = _ -> _ =>
      destruct test eqn:Htest; [|discriminate] end.
    intros [= <- <-].
    apply andb_true_iff in Htest as [Htest Hdec].
    apply andb_true_iff in Htest as [Htest Hle].
    apply andb_true_iff in Htest as [Hc Hge].
    apply N.eqb_eq in Hc. apply Nat.leb_le in Hle, Hge. subst c.
    repeat split; auto; try discriminate.
  - intros (-> & Hne & Hall & [Hge Hle] & Hdec).
    rewrite span_prefix by (auto || reflexivity).
    destruct host as [|h host]; [contradiction|].
    apply Nat.leb_le in Hle, Hge. rewrite N.eqb_refl, Hle, Hge, Hdec. reflexivity.
Qed.

(** X13.  [validate] accepts a text exactly when, the white space around
    it removed, it is the word auto, or a host of letters, digits and
    dots, a colon and a port of one to five decimal digits whose number
    is between 1 and 65535, or, not having that shape, the path of a
    file.  A text of the shape host:port is never looked up as a file. *)
Theorem validate_accepts (text : str) :
  validate world text = true <->
  strip text = u "auto" \/
  (exists host port,
     address_shape world (strip text) host port /\
     1 <= int_of world port < 65536) \/
  ((forall host port, ~ address_shape world (strip text) host port) /\
   isfile world (strip text) = true).
Proof.
  unfold validate. destruct (bool_decide_reflect (strip text = u "auto")) as [Hauto|Hauto].
  { split; auto. }
  destruct (match_address world (strip text)) as [[host port]|] eqn:Hm.
  - apply match_address_shape in Hm. split.
    + intros [Hlo Hhi]%andb_true_iff. apply N.leb_le in Hlo. apply N.ltb_lt in Hhi.
      right. left. exists host, port. auto.
    + intros [Ha|[(host' & port' & Hshape & Hlo & Hhi)|[Hnone _]]].
      * contradiction.
      * apply match_address_shape in Hm, Hshape. rewrite Hm in Hshape.
        injection Hshape as <- <-.
        apply andb_true_iff. split; [now apply N.leb_le|now apply N.ltb_lt].
      * destruct (Hnone host port Hm).
  - split.
    + intros Hfile. right. right. split; [|exact Hfile].
      intros host port Hshape. apply match_address_shape in Hshape. congruence.
    + intros [Ha|[(host' & port' & Hshape & _)|[_ Hfile]]].
      * contradiction.
      * apply match_address_shape in Hshape. congruence.
      * exact Hfile.
Qed.

Lemma rstrip_last s l : is_space l = false -> rstrip (s ++ [l]) = s ++ [l].
Proof.
  intros Hl. unfold rstrip. rewrite rev_app_distr. cbn [rev app lstrip].
  rewrite Hl. cbn [rev]. now rewrite rev_involutive.
Qed.

Lemma strip_unchanged h s l :
  is_space h = false -> is_space l = false -> strip (h :: s ++ [l]) = h :: s ++ [l].
Proof.
  intros Hh Hl. unfold strip. cbn [lstrip]. rewrite Hh.
  exact (rstrip_last (h :: s) l Hl).
Qed.

Lemma ascii_digit_range c : ascii_digit c = true <-> 48 <= c <= 57.
Proof.
  unfold ascii_digit. rewrite andb_true_iff, N.leb_le, N.leb_le. reflexivity.
Qed.

Lemma host_char_not_space c : host_char c = true -> is_space c = false.
Proof.
  intros H. destruct (is_space c) eqn:E; [exfalso|reflexivity].
  unfold host_char, is_space in *.
  rewrite ?orb_true_iff, ?andb_true_iff, ?N.leb_le, ?N.eqb_eq in *. lia.
Qed.

Lemma ascii_digit_not_space c : ascii_digit c = true -> is_space c = false.
Proof.
  intros H. apply host_char_not_space. unfold host_char.
  unfold ascii_digit in H. rewrite H. now rewrite orb_true_r.
Qed.

Lemma is_decimal_ascii c : reads_ascii world -> ascii_digit c = true -> is_decimal world c = true.
Proof.
  intros Hw Hc. unfold is_decimal. now rewrite (Hw c) by now apply ascii_digit_range.
Qed.

Lemma not_auto host port : host ++ colon :: port <> u "auto".
Proof.
  intros Heq. assert (Hin : In colon (host ++ colon :: port)) by (apply in_or_app; right; now left).
  rewrite Heq in Hin. cbv in Hin. repeat destruct Hin as [Hin|Hin]; try discriminate Hin; exact Hin.
Qed.

Lemma strip_host_port host port :
  host <> [] -> forallb host_char host = true ->
  port <> [] -> forallb ascii_digit port = true ->
  strip (host ++ colon :: port) = host ++ colon :: port.
Proof.
  intros Hne Hhost Hp Hport.
  destruct host as [|h host]; [contradiction|].
  destruct (exists_last Hp) as (init & l & ->).
  cbn [forallb] in Hhost. apply andb_true_iff in Hhost as [Hh _].
  rewrite forallb_app in Hport. apply andb_true_iff in Hport as [_ Hl].
  cbn [forallb] in Hl. rewrite andb_true_r in Hl.
  change ((h :: host) ++ colon :: init ++ [l]) with (h :: host ++ (colon :: init) ++ [l]).
  rewrite app_assoc.
  apply strip_unchanged; [now apply host_char_not_space|now apply ascii_digit_not_space].
Qed.

Lemma validate_host_port host port :
  reads_ascii world ->
  host <> [] -> forallb host_char host = true ->
  (1 <= length port <= 5)%nat -> forallb ascii_digit port = true ->
  validate world (host ++ colon :: port) =
  (1 <=? int_of world port) && (int_of world port <? 65536).
Proof.
  intros Hw Hne Hhost Hlen Hport.
  assert (Hdec : forallb (is_decimal world) port = true).
  { rewrite forallb_forall in *. intros c Hc. apply is_decimal_ascii; auto. }
  assert (Hstrip : strip (host ++ colon :: port) = host ++ colon :: port).
  { apply strip_host_port; auto. destruct port; [cbn in Hlen; lia|discriminate]. }
  unfold validate. cbv zeta. rewrite Hstrip.
  rewrite bool_decide_eq_false_2 by apply not_auto.
  assert (Hm : match_address world (host ++ colon :: port) = Some (host, port))
    by (apply match_address_shape; repeat split; auto; lia).
  now rewrite Hm.
Qed.

Lemma digits_ascii d : forallb ascii_digit (digits d) = true.
Proof. induction d; cbn [digits forallb]; rewrite ?IHd; reflexivity. Qed.

Lemma int_of_digits_acc d acc :
  reads_ascii world ->
  fold_left (fun a c => a * 10 + default 0 (decimal world c)) (digits d) (N.of_nat acc)
  = N.of_nat (Nat.of_uint_acc d acc).
Proof.
  intros Hw. revert acc; induction d; intros acc;
    cbn [digits fold_left Nat.of_uint_acc]; [reflexivity|..];
    rewrite Hw by lia; cbn [default]; unfold id; rewrite <- IHd; f_equal;
    rewrite Nat.tail_mul_spec; lia.
Qed.

(** X14.  Where the Unicode database reads the ASCII digits as usual,
    [validate] accepts a host, a colon and a decimal numeral of one to
    five digits exactly when the number that the numeral denotes is
    between 1 and 65535, leading zeros allowed; the file system is not
    asked. *)
Theorem validate_decimal_port (host : str) (d : Decimal.uint) :
  reads_ascii world ->
  host <> [] -> forallb host_char host = true ->
  (1 <= length (digits d) <= 5)%nat ->
  let n := N.of_nat (Nat.of_uint d) in
  validate world (host ++ colon :: digits d) = (1 <=? n) && (n <? 65536).
Proof.
  intros Hw Hne Hhost Hlen n.
  rewrite validate_host_port by auto using digits_ascii.
  unfold int_of. change 0 with (N.of_nat 0). rewrite int_of_digits_acc by exact Hw.
  reflexivity.
Qed.

Lemma has_false (c : N) (text : str) : has c text = false <-> ~ In c text.
Proof.
  unfold has. split.
  - intros H Hin. assert (Ht : existsb (N.eqb c) text = true)
      by (apply existsb_exists; exists c; split; [exact Hin|apply N.eqb_refl]).
    congruence.
  - intros Hnot. destruct (existsb (N.eqb c) text) eqn:E; [|reflexivity].
    apply existsb_exists in E as (x & Hin & Hx). apply N.eqb_eq in Hx. subst x.
    contradiction.
Qed.

Lemma rfind_absent (c : N) (text : str) : ~ In c text -> rfind c text = (-1)%Z.
Proof.
  induction text as [|x text IH]; [reflexivity|]. intros Hnot. cbn [rfind].
  rewrite IH by (intros Hin; apply Hnot; now right). cbn.
  destruct (N.eqb_spec x c) as [->|]; [|reflexivity]. destruct Hnot. now left.
Qed.

Lemma rfind_last (c : N) (pre suf : str) :
  ~ In c suf -> rfind c (pre ++ c :: suf) = Z.of_nat (length pre).
Proof.
  intros Hnot. induction pre as [|x pre IH].
  - cbn [app rfind length]. rewrite (rfind_absent c suf Hnot). cbn. now rewrite N.eqb_refl.
  - cbn [app rfind length]. rewrite IH.
    destruct (Z.leb_spec 0 (Z.of_nat (length pre))); lia.
Qed.

Lemma last_occurrence (c : N) (text : str) :
  In c text -> exists pre suf, text = pre ++ c :: suf /\ ~ In c suf.
Proof.
  induction text as [|x text IH]; [intros []|].
  destruct (has c text) eqn:Hc.
  - intros _. destruct IH as (pre & suf & -> & Hnot).
    { destruct (existsb_exists (N.eqb c) text) as [Hex _].
      destruct (Hex Hc) as (y & Hin & Hy). apply N.eqb_eq in Hy. now subst y. }
    exists (x :: pre), suf. auto.
  - apply has_false in Hc. intros [->|Hin]; [|contradiction].
    exists [], text. auto.
Qed.

Lemma has_true (c : N) (text : str) : has c text = true <-> In c text.
Proof.
  destruct (has c text) eqn:E.
  - split; [intros _|reflexivity]. apply existsb_exists in E as (x & Hin & Hx).
    apply N.eqb_eq in Hx. now subst x.
  - apply has_false in E. split; [discriminate|contradiction].
Qed.

(** X15.  [initial_selection] selects what follows the last colon of the
    initial text, up to its end; in a text without colon, what follows
    the last slash; and nothing in a text with neither. *)
Theorem initial_selection_after_last (port_files : list str) (text : str) :
  initial_text world port_files = inr text ->
  let stop := Z.of_nat (length text) in
  (exists pre suf, text = pre ++ colon :: suf /\ ~ In colon suf /\
     initial_selection world port_files = inr (Some (Z.of_nat (length pre) + 1, stop)%Z)) \/
  (~ In colon text /\
   exists pre suf, text = pre ++ slash :: suf /\ ~ In slash suf /\
     initial_selection world port_files = inr (Some (Z.of_nat (length pre) + 1, stop)%Z)) \/
  (~ In colon text /\ ~ In slash text /\ initial_selection world port_files = inr None).
Proof.
  intros Htext stop. unfold initial_selection. rewrite Htext.
  destruct (has colon text) eqn:Hc.
  - left. apply has_true, last_occurrence in Hc as (pre & suf & -> & Hnot).
    exists pre, suf. rewrite rfind_last by exact Hnot. auto.
  - apply has_false in Hc. right. destruct (has slash text) eqn:Hs.
    + left. split; [exact Hc|].
      apply has_true, last_occurrence in Hs as (pre & suf & -> & Hnot).
      exists pre, suf. rewrite rfind_last by exact Hnot. auto.
    + apply has_false in Hs. right. auto.
Qed.

Lemma scan_files_found folder port_files text :
  scan_files world folder port_files = inr (Some text) ->
  exists port_file raw,
    In port_file port_files /\
    exists_ world (folder ++ u "/" ++ port_file) = true /\
    read world (folder ++ u "/" ++ port_file) 10 = inr raw /\
    text = u "localhost:" ++ strip raw /\
    port_pattern (strip raw) = true.
Proof.
  induction port_files as [|pf rest IH]; [discriminate|]. cbn [scan_files].
  destruct (exists_ world (folder ++ u "/" ++ pf)) eqn:Hex.
  - destruct (read world (folder ++ u "/" ++ pf) 10) as [e|raw] eqn:Hread; [discriminate|].
    destruct (port_pattern (strip raw)) eqn:Hpat.
    + intros [= <-]. exists pf, raw. repeat split; auto. now left.
    + intros H. destruct (IH H) as (pf' & raw' & Hin & Hrest).
      exists pf', raw'. split; [now right|exact Hrest].
  - intros H. destruct (IH H) as (pf' & raw' & Hin & Hrest).
    exists pf', raw'. split; [now right|exact Hrest].
Qed.

Lemma scan_folders_found dirs port_files text :
  scan_folders world dirs port_files = inr (Some text) ->
  exists folder, In folder dirs /\ scan_files world folder port_files = inr (Some text).
Proof.
  induction dirs as [|folder rest IH]; [discriminate|]. cbn [scan_folders].
  destruct (scan_files world folder port_files) as [e|[found|]] eqn:Hscan.
  - discriminate.
  - intros [= <-]. exists folder. split; [now left|exact Hscan].
  - intros H. destruct (IH H) as (folder' & Hin & Hfound).
    exists folder'. split; [now right|exact Hfound].
Qed.

Lemma int_of_positive acc port :
  1 <= acc -> 1 <= fold_left (fun a c => a * 10 + default 0 (decimal world c)) port acc.
Proof.
  revert acc; induction port as [|c port IH]; intros acc Hacc; [exact Hacc|].
  cbn [fold_left]. apply IH. lia.
Qed.

Lemma port_pattern_digits content :
  port_pattern content = true ->
  content <> [] /\ forallb ascii_digit content = true /\
  (reads_ascii world -> 1 <= int_of world content).
Proof.
  destruct content as [|c rest]; [discriminate|]. cbn [port_pattern].
  intros [[Hlo Hhi]%andb_true_iff Hrest]%andb_true_iff.
  apply N.leb_le in Hlo, Hhi.
  split; [discriminate|]. split.
  - cbn [forallb]. apply andb_true_iff. split; [|exact Hrest].
    apply ascii_digit_range. lia.
  - intros Hw. unfold int_of. cbn [fold_left]. apply int_of_positive.
    rewrite (Hw c) by lia. cbn. lia.
Qed.

Lemma ascii_digits_no_colon content : forallb ascii_digit content = true -> ~ In colon content.
Proof.
  intros Hall Hin. rewrite forallb_forall in Hall. specialize (Hall _ Hin). discriminate.
Qed.

Lemma validate_localhost content :
  reads_ascii world -> port_pattern content = true ->
  validate world (u "localhost:" ++ content) =
  if (length content <=? 5)%nat then int_of world content <? 65536
  else isfile world (u "localhost:" ++ content).
Proof.
  intros Hw Hpat. destruct (port_pattern_digits content Hpat) as (Hne & Hdig & Hpos).
  specialize (Hpos Hw).
  change (u "localhost:" ++ content) with (u "localhost" ++ colon :: content).
  destruct (Nat.leb_spec (length content) 5) as [Hle|Hgt].
  - rewrite validate_host_port; auto; try discriminate.
    + apply N.leb_le in Hpos. now rewrite Hpos.
    + destruct content; [contradiction|cbn [length] in *; lia].
  - unfold validate. cbv zeta. rewrite strip_host_port; auto; try discriminate.
    rewrite bool_decide_eq_false_2 by apply not_auto.
    unfold match_address. rewrite span_prefix by reflexivity.
    cbn [u map list_ascii_of_string]. 
    apply Nat.leb_gt in Hgt. rewrite Hgt, andb_false_r. reflexivity.
Qed.

(** X16.  The initial text is either the one remembered (the address
    of the last connection, or localhost and a colon), or it comes from
    a port file: a file of one of the folders that exists and whose first
    ten characters, stripped, are a numeral without leading zero; the
    text is then localhost, a colon and that numeral, the initial
    selection is exactly the numeral, and [validate] accepts the text
    when the numeral has at most five digits and is below 65536 (with
    more digits, when the text names a file). *)
Theorem initial_text_from_port_file (port_files : list str) (text : str) :
  reads_ascii world ->
  initial_text world port_files = inr text ->
  text = match last_conn world with Some (Some address) => address | _ => u "localhost:" end \/
  exists dirs folder port_file raw,
    folders world = Some dirs /\ In folder dirs /\ In port_file port_files /\
    exists_ world (folder ++ u "/" ++ port_file) = true /\
    read world (folder ++ u "/" ++ port_file) 10 = inr raw /\
    port_pattern (strip raw) = true /\
    text = u "localhost:" ++ strip raw /\
    initial_selection world port_files =
      inr (Some (10, 10 + Z.of_nat (length (strip raw)))%Z) /\
    validate world text =
      if (length (strip raw) <=? 5)%nat then int_of world (strip raw) <? 65536
      else isfile world text.
Proof.
  intros Hw Htext. pose proof Htext as Hrun. unfold initial_text in Hrun.
  set (scanned := match port_files, folders world with
                  | _ :: _, Some dirs => scan_folders world dirs port_files
                  | _, _ => inr None
                  end) in Hrun.
  destruct scanned as [e|[found|]] eqn:Hscan; [discriminate| |].
  - right. injection Hrun as ->. subst scanned.
    destruct port_files as [|pf0 rest]; [discriminate|].
    destruct (folders world) as [dirs|] eqn:Hdirs; [|discriminate].
    apply scan_folders_found in Hscan as (folder & Hfolder & Hfiles).
    apply scan_files_found in Hfiles as (pf & raw & Hpf & Hex & Hread & -> & Hpat).
    exists dirs, folder, pf, raw.
    repeat (split; [assumption || reflexivity|]).
    split; [|now apply validate_localhost].
    unfold initial_selection. rewrite Htext.
    destruct (port_pattern_digits _ Hpat) as (_ & Hdig & _).
    change (u "localhost:" ++ strip raw) with (u "localhost" ++ colon :: strip raw).
    assert (Hhas : has colon (u "localhost" ++ colon :: strip raw) = true)
      by (apply has_true, in_or_app; right; now left).
    rewrite Hhas, rfind_last by now apply ascii_digits_no_colon.
    rewrite length_app. cbn [length u map list_ascii_of_string].
    do 3 f_equal. lia.
  - left. destruct (last_conn world) as [[address|]|]; congruence.
Qed.

End AddressFacts.

(** ** Connecting and disconnecting in turn *)

Section ReuseFacts.

Import Outcome.

Variable env : collaborators.

Lemma connect_accepted_state m s :
  accept env (S (attempts m)) = Some s ->
  exists m' new,
    connect env m = (Ret tt, m') /\
    trace m' = trace m ++ new /\
    closes new = 0%nat /\ clears new = 0%nat /\
    socket (this m') = Some s /\
    disconnecting (this m') = disconnecting (this m) /\
    window (this m') = window (this m) /\
    conn_ref (this m') = conn_ref (this m) /\
    active_window m' = active_window m /\
    conn_of m' = <[active_window m := conn_ref (this m)]> (conn_of m) /\
    evals m' = evals m /\ watches m' = watches m.
Proof.
  intros Hacc. eexists. eexists.
  split; [unfold connect, Conn.connect, get_state, try_except; run; fields;
          cbn [connect_impl socket_hooks];
          unfold socket_connect_impl, set_status, set_self, socket_connect,
            cs_common_set_status, set_socket, set_reader, set_state_conn; run; fields;
          rewrite Hacc; fields; reflexivity|].
  fields. split; [rewrite <- !app_assoc; reflexivity|].
  repeat split; eauto.
Qed.

(** X17.  [connect()] followed by [disconnect()].  On a connection object
    whose flag is not set this is a round trip: the socket that the
    attempt gave is closed, once, and the state of the current window
    refers to no connection, as if it had never referred to one.  On an
    object that was disconnected before, the flag is still set and
    [disconnect()] does nothing: the new socket stays open and the state
    of the current window keeps referring to the connection. *)
Theorem connect_then_disconnect (m : machine) (s : Socket) :
  accept env (S (attempts m)) = Some s ->
  let m1 := snd (connect env m) in
  let m2 := snd (disconnect env m1) in
  if disconnecting (this m)
  then m2 = m1 /\
       socket (this m2) = Some s /\
       conn_of m2 !! active_window m = Some (conn_ref (this m))
  else socket (this m2) = None /\
       conn_of m2 = delete (active_window m) (conn_of m) /\
       closes (run_trace (disconnect env) m1) = 1%nat /\
       clears (run_trace (disconnect env) m1) = 1%nat /\
       disconnecting (this m2) = true.
Proof.
  intros Hacc m1 m2.
  destruct (connect_accepted_state m s Hacc)
    as (m' & new & Hrun & Htr & Hc & Hs & Hsock & Hflag & Hwin & Href & Hact & Htable & _).
  assert (Hm1 : m1 = m') by (unfold m1; now rewrite Hrun). 
  destruct (disconnecting (this m)) eqn:Hset.
  - assert (Hm2 : m2 = m1).
    { unfold m2. rewrite disconnect_again; [reflexivity|]. rewrite Hm1. exact Hflag. }
    rewrite Hm2, Hm1. split; [reflexivity|]. split; [exact Hsock|].
    rewrite Htable. apply lookup_insert_eq.
  - assert (Hrun2 : disconnect env m1 = (Ret tt, torn_down m1)).
    { apply disconnect_first. rewrite Hm1. exact Hflag. }
    unfold m2. rewrite Hrun2. cbn [snd].
    rewrite (run_trace_appended (disconnect env) m1
               (match socket (this m1) with Some _ => [EClose] | None => [] end ++
                [ESetStatus (window (this m1)) None; EResetWarnings (window (this m1))]))
      by (rewrite Hrun2; reflexivity).
    unfold torn_down. fields. rewrite Hm1, Hsock, Hact, Htable.
    split; [reflexivity|]. split; [apply delete_insert_eq|]. auto.
Qed.

End ReuseFacts.

(** ** From an answer to its Eval *)

Section RoutingFacts.

Import Outcome.

Variable env : collaborators.

Lemma of_uint_acc_pos d : forall acc n,
  n = Pos.to_nat acc -> N.of_nat (Nat.of_uint_acc d n) = N.pos (Pos.of_uint_acc d acc).
Proof.
  induction d; intros acc n Hn; cbn [Nat.of_uint_acc Pos.of_uint_acc];
    [subst n; lia|..]; apply IHd; rewrite Nat.tail_mul_spec; lia.
Qed.

Lemma of_uint_nat d : N.of_nat (Nat.of_uint d) = Pos.of_uint d.
Proof.
  induction d; cbn [Pos.of_uint]; [reflexivity|exact IHd|..];
    unfold Nat.of_uint; cbn [Nat.of_uint_acc]; apply of_uint_acc_pos; reflexivity.
Qed.

Lemma to_uint_nat i : Nat.to_uint i = N.to_uint (N.of_nat i).
Proof.
  pose proof (DecimalNat.Unsigned.to_of (Nat.to_uint i)) as Hnorm.
  rewrite DecimalNat.Unsigned.of_to in Hnorm.
  pose proof (of_uint_nat (Nat.to_uint i)) as Hval.
  rewrite DecimalNat.Unsigned.of_to in Hval.
  rewrite Hval. change (Pos.of_uint (Nat.to_uint i)) with (N.of_uint (Nat.to_uint i)).
  rewrite DecimalN.Unsigned.to_of. exact Hnorm.
Qed.

Lemma str_of_Z_of_nat i : str_of_Z (Z.of_nat i) = str_of_nat i.
Proof.
  unfold str_of_nat. rewrite to_uint_nat. destruct i; reflexivity.
Qed.

Lemma handled m mach new :
  trace (snd (handle_msg env m mach)) = trace mach ++ new ->
  run_trace (handle_msg env m) mach = new.
Proof. apply run_trace_appended. Qed.

(** X18.  Answers find their Evals.  Let [e] be the Eval that [eval]
    installs for the form at index [idx] of a batch.  A ret message that
    carries the identifier of the batch as id and [idx] as idx makes
    [handle_msg] report the success under the identifier of [e], and
    nothing else; an ex message with the same id and idx reports the
    exception under the identifier of [e]; and a done message with that id
    reports the batch identifier of [e]. *)
Theorem result_reaches_eval (view : View) (on_finish : option callback) (bt : batch)
  (idx : nat) (e : Eval) (m : msg) (mach : machine) :
  batch_evals view on_finish bt !! idx = Some e ->
  m !! u "id" = Some (VInt (batch_id bt)) ->
  (m !! u "tag" = Some (VStr (u "ret")) -> m !! u "idx" = Some (VInt (Z.of_nat idx)) ->
     exists t,
       run_trace (handle_msg env m) mach =
         [EOnSuccess t (get_item m (u "val")) (get_item m (u "time"))] /\
       VStr t = eval_id e) /\
  (m !! u "tag" = Some (VStr (u "ex")) -> m !! u "idx" = Some (VInt (Z.of_nat idx)) ->
     run_trace (handle_msg env m) mach =
       [EOnException (eval_id e) (get_item m (u "val")) (get_item m (u "source"))
          (get_item m (u "line")) (get_item m (u "column")) (get_item m (u "trace"))]) /\
  (m !! u "tag" = Some (VStr (u "done")) ->
     run_trace (handle_msg env m) mach = [EOnDone (eval_batch_id e)]).
Proof.
  intros He Hid. apply batch_evals_lookup in He as (form & _ & ->).
  cbn [batch_eval eval_id eval_batch_id].
  split; [|split].
  - intros Htag Hidx. eexists. split.
    + apply handled.
      unfold handle_msg, or_else, handle_value, item, get_item. run.
      rewrite Htag, Hid, Hidx. cbn [default]. unfold id. unfold id. 
      rewrite bool_decide_eq_true_2 by reflexivity. fields. reflexivity.
    + unfold id. cbn [format]. now rewrite str_of_Z_of_nat.
  - intros Htag Hidx. apply handled.
    unfold handle_msg, or_else, handle_value, handle_exception, item, get_item. run.
    rewrite Htag, Hid, Hidx. cbn [default]. unfold id.
    rewrite bool_decide_eq_false_2 by discriminate.
    rewrite bool_decide_eq_true_2 by reflexivity. fields.
    cbn [format]. now rewrite str_of_Z_of_nat.
  - intros Htag. apply handled.
    unfold handle_msg, or_else, handle_value, handle_exception, handle_done, item, get_item.
    run. rewrite Htag, Hid. cbn [default]. unfold id.
    rewrite !bool_decide_eq_false_2 by discriminate.
    rewrite bool_decide_eq_true_2 by reflexivity. fields. reflexivity.
Qed.

End RoutingFacts.

(** ** The status after a disconnect *)

Section StatusFacts.

Import Outcome.

Variable env : collaborators.

(** X19.  [disconnect()] does not touch the status that the object holds:
    a connection that was ready still answers [ready()] with true after
    it was disconnected.  What the first [disconnect()] clears is the
    status shown for the window, and the reference of the state of the
    current window. *)
Theorem disconnect_keeps_status (m : machine) :
  let m' := snd (disconnect env m) in
  status (this m') = status (this m) /\
  ready (this m') = ready (this m) /\
  (disconnecting (this m) = false ->
     status_bar m' !! window (this m) = None /\
     conn_of m' !! active_window m = None).
Proof.
  cbv zeta. destruct (disconnecting (this m)) eqn:Hflag.
  - rewrite (disconnect_again env m Hflag). cbn [snd]. repeat split; discriminate.
  - rewrite (disconnect_first env m Hflag). cbn [snd]. unfold torn_down, ready. fields.
    split; [reflexivity|]. split; [reflexivity|]. intros _.
    split; apply lookup_delete_eq.
Qed.

End StatusFacts.

(** ** The base class *)

Section PlainFacts.

Import Plain.

Variable env : collaborators.

(** X20.  [Connection.eval], the method of the base class, makes one Eval
    for each selected region: for non-empty regions and an [eval_impl]
    that returns, the call installs as many Evals as there are regions,
    in their order, each for its region, without batch identifier, and
    with consecutive fresh identifiers. *)
Theorem base_eval_one_per_region (impl : hooks) (view : View) (sel : list region)
  (transform_fn : option transform) (print_quota : value)
  (on_finish : option callback) (m : machine) :
  quiet (eval_impl impl) ->
  Forall (fun s => region_empty s = false) sel ->
  exists m',
    Conn.eval env impl view sel transform_fn print_quota on_finish m = (Ret tt, m') /\
    evals m' = evals m ++ imap (region_eval view on_finish (next_eval_id m)) sel /\
    next_eval_id m' = (next_eval_id m + Z.of_nat (length sel))%Z.
Proof.
  intros Himpl Hsel. revert m. unfold Conn.eval.
  induction Hsel as [|s sel Hs _ IH]; intros m.
  - exists m. cbn [for_each imap length]. rewrite app_nil_r, Z.add_0_r. auto.
  - cbn [for_each]. unfold eval_region_of. rewrite Hs.
    unfold new_eval, next_id. run. cbn [truthy]. fields.
    destruct (rowcol_utf16 view (region_begin s)) as [line column].
    destruct (code env view s s transform_fn) as [[c ns] forms].
    match goal with |- context [eval_impl impl ?form ?m1] =>
      destruct (Himpl form m1) as (m2 & Hrun & Hev & Hnext); rewrite Hrun end.
    fields. destruct (IH m2) as (m' & Hrest & Hev' & Hnext').
    exists m'. split; [exact Hrest|].
    rewrite Hev', Hnext', Hev, Hnext. cbn [imap length]. rewrite <- app_assoc.
    split; [|lia]. cbn [app]. do 2 f_equal.
    + unfold region_eval. do 2 f_equal. lia.
    + apply imap_ext. intros i x _. unfold region_eval. cbn. do 2 f_equal. lia.
Qed.

End PlainFacts.

(** ** The theorems at work on sample data *)

Section OutcomeCases.

Import Scenario Plain.

Lemma try_connect_impl_ends_witness :
  exists m', try_connect_impl (accepting 3) 6 1000 Sample.mach = (Ret (Some tt), m').
Proof.
  destruct (try_connect_impl_ends (accepting 3) 1000 Sample.mach 6) as (m' & Hrun & _).
  - vm_compute. discriminate.
  - exists m'. exact Hrun.
Defined.

Example try_connect_third_attempt :
  let m' := snd (try_connect_impl (accepting 3) 6 1000 Sample.mach) in
  attempts m' = 3%nat /\ socket (this m') = Some peer /\
  conn_of m' !! Some 1%nat = Some 1%nat /\ disconnecting (this m') = false.
Proof. vm_compute. repeat split; reflexivity. Qed.


Lemma ready_iff_phase_4_witness :
  ready (this (snd (set_status 4 (u "localhost:5555") Sample.mach))) = true.
Proof.
  refine (proj2 (proj1 (ready_iff_phase_4 4 (u "localhost:5555") Sample.mach _)) eq_refl).
  repeat constructor.
Defined.

Lemma handle_msg_missing_key_witness :
  handle_msg Sample.env no_tag Sample.mach = (Raise (KeyError (u "tag")), Sample.mach).
Proof.
  refine (proj1 (handle_msg_missing_key Sample.env no_tag Sample.mach) _).
  vm_compute. reflexivity.
Defined.

Lemma eval_without_socket_witness :
  fst (eval Sample.env Sample.view [(0, 27)%Z] None VNone None Sample.mach) =
  Raise AttributeError.
Proof.
  refine (proj1 (eval_without_socket Sample.env Sample.view (0, 27)%Z [] None VNone None
                   Sample.mach _ _)); reflexivity.
Defined.

Example eval_without_socket_leaves_evals :
  map eval_id
    (evals (snd (eval Sample.env Sample.view [(0, 27)%Z] None VNone None Sample.mach))) =
  [VInt 10; VInt 11; VInt 12; VStr (u "13.0"); VStr (u "13.1"); VStr (u "13.2")].
Proof. vm_compute. reflexivity. Qed.

Lemma eval_without_forms_witness :
  evals (snd (eval comments_only Sample.view [(0, 27)%Z] None VNone None
                (Sample.connected [] Sample.mach))) =
  evals (Sample.connected [] Sample.mach).
Proof.
  refine (proj1 (eval_without_forms comments_only Sample.view (0, 27)%Z None VNone None
                   (Sample.connected [] Sample.mach) _ _)); reflexivity.
Defined.

Lemma connect_then_disconnect_witness :
  socket (this (snd (disconnect (accepting 1) (snd (connect (accepting 1) Sample.mach))))) =
  None.
Proof.
  pose proof (connect_then_disconnect (accepting 1) Sample.mach peer eq_refl) as H.
  cbv zeta in H. change (disconnecting (this Sample.mach)) with false in H.
  exact (proj1 H).
Defined.

Lemma result_reaches_eval_witness :
  exists t,
    run_trace (handle_msg Sample.env ret_13_1) Sample.mach =
      [EOnSuccess t (VStr (u "7")) VNone] /\
    VStr t = VStr (u "13.1").
Proof.
  destruct (proj1 (result_reaches_eval Sample.env Sample.view None sample_batch 1
                     (batch_eval Sample.view None sample_batch 1
                        {| node_name := u "parens"; node_start := 16; node_end := 23 |})
                     ret_13_1 Sample.mach eq_refl eq_refl) eq_refl eq_refl)
    as (t & Htr & Ht).
  exists t. split; [exact Htr|exact Ht].
Defined.

Lemma base_eval_one_per_region_witness :
  exists m',
    Conn.eval Sample.env base_hooks Sample.view [(0, 27)%Z; (3, 9)%Z] None VNone None
      Sample.mach = (Ret tt, m') /\
    next_eval_id m' = 15%Z.
Proof.
  destruct (base_eval_one_per_region Sample.env base_hooks Sample.view
              [(0, 27)%Z; (3, 9)%Z] None VNone None Sample.mach)
    as (m' & Hrun & _ & Hnext).
  - intros form m. exists m. repeat split.
  - repeat constructor.
  - exists m'. split; [exact Hrun|exact Hnext].
Defined.

End OutcomeCases.

Section AddressCases.

Import AddressInput.

Lemma ascii_world_reads_ascii : reads_ascii ascii_world.
Proof.
  intros c [Hlo Hhi]. cbn [decimal ascii_world].
  apply N.leb_le in Hlo, Hhi. now rewrite Hlo, Hhi.
Qed.

Lemma validate_ignores_spaces_witness :
  validate ascii_world ([32; 9] ++ u "localhost:5555" ++ [10]) =
  validate ascii_world (u "localhost:5555").
Proof.
  refine (proj1 (validate_ignores_spaces ascii_world [32; 9] (u "localhost:5555") [10] _ _));
    reflexivity.
Defined.

Lemma validate_decimal_port_witness :
  validate ascii_world (u "localhost:5555") = true.
Proof.
  refine (validate_decimal_port ascii_world (u "localhost")
            (Decimal.D5 (Decimal.D5 (Decimal.D5 (Decimal.D5 Decimal.Nil))))
            ascii_world_reads_ascii _ _ _).
  - discriminate.
  - reflexivity.
  - cbn. lia.
Defined.

Example validate_samples :
  map (validate ascii_world)
    [u "localhost:65535"; u "localhost:65536"; u "localhost:0"; u "127.0.0.1:00080";
     u "auto"; u "localhost:"; u "my_host:80"; u "localhost:123456"] =
  [true; false; false; true; true; false; false; false].
Proof. vm_compute. reflexivity. Qed.

Lemma initial_selection_after_last_witness :
  (exists pre suf, u "localhost:7888" = pre ++ colon :: suf /\ ~ In colon suf /\
     initial_selection (project_world (u "7888" ++ [10])) [u ".nrepl-port"] =
       inr (Some (Z.of_nat (length pre) + 1, Z.of_nat (length (u "localhost:7888")))%Z)) \/
  (~ In colon (u "localhost:7888") /\
   exists pre suf, u "localhost:7888" = pre ++ slash :: suf /\ ~ In slash suf /\
     initial_selection (project_world (u "7888" ++ [10])) [u ".nrepl-port"] =
       inr (Some (Z.of_nat (length pre) + 1, Z.of_nat (length (u "localhost:7888")))%Z)) \/
  (~ In colon (u "localhost:7888") /\ ~ In slash (u "localhost:7888") /\
   initial_selection (project_world (u "7888" ++ [10])) [u ".nrepl-port"] = inr None).
Proof.
  exact (initial_selection_after_last (project_world (u "7888" ++ [10])) [u ".nrepl-port"]
           (u "localhost:7888") eq_refl).
Defined.

Example initial_selection_port :
  initial_selection (project_world (u "7888" ++ [10])) [u ".nrepl-port"] =
  inr (Some (10, 14)%Z).
Proof. vm_compute. reflexivity. Qed.

Lemma initial_text_from_port_file_witness :
  initial_text (project_world (u "70000" ++ [10])) [u ".nrepl-port"] =
    inr (u "localhost:70000") /\
  validate (project_world (u "70000" ++ [10])) (u "localhost:70000") = false.
Proof.
  split; [reflexivity|].
  destruct (initial_text_from_port_file (project_world (u "70000" ++ [10]))
              [u ".nrepl-port"] (u "localhost:70000") ascii_world_reads_ascii eq_refl)
    as [Hlast|(dirs & folder & pf & raw & _ & _ & _ & _ & _ & _ & Htext & _ & Hval)].
  - discriminate Hlast.
  - change (u "localhost:70000") with (u "localhost:" ++ u "70000") in Htext.
    apply app_inv_head in Htext. rewrite <- Htext in Hval. exact Hval.
Defined.

End AddressCases.
